(** * pychebfun: Chebyshev interpolants on [-1, 1]

    A shallow embedding of [pychebfun/chebfun.py] and proofs about it.

    Scalars are real numbers (Stdlib [R]): the arrays of the program have
    dtype float, and the development reasons about them in exact
    arithmetic.  Complex-valued and vector-valued samples, which the
    program also accepts, are outside the model.  A NumPy array of floats
    is a [list R]; an operation that raises in Python returns [Raise].

    The functions of NumPy and SciPy that the program calls are modelled by
    what they compute: the discrete Fourier sums for [fft] and [ifft],
    Clenshaw's recurrence for [chebval], the recurrence of [chebint], the
    barycentric quotient for the interpolator.  The root solver [polyroots]
    is a parameter.  A function to approximate is applied pointwise to the
    array of points.  The logarithm [np.log2] of the hint is the one place
    where rounding to double precision is modelled, because the program
    takes its integer part. *)

From Stdlib Require Import Reals Lra Lia ZArith.
From stdpp Require Import base list sorting.

Open Scope R_scope.

(** ** Exceptions *)

(** [NoConvergence] is the class [Chebfun.NoConvergence]; the others are the
    built-in exceptions that the modelled code can raise. *)
Inductive exn : Type :=
| NoConvergence (last : list R) (bnd : R)
| ValueError
| IndexError
| UnboundLocalError
| OverflowError
| TypeError.

Inductive result (A : Type) : Type :=
| Ok (a : A)
| Raise (e : exn).
Arguments Ok {A} a.
Arguments Raise {A} e.

Definition bind {A B : Type} (m : result A) (k : A → result B) : result B :=
  match m with
  | Ok a => k a
  | Raise e => Raise e
  end.

Notation "'do' x <- m ; k" := (bind m (fun x => k))
  (at level 10, x name, m at level 100, k at level 200).

(** Comparisons of real numbers, as the booleans of the program. *)
#[global] Instance Rle_decision : RelDecision Rle := Rle_dec.
#[global] Instance Rge_decision : RelDecision Rge := Rge_dec.
#[global] Instance Rlt_decision : RelDecision Rlt := Rlt_dec.
#[global] Instance Req_decision : EqDecision R := Req_dec_T.

(** ** Arrays *)

Module Np.

(** In-place update [a[i] = f(a[i])] with a non-negative index. *)
Definition alter_at {A} (f : A → A) (i : nat) (a : list A) : result (list A) :=
  if decide (i < length a)%nat then Ok (alter f i a) else Raise IndexError.

(** In-place update of the last entry, [a[-1] = f(a[-1])]. *)
Definition alter_last {A} (f : A → A) (a : list A) : result (list A) :=
  if decide (0 < length a)%nat then Ok (alter f (length a - 1)%nat a)
  else Raise IndexError.

(** [a[i] = x] with a non-negative index. *)
Definition set_at {A} (i : nat) (x : A) (a : list A) : result (list A) :=
  if decide (i < length a)%nat then Ok (<[i:=x]> a) else Raise IndexError.

(** [a[i]] with a non-negative index. *)
Definition get {A} (i : nat) (a : list A) : result A :=
  match a !! i with
  | Some x => Ok x
  | None => Raise IndexError
  end.

(** [np.max(a)]: raises [ValueError] on an empty array. *)
Definition max (a : list R) : result R :=
  match a with
  | [] => Raise ValueError
  | x :: r => Ok (foldl Rmax x r)
  end.

(** [np.abs(a)]. *)
Definition abs (a : list R) : list R := Rabs <$> a.

(** Indices of the true entries of a mask, counted from [i]:
    [np.nonzero(mask)[0]] is [nonzero_from 0 mask]. *)
Fixpoint nonzero_from (i : nat) (mask : list bool) : list nat :=
  match mask with
  | [] => []
  | b :: r => (if b then [i] else []) ++ nonzero_from (S i) r
  end.

Definition nonzero (mask : list bool) : list nat := nonzero_from 0 mask.

(** [np.allclose(a, b)] for an array [a] and a scalar [b], with the default
    tolerances [rtol = 1e-05], [atol = 1e-08]. *)
Definition rtol : R := 1 / 10 ^ 5.
Definition atol : R := 1 / 10 ^ 8.

Definition isclose (a b : R) : bool :=
  bool_decide (Rabs (a - b) <= atol + rtol * Rabs b).

Definition allclose (a : list R) (b : R) : bool :=
  forallb (fun x => isclose x b) a.

(** What [np.log2] returns: a finite double, or one of the two special
    values that it gives for [0] and for a negative number. *)
Inductive double : Type :=
| Num (x : R)
| NegInf
| NaN.

(** The integer nearest to [m]; of two equally near, the even one. *)
Definition rint (m : R) : Z :=
  let n := Int_part m in
  let r := m - IZR n in
  if decide (r < 1 / 2) then n
  else if decide (1 / 2 < r) then (n + 1)%Z
  else if Z.even n then n else (n + 1)%Z.

(** The double nearest to the real [x]: 53 significant bits, ties to even.
    The exponent range of the doubles is not modelled: the numbers rounded
    here are integers below [2^64] and their logarithms. *)
Definition round_double (x : R) : R :=
  if decide (x = 0) then 0
  else
    let e := (Int_part (ln (Rabs x) / ln 2) - 52)%Z in
    IZR (rint (x / powerRZ 2 e)) * powerRZ 2 e.

(** [np.log2(N)] for a Python integer [N]: the integer is converted to a
    double, and the logarithm of this double is rounded to a double.  An
    integer outside the 64-bit range becomes an array of objects, which
    [np.log2] refuses. *)
Definition log2 (N : Z) : result double :=
  if decide (N < - 2 ^ 63 ∨ 2 ^ 64 ≤ N)%Z then Raise TypeError
  else if decide (N = 0)%Z then Ok NegInf
  else if decide (N < 0)%Z then Ok NaN
  else Ok (Num (round_double (ln (round_double (IZR N)) / ln 2))).

End Np.

(** The builtin [int] on a double: truncation towards zero; the special
    values are refused. *)
Definition int (x : Np.double) : result Z :=
  match x with
  | Np.Num x => Ok (if decide (0 <= x) then Int_part x else (- Int_part (- x))%Z)
  | Np.NegInf => Raise OverflowError
  | Np.NaN => Raise ValueError
  end.

(** ** Finite sums and the discrete Fourier transform *)

(** [rsum f n] is the sum of [f 0], ..., [f (n-1)]. *)
Fixpoint rsum (f : nat → R) (n : nat) : R :=
  match n with
  | O => 0
  | S m => rsum f m + f m
  end.

(** Complex numbers as pairs (real part, imaginary part). *)
Definition complex : Type := (R * R)%type.

Definition real (z : complex) : R := fst z.
Definition imag (z : complex) : R := snd z.

(** Multiplication and division of a complex number by a real one. *)
Definition cscale (c : R) (z : complex) : complex := (c * fst z, c * snd z).
Definition cdiv (z : complex) (c : R) : complex := (fst z / c, snd z / c).

(** The angle [2 pi j k / n]. *)
Definition angle (n j k : nat) : R := 2 * PI * INR j * INR k / INR n.

(** [scipy.fftpack.fft] of a real array:
    [y[k] = sum_j x[j] exp(-2 pi i j k / n)]; it refuses an empty array. *)
Definition fft (x : list R) : result (list complex) :=
  let n := length x in
  if decide (n = 0)%nat then Raise ValueError
  else Ok ((fun k => (rsum (fun j => nth j x 0 * cos (angle n j k)) n,
                      - rsum (fun j => nth j x 0 * sin (angle n j k)) n))
           <$> seq 0 n).

(** [scipy.fftpack.ifft] of a real array:
    [y[k] = 1/n sum_j x[j] exp(2 pi i j k / n)]. *)
Definition ifft (x : list R) : result (list complex) :=
  let n := length x in
  if decide (n = 0)%nat then Raise ValueError
  else Ok ((fun k => (rsum (fun j => nth j x 0 * cos (angle n j k)) n / INR n,
                      rsum (fun j => nth j x 0 * sin (angle n j k)) n / INR n))
           <$> seq 0 n).

(** ** Interpolation and evaluation (values to coefficients and back) *)

Definition emach : R := / 2 ^ 52.

(** [data[-2:0:-1]] holds the entries of index [len-2] down to [1]. *)
Definition even_data (data : list R) : list R :=
  data ++ reverse (drop 1 (take (length data - 1)%nat data)).

(** For [N = 0] the array [np.arange(N)] is empty, and so is the result. *)
Definition interpolation_points (N : nat) : list R :=
  if decide (N = 1)%nat then [0]
  else (fun k => cos (INR k * PI / INR (N - 1)%nat)) <$> seq 0 N.

(** [f(x)] for the array [x] of points.  The model covers the functions
    that map an array entry by entry to the array of their values, without
    raising: [f] is a function on the reals, applied to every point.  A
    callable that raises or that returns something else than an array of
    the same length has no counterpart here. *)
Definition sample_function (f : R → R) (N : nat) : list R :=
  f <$> interpolation_points (N + 1)%nat.

Definition dct (data : list R) : result (list R) :=
  let N := (length data / 2)%nat in
  do fftdata <- fft data;
  let fftdata := take (N + 1)%nat fftdata in
  let fftdata := (fun z => cdiv z (INR N)) <$> fftdata in
  do fftdata <- Np.alter_at (fun z => cdiv z 2) 0 fftdata;
  do fftdata <- Np.alter_last (fun z => cdiv z 2) fftdata;
  Ok (real <$> fftdata).

Definition chebpolyfit (sampled : list R) : result (list R) :=
  if decide (length sampled = 1)%nat then Ok sampled
  else dct (even_data sampled).

Definition chebpolyval (chebcoeff : list R) : result (list R) :=
  let N := length chebcoeff in
  if decide (N = 1)%nat then Ok chebcoeff
  else
    let data := (fun x => x / 2) <$> even_data chebcoeff in
    do data <- Np.alter_at (fun x => x * 2) 0 data;
    do data <- Np.alter_at (fun x => x * 2) (N - 1)%nat data;
    do y <- ifft data;
    let fftdata := cscale (2 * (INR N - 1)) <$> y in
    let complex_values := take N fftdata in
    Ok (real <$> complex_values).

(** ** The barycentric interpolator *)

(** The fields of [scipy.interpolate.BarycentricInterpolator] that the
    program sets: weights [wi], points [xi] and values [yi]. *)
Record interp : Type := {
  wi : list R;
  xi : list R;
  yi : list R
}.

(** [weights[1::2] = -1]. *)
Definition set_odd (x : R) (a : list R) : list R :=
  imap (fun i w => if Nat.odd i then x else w) a.

Definition interpolator (x values : list R) : result interp :=
  let N := length values in
  let weights := replicate N 1 in
  do weights <- Np.set_at 0 (1 / 2) weights;
  let weights := set_odd (-1) weights in
  do weights <- Np.alter_last (fun w => w * (1 / 2)) weights;
  (* [p.set_yi(values)] refuses values that are not as many as the points *)
  if decide (length values = length x) then
    Ok {| wi := weights; xi := x; yi := values |}
  else Raise ValueError.

(** Index of the first entry of [a] equal to [x], counted from [i]. *)
Fixpoint find_node (x : R) (i : nat) (a : list R) : option nat :=
  match a with
  | [] => None
  | y :: r => if decide (x = y) then Some i else find_node x (S i) r
  end.

(** Evaluation of the interpolator at a scalar [x]: the value [yi[i]] when
    [x] is the point [xi[i]], the barycentric quotient otherwise. *)
Definition bary_eval (p : interp) (x : R) : R :=
  match find_node x 0 (xi p) with
  | Some i => nth i (yi p) 0
  | None =>
      let c := zip_with (fun w x_i => w / (x - x_i)) (wi p) (xi p) in
      foldr Rplus 0 (zip_with Rmult c (yi p)) / foldr Rplus 0 c
  end.

(** ** numpy.polynomial.chebyshev *)

Module Cheb.

(** [chebval(x, c)] by Clenshaw's recurrence, as NumPy computes it; the
    loop index [i] runs over [3 .. len(c)] and reads [c[-i]]. *)
Definition chebval (x : R) (c : list R) : R :=
  let n := length c in
  let '(c0, c1) :=
    if decide (n = 1)%nat then (nth 0 c 0, 0)
    else if decide (n = 2)%nat then (nth 0 c 0, nth 1 c 0)
    else
      let x2 := 2 * x in
      foldl (fun '(c0, c1) i => (nth (n - i) c 0 - c1, c0 + c1 * x2))
            (nth (n - 2) c 0, nth (n - 1) c 0) (seq 3 (n - 2)) in
  c0 + c1 * x.

(** [chebint(c)] with the defaults [m = 1], [k = []], [lbnd = 0], [scl = 1]:
    the constant term is chosen so that the series vanishes at [lbnd]. *)
Definition chebint (c : list R) : list R :=
  let n := length c in
  if decide (n = 1%nat ∧ nth 0 c 0 = 0) then c
  else
    let tmp := replicate (n + 1) 0 in
    let tmp := <[0%nat := nth 0 c 0 * 0]> tmp in
    let tmp := <[1%nat := nth 0 c 0]> tmp in
    let tmp := if decide (1 < n)%nat then <[2%nat := nth 1 c 0 / 4]> tmp else tmp in
    let tmp :=
      foldl (fun tmp j =>
               let tmp := <[(j + 1)%nat := nth j c 0 / (2 * (INR j + 1))]> tmp in
               alter (fun t => t - nth j c 0 / (2 * (INR j - 1))) (j - 1)%nat tmp)
            tmp (seq 2 (n - 2)) in
    alter (fun t => t + (0 - chebval 0 tmp)) 0%nat tmp.

End Cheb.

(** ** Helper for differentiation *)

(** A [for] loop whose body can raise. *)
Fixpoint for_each {S : Type} (body : nat → S → result S) (js : list nat) (s : S)
  : result S :=
  match js with
  | [] => Ok s
  | j :: js' => do s' <- body j s; for_each body js' s'
  end.

(** [DA[lo:lo+2] = SA[lo+1:lo+3]], the slice assignment
    [DA[m-3:m-1] = SA[m-2:m]] of an array of length [m] with [lo = m - 3];
    for [m = 0] both slices are empty. *)
Definition assign_pair (m : nat) (SA DA : list R) : list R :=
  take (m - 3)%nat DA ++ take 2 (drop (m - 2)%nat SA) ++ drop (m - 1)%nat DA.

Definition differentiator_body (m : nat) (SA : list R) (j : nat) (DA : list R)
  : result (list R) :=
  let k := (m - 3 - 2 * j)%nat in
  do s1 <- Np.get (k + 1) SA;
  do d2 <- Np.get (k + 2) DA;
  do DA <- Np.set_at k (s1 + d2) DA;
  do s0 <- Np.get k SA;
  do d1 <- Np.get (k + 1) DA;
  Np.set_at (k - 1) (s0 + d1) DA.

Definition differentiator (A : list R) : result (list R) :=
  let m := length A in
  let SA := imap (fun k a => a * 2 * INR k) A in
  let DA := replicate m 0 in
  if decide (m = 1)%nat then Ok (replicate (length (take 1 A)) 0)
  else if decide (m = 2)%nat then Ok (take 1 (drop 1 A))
  else
    let DA := assign_pair m SA DA in
    do DA <- for_each (differentiator_body m SA) (seq 0 (m / 2 - 1)) DA;
    do s1 <- Np.get 1 SA;
    do d2 <- Np.get 2 DA;
    Np.set_at 0 ((s1 + d2) * (1 / 2)) DA.

(** [np.unique]: the sorted array of the distinct entries. *)
Fixpoint insert_unique (x : R) (a : list R) : list R :=
  match a with
  | [] => [x]
  | y :: r =>
      if decide (x < y) then x :: y :: r
      else if decide (x = y) then y :: r
      else y :: insert_unique x r
  end.

Definition unique (a : list R) : list R := foldr insert_unique [] a.

(** [abs(r)] of a complex number. *)
Definition cabs (z : complex) : R := sqrt (fst z * fst z + snd z * snd z).

(** ** The class [Chebfun] *)

Module Chebfun.

Record t : Type := {
  _values : list R;
  _scale : R;
  p : interp
}.

(** [Chebfun(values, scale)]; [scale = None] is the default. *)
Definition __init__ (values : list R) (scale : option R) : result t :=
  let N := length values in
  let points := interpolation_points N in
  do scale <- match scale with
              | Some s => Ok s
              | None => Np.max (Np.abs values)
              end;
  do p <- interpolator points values;
  Ok {| _values := values; _scale := scale; p := p |}.

Definition values (self : t) : list R := _values self.

(** [self.p.n], the number of interpolation values. *)
Definition size (self : t) : nat := length (yi (p self)).

Definition chebyshev_coefficients (self : t) : result (list R) :=
  chebpolyfit (values self).

Definition __call__ (self : t) (x : R) : R := bary_eval (p self) x.

Definition from_data (data : list R) : result t := __init__ data None.

Definition from_chebfun (other : t) : result t := __init__ (values other) None.

Definition _threshold (scale : R) : R := 128 * emach * scale.

Definition _cutoff (coeffs : list R) (scale : R) : nat :=
  let bnd := _threshold scale in
  let inds := Np.nonzero ((fun c => bool_decide (Rabs c >= bnd)) <$> coeffs) in
  let N := match last inds with
           | Some i => i
           | None => 0%nat
           end in
  (N + 1)%nat.

(** The defaults are [prune = True] and [scale = 1.]. *)
Definition from_chebcoeff (chebcoeff : list R) (prune : bool) (scale : R)
  : result t :=
  let coeffs := chebcoeff in
  let pruned_coeffs :=
    if prune then take (_cutoff coeffs scale) coeffs else coeffs in
  do values <- chebpolyval pruned_coeffs;
  __init__ values (Some scale).

(** The local variables of [dichotomy] that outlive an iteration. *)
Record trial : Type := {
  coeffs : list R;
  bnd : R;
  last2 : list R
}.

(** One iteration of the loop for the exponent [k]: the variables it
    binds, and whether it ends with [break]. *)
Definition dichotomy_step (f : R → R) (k : nat) : result (trial * bool) :=
  let N := (2 ^ k)%nat in
  let sampled := sample_function f N in
  do coeffs <- chebpolyfit sampled;
  do mx <- Np.max (Np.abs coeffs);
  let bnd := _threshold mx in
  let last := Np.abs (drop (length coeffs - 2)%nat coeffs) in
  Ok ({| coeffs := coeffs; bnd := bnd; last2 := last |},
      forallb (fun l => bool_decide (l <= bnd)) last).

(** [xrange(kmin, kmax)]. *)
Definition xrange (kmin kmax : nat) : list nat := seq kmin (kmax - kmin).

(** The loop over the exponents [ks]; [st] holds the variables bound so
    far.  The boolean of the result tells whether the loop ended with
    [break]. *)
Fixpoint dichotomy_loop (f : R → R) (ks : list nat) (st : option trial)
  : result (option trial * bool) :=
  match ks with
  | [] => Ok (st, false)
  | k :: ks' =>
      do r <- dichotomy_step f k;
      if snd r then Ok (Some (fst r), true)
      else dichotomy_loop f ks' (Some (fst r))
  end.

(** [dichotomy(f, kmin, kmax, raise_no_convergence)]; the defaults are
    [kmin = 2], [kmax = 12], [raise_no_convergence = True].  A variable
    read before the loop bound it raises [UnboundLocalError]. *)
Definition dichotomy (f : R → R) (kmin kmax : nat) (raise_no_convergence : bool)
  : result (list R) :=
  do r <- dichotomy_loop f (xrange kmin kmax) None;
  let '(st, broke) := r in
  match st with
  | None => Raise UnboundLocalError
  | Some s =>
      if negb broke && raise_no_convergence
      then Raise (NoConvergence (last2 s) (bnd s))
      else Ok (coeffs s)
  end.

(** [int(np.log2(N))] for an integer [N], computed in double precision:
    the logarithm of [0] is [-inf] and that of a negative number is [nan],
    which [int] refuses.  The logarithm of a positive integer is not
    negative, so that the result is a natural number. *)
Definition int_log2 (N : Z) : result nat :=
  do x <- Np.log2 N;
  do l <- int x;
  Ok (Z.to_nat l).

(** The keyword arguments that [from_function] hands to [dichotomy]:
    [kmin], [kmax] and [raise_no_convergence]. *)
Definition dichotomy_args (N : option Z) : result (nat * nat * bool) :=
  match N with
  | Some N =>
      do l <- int_log2 N;
      let nextpow2 := (l + 1)%nat in
      Ok (nextpow2, (nextpow2 + 1)%nat, false)
  | None => Ok (2%nat, 12%nat, true)
  end.

Definition from_function (f : R → R) (N : option Z) : result t :=
  do args <- dichotomy_args N;
  let '(kmin, kmax, raise_no_convergence) := args in
  do coeffs <- dichotomy f kmin kmax raise_no_convergence;
  from_chebcoeff coeffs true 1.

(** An operand of a binary operator: a scalar or an instance. *)
Inductive operand : Type :=
| Scalar (x : R)
| Obj (c : t).

(** The decorator [cast_scalar] applied to the second argument. *)
Definition cast_scalar (other : operand) : result t :=
  match other with
  | Scalar x => __init__ [x] None
  | Obj c => Ok c
  end.

(** [padded = np.zeros_like(big); padded[:len(small)] = small]. *)
Definition pad_to (big_coeffs small_coeffs : list R) : result (list R) :=
  if decide (length small_coeffs <= length big_coeffs)%nat
  then Ok (small_coeffs
           ++ replicate (length big_coeffs - length small_coeffs)%nat 0)
  else Raise ValueError.

Definition __add__ (self : t) (other : operand) : result t :=
  do other <- cast_scalar other;
  let big := bool_decide (size self < size other)%nat in
  let ps_small := if big then self else other in
  let ps_big := if big then other else self in
  do small_coeffs <- chebyshev_coefficients ps_small;
  do big_coeffs <- chebyshev_coefficients ps_big;
  do padded <- pad_to big_coeffs small_coeffs;
  let chebsum := zip_with Rplus big_coeffs padded in
  let new_scale := Rmax (_scale self) (_scale other) in
  from_chebcoeff chebsum true new_scale.

Definition __neg__ (self : t) : result t :=
  from_data (Ropp <$> values self).

Definition __sub__ (self : t) (other : operand) : result t :=
  do other <- cast_scalar other;
  do neg <- __neg__ other;
  __add__ self (Obj neg).

Definition __nonzero__ (self : t) : result bool :=
  do c <- chebyshev_coefficients self;
  Ok (negb (Np.allclose c 0)).

Definition __eq__ (self : t) (other : operand) : result bool :=
  do d <- __sub__ self other;
  do nz <- __nonzero__ d;
  Ok (negb nz).

Definition integrate (self : t) : result t :=
  do coeffs <- chebyshev_coefficients self;
  let int_coeffs := Cheb.chebint coeffs in
  from_chebcoeff int_coeffs true 1.

(** The default is [n = 1]. *)
Definition differentiate (self : t) (n : nat) : result t :=
  do bi <- chebyshev_coefficients self;
  do bi <- for_each (fun _ bi => differentiator bi) (seq 0 n) bi;
  from_chebcoeff bi true 1.

(** The coefficients handed to the root solver:
    [a_N, ..., a_1, 2 a_0, a_1, ..., a_N]. *)
Definition companion (ai : list R) : result (list R) :=
  let N := length ai in
  let coeffs := reverse ai ++ drop 1 ai in
  Np.alter_at (fun c => c * 2) (N - 1) coeffs.

(** The roots kept from those of the solver. *)
Definition real_roots (complex_roots : list complex) : list R :=
  real <$> List.filter (fun r => Np.isclose (cabs r) 1) complex_roots.

(** [roots()]; the solver [numpy.polynomial.polynomial.polyroots] is a
    parameter. *)
Definition roots (polyroots : list R → list complex) (self : t)
  : result (list R) :=
  do ai <- chebyshev_coefficients self;
  do coeffs <- companion ai;
  let complex_roots := polyroots coeffs in
  Ok (unique (real_roots complex_roots)).

(** [Chebfun.identity()], the function [x -> x]. *)
Definition identity : result t := from_data [1; -1].

(** [Chebfun.basis(n)], the Chebyshev basis function [T_n]. *)
Definition basis (n : nat) : result t :=
  if decide (n = 0)%nat then __init__ [1] None
  else
    let vals := replicate (n + 1) 1 in
    let vals := set_odd (-1) vals in
    __init__ vals None.

Definition __neq__ (self : t) (other : operand) : result bool :=
  do e <- __eq__ self other;
  Ok (negb e).

Definition __rsub__ (self : t) (other : operand) : result t :=
  do d <- __sub__ self other;
  __neg__ d.

(** [ai[::2]], the entries of even index. *)
Fixpoint every_other (ai : list R) : list R :=
  match ai with
  | [] => []
  | a :: r => a :: match r with
                   | [] => []
                   | _ :: r' => every_other r'
                   end
  end.

(** [sum()]: Clenshaw-Curtis quadrature over the coefficients of even
    index.  The order in which [np.sum] adds is of no account in exact
    arithmetic. *)
Definition sum (self : t) : result R :=
  do ai <- chebyshev_coefficients self;
  let ai2 := every_other ai in
  let n := length ai2 in
  let Tints := (fun k => 2 / (1 - (2 * INR k) ^ 2)) <$> seq 0 n in
  Ok (foldr Rplus 0 (zip_with Rmult Tints ai2)).

(** The method that [_add_operator(op)] attaches to the class. *)
Definition operator_method (op : R → R → R) (self : t) (other : operand)
  : result t :=
  do other <- cast_scalar other;
  from_function (fun x => op (__call__ self x) (__call__ other x)) None.

Definition __mul__ : t → operand → result t := operator_method Rmult.

Definition __rmul__ (self : t) (other : operand) : result t :=
  __mul__ self other.

(** The method that [_add_delegate(ufunc)] attaches to the class. *)
Definition delegate_method (ufunc : R → R) (self : t) : result t :=
  from_function (fun x => ufunc (__call__ self x)) None.

Definition __abs__ (self : t) : result t :=
  from_function (fun x => Rabs (__call__ self x)) None.

Definition dot (self : t) (other : operand) : result R :=
  do prod <- __mul__ self other;
  sum prod.

Definition norm (self : t) : result R :=
  do d <- dot self (Obj self);
  Ok (sqrt d).

Definition derivative (self : t) : result t := differentiate self 1.

End Chebfun.

Import Chebfun.

(** * Vocabulary of the statements *)

(** ** Transforms by index *)

(** The even extension of a sequence of [M + 1] entries, by index. *)
Definition ext (g : nat → R) (M j : nat) : R :=
  if decide (j ≤ M)%nat then g j else g (2 * M - j)%nat.

(** The cosine sums that both transforms compute. *)
Definition cos_transform (g : nat → R) (n k : nat) : R :=
  rsum (fun j => g j * cos (angle n j k)) n.

(** ** The trials of the adaptive degree search *)

(** The coefficients computed at the trial exponent [k], the bound that
    goes with them, and the magnitudes of their last two entries. *)
Definition coeffs_at (f : R → R) (k : nat) : list R :=
  match chebpolyfit (sample_function f (2 ^ k)) with
  | Ok c => c
  | Raise _ => []
  end.

Definition max_abs (a : list R) : R :=
  match Np.max (Np.abs a) with
  | Ok m => m
  | Raise _ => 0
  end.

Definition bound_at (f : R → R) (k : nat) : R :=
  128 * emach * max_abs (coeffs_at f k).

Definition residual_at (f : R → R) (k : nat) : list R :=
  Rabs <$> drop (length (coeffs_at f k) - 2) (coeffs_at f k).

(** The trial at [k] is accepted: the last two magnitudes are within the
    bound. *)
Definition converged (f : R → R) (k : nat) : Prop :=
  Forall (fun x => x <= bound_at f k) (residual_at f k).

Definition trial_at (f : R → R) (k : nat) : trial :=
  {| coeffs := coeffs_at f k; bnd := bound_at f k; last2 := residual_at f k |}.

#[global] Instance converged_dec (f : R → R) (k : nat) : Decision (converged f k).
Proof. unfold converged. apply _. Defined.

(** ** Differentiation *)

(** [s[k] = 2 k a[k]]. *)
Definition scaled (A : list R) (k : nat) : R := 2 * INR k * nth k A 0.

(** What holds of the array [DA] of [differentiator A] after [j] iterations
    of its loop. *)
Definition diff_inv (A : list R) (j : nat) (DA : list R) : Prop :=
  length DA = length A ∧ nth (length A - 1) DA 0 = 0 ∧
  nth (length A - 2) DA 0 = scaled A (length A - 1) ∧
  ∀ i, (length A - 2 - 2 * j ≤ i ≤ length A - 3)%nat →
       nth i DA 0 = scaled A (i + 1) + nth (i + 2) DA 0.


(** The entries of [A] from the index [d] on are zero. *)
Definition vanishes_from (A : list R) (d : nat) : Prop :=
  ∀ k, (d ≤ k)%nat → nth k A 0 = 0.

(** ** Instances *)

(** The invariant of an instance built by the constructor: at least one
    value, and an interpolator over these values at the Chebyshev points. *)
Definition wf (c : t) : Prop :=
  (1 ≤ length (_values c))%nat ∧ yi (p c) = _values c ∧
  xi (p c) = interpolation_points (length (_values c)).

(** The elementwise sum of two series, the shorter one padded with zeros
    to the length of the longer one. *)
Definition padded_sum (a b : list R) : list R :=
  (fun k => nth k a 0 + nth k b 0) <$> seq 0 (length a `max` length b).

(** The coefficient series of [T_n]: [n] zeros followed by [1]. *)
Definition unit_series (n : nat) : list R := replicate n 0 ++ [1].

(** An instance with the single value [1], as the constructor builds it. *)
Definition one : t :=
  {| _values := [1]; _scale := 1;
     p := {| wi := [1 / 2 * (1 / 2)]; xi := [0]; yi := [1] |} |}.

(** An instance with the single value [1 + 1e-09]. *)
Definition one_eps : t :=
  {| _values := [1 + 1 / 10 ^ 9]; _scale := 1 + 1 / 10 ^ 9;
     p := {| wi := [1 / 2 * (1 / 2)]; xi := [0]; yi := [1 + 1 / 10 ^ 9] |} |}.

(** A real number at distance [1e-06] of the unit circle, and the constant
    coefficient of the line [a0 + x] whose companion polynomial
    [1 + 2 a0 z + z^2] has the roots [near_one] and [1 / near_one]. *)
Definition near_one : R := 1 + 1 / 10 ^ 6.
Definition line_a0 : R := - (near_one + / near_one) / 2.

(** * Properties *)

(** ** The pruner *)

Section Cutoff.

Lemma last_nonzero_from_None (mask : list bool) (i : nat) :
  last (Np.nonzero_from i mask) = None → Forall (fun b => b = false) mask.
Proof.
  revert i. induction mask as [|b mask IH]; intros i H; [constructor|].
  cbn [Np.nonzero_from] in H. rewrite last_app in H.
  destruct (last (Np.nonzero_from (S i) mask)) eqn:E; [discriminate|].
  constructor; [|by eapply IH].
  by destruct b.
Qed.

Lemma last_nonzero_from_Some (mask : list bool) (i n : nat) :
  last (Np.nonzero_from i mask) = Some n →
  ∃ j, n = (i + j)%nat ∧ mask !! j = Some true ∧
       ∀ j' b, (j < j')%nat → mask !! j' = Some b → b = false.
Proof.
  revert i. induction mask as [|b mask IH]; intros i H; [discriminate|].
  cbn [Np.nonzero_from] in H. rewrite last_app in H.
  destruct (last (Np.nonzero_from (S i) mask)) as [n'|] eqn:E.
  - simplify_eq. destruct (IH _ E) as (j & -> & Hj & Hlast).
    exists (S j). split; [lia|]. split; [done|].
    intros [|j'] b' Hlt Hb'; [lia|]. eapply (Hlast j'); [lia|done].
  - destruct b; [|discriminate]. cbn in H. simplify_eq.
    exists 0%nat. split; [lia|]. split; [done|].
    intros [|j'] b' Hlt Hb'; [lia|].
    apply last_nonzero_from_None in E.
    eapply Forall_lookup_1 in E; [|exact Hb']. done.
Qed.

End Cutoff.

(** C3 (as amended).  The pruner keeps [coeffs[0:cutoff]] with the
    threshold [128 * emach * scale]: the cutoff is one more than the index
    of the last coefficient whose magnitude reaches the threshold, and it
    is [1], not [0], when no coefficient does. *)
Theorem cutoff_spec (coeffs : list R) (scale : R) :
  _threshold scale = 128 * emach * scale ∧
  from_chebcoeff coeffs true scale =
    bind (chebpolyval (take (_cutoff coeffs scale) coeffs))
         (fun values => __init__ values (Some scale)) ∧
  ((∃ i c, coeffs !! i = Some c ∧ Rabs c >= _threshold scale ∧
           (∀ j c', (i < j)%nat → coeffs !! j = Some c' →
                    Rabs c' < _threshold scale) ∧
           _cutoff coeffs scale = S i)
   ∨ ((∀ c, c ∈ coeffs → Rabs c < _threshold scale) ∧
      _cutoff coeffs scale = 1%nat)).
Proof.
  split; [reflexivity|]. split; [reflexivity|].
  unfold _cutoff, Np.nonzero.
  set (thr := _threshold scale).
  destruct (last _) as [n|] eqn:E.
  - left. apply last_nonzero_from_Some in E as (j & -> & Hj & Hlast).
    rewrite list_lookup_fmap in Hj.
    destruct (coeffs !! j) as [c|] eqn:Hc; [|discriminate].
    exists j, c. split; [done|]. cbn in Hj. injection Hj as Hj.
    apply bool_decide_eq_true_1 in Hj. split; [done|]. split; [|lia].
    intros j' c' Hlt Hc'.
    specialize (Hlast j' (bool_decide (Rabs c' >= thr)) Hlt).
    rewrite list_lookup_fmap, Hc' in Hlast. specialize (Hlast eq_refl).
    apply bool_decide_eq_false_1 in Hlast. lra.
  - right. split; [|reflexivity].
    intros c Hin. apply last_nonzero_from_None in E.
    rewrite Forall_fmap in E.
    rewrite Forall_forall in E. specialize (E c Hin). cbn in E.
    apply bool_decide_eq_false_1 in E. lra.
Qed.

(** C3 fails as stated: for the coefficients [[0]] and the scale [1] no
    coefficient reaches the threshold, yet the cutoff is [1] and the prefix
    kept is [[0]]. *)
Lemma cutoff_none_qualify_keeps_one :
  0 <= 1 ∧
  (∀ c, c ∈ [0] → ¬ Rabs c >= _threshold 1) ∧
  _cutoff [0] 1 = 1%nat ∧
  take (_cutoff [0] 1) [0] = [0].
Proof.
  assert (Hthr : 0 < _threshold 1).
  { unfold _threshold, emach.
    assert (0 < / 2 ^ 52) by (apply Rinv_0_lt_compat, pow_lt; lra). lra. }
  assert (Hc : _cutoff [0] 1 = 1%nat).
  { unfold _cutoff, Np.nonzero. cbn.
    rewrite bool_decide_eq_false_2; [reflexivity|].
    rewrite Rabs_R0. lra. }
  split; [lra|]. split.
  - intros c Hin. apply list_elem_of_singleton in Hin as ->.
    rewrite Rabs_R0. lra.
  - rewrite Hc. split; reflexivity.
Qed.

(** ** Finite sums of cosines *)

Section Sums.

Lemma rsum_ext (f g : nat → R) (n : nat) :
  (∀ j, (j < n)%nat → f j = g j) → rsum f n = rsum g n.
Proof.
  induction n as [|n IH]; intros H; [reflexivity|].
  cbn. rewrite IH by (intros; apply H; lia). rewrite H by lia. reflexivity.
Qed.

Lemma rsum_plus (f g : nat → R) (n : nat) :
  rsum (fun j => f j + g j) n = rsum f n + rsum g n.
Proof. induction n as [|n IH]; cbn; [lra|rewrite IH; lra]. Qed.

Lemma rsum_scal (c : R) (f : nat → R) (n : nat) :
  rsum (fun j => c * f j) n = c * rsum f n.
Proof. induction n as [|n IH]; cbn; [lra|rewrite IH; lra]. Qed.

Lemma rsum_zero (f : nat → R) (n : nat) :
  (∀ j, (j < n)%nat → f j = 0) → rsum f n = 0.
Proof.
  induction n as [|n IH]; intros H; [reflexivity|].
  cbn. rewrite IH by (intros; apply H; lia). rewrite H by lia. lra.
Qed.

Lemma rsum_const (c : R) (n : nat) : rsum (fun _ => c) n = INR n * c.
Proof.
  induction n as [|n IH]; [cbn; lra|].
  cbn [rsum]. rewrite IH, S_INR. lra.
Qed.

Lemma rsum_single (f : nat → R) (n l : nat) :
  (l < n)%nat → (∀ j, (j < n)%nat → j ≠ l → f j = 0) → rsum f n = f l.
Proof.
  induction n as [|n IH]; intros Hl H; [lia|].
  cbn. destruct (decide (l = n)) as [->|Hne].
  - rewrite rsum_zero; [lra|]. intros j Hj. apply H; lia.
  - rewrite IH by (try lia; intros; apply H; lia). rewrite (H n) by lia. lra.
Qed.

Lemma rsum_swap (f : nat → nat → R) (n m : nat) :
  rsum (fun j => rsum (fun k => f j k) m) n =
  rsum (fun k => rsum (fun j => f j k) n) m.
Proof.
  induction n as [|n IH]; cbn.
  - symmetry. by apply rsum_zero.
  - rewrite IH, <- rsum_plus. reflexivity.
Qed.

End Sums.

Section Orthogonality.

Lemma angle_sym (n j k : nat) : angle n j k = angle n k j.
Proof. unfold angle. lra. Qed.

(** Twice the sine of the half angle times the sum of the cosines of the
    multiples of an angle telescopes. *)
Lemma dirichlet (θ : R) (n : nat) :
  2 * sin (θ / 2) * rsum (fun k => cos (INR k * θ)) n =
  sin ((INR n - 1 / 2) * θ) + sin (θ / 2).
Proof.
  induction n as [|n IH].
  - cbn. replace ((0 - 1 / 2) * θ) with (- (θ / 2)) by lra.
    rewrite sin_neg. lra.
  - cbn [rsum]. rewrite Rmult_plus_distr_l, IH, S_INR.
    replace ((INR n + 1 - 1 / 2) * θ) with (INR n * θ + θ / 2) by lra.
    replace ((INR n - 1 / 2) * θ) with (INR n * θ - θ / 2) by lra.
    rewrite sin_plus, sin_minus. lra.
Qed.

Lemma cos_sum_zero (n a : nat) :
  (0 < n)%nat → sin (PI * INR a / INR n) ≠ 0 →
  rsum (fun k => cos (angle n k a)) n = 0.
Proof.
  intros Hn Hs.
  assert (Hn' : INR n ≠ 0) by (apply not_0_INR; lia).
  set (θ := 2 * PI * INR a / INR n).
  assert (Hθ : θ / 2 = PI * INR a / INR n) by (unfold θ; field; done).
  pose proof (dirichlet θ n) as D.
  replace ((INR n - 1 / 2) * θ) with (- (θ / 2) + 2 * INR a * PI) in D
    by (unfold θ; field; done).
  rewrite sin_period, sin_neg in D.
  rewrite (rsum_ext _ (fun k => cos (INR k * θ))).
  - rewrite Hθ in D. 
    assert (sin (PI * INR a / INR n) * rsum (λ k : nat, cos (INR k * θ)) n = 0) by lra.
    apply Rmult_integral in H. destruct H; [done|lra].
  - intros j _. f_equal. unfold angle, θ. field. done.
Qed.

Lemma cos_sum_one (n a : nat) :
  (0 < n)%nat → (a = 0 ∨ a = n)%nat →
  rsum (fun k => cos (angle n k a)) n = INR n.
Proof.
  intros Hn Ha.
  assert (Hn' : INR n ≠ 0) by (apply not_0_INR; lia).
  rewrite (rsum_ext _ (fun _ => 1)); [rewrite rsum_const; lra|].
  intros k _. destruct Ha as [->| ->].
  - unfold angle. cbn [INR]. replace (2 * PI * INR k * 0 / INR n) with 0 by (field; done).
    apply cos_0.
  - replace (angle n k n) with (0 + 2 * INR k * PI) by (unfold angle; field; done).
    rewrite cos_period. apply cos_0.
Qed.

(** The sum of [cos (2 pi k a / n)] over [k < n], for [a < 2 n]. *)
Lemma cos_sum (n a : nat) :
  (0 < n)%nat → (a < 2 * n)%nat →
  rsum (fun k => cos (angle n k a)) n =
  if decide (a = 0 ∨ a = n)%nat then INR n else 0.
Proof.
  intros Hn Ha. destruct (decide _) as [H|H]; [by apply cos_sum_one|].
  apply cos_sum_zero; [done|].
  assert (Hn' : 0 < INR n) by (apply lt_0_INR; lia).
  assert (Ha0 : 0 < INR a) by (apply lt_0_INR; lia).
  destruct (decide (a < n)%nat) as [Hlt|Hge].
  - apply Rgt_not_eq, sin_gt_0.
    + apply Rdiv_lt_0_compat; [|done]. pose proof PI_RGT_0. nra.
    + apply lt_INR in Hlt. pose proof PI_RGT_0.
      apply (Rmult_lt_reg_r (INR n)); [done|].
      unfold Rdiv. rewrite Rmult_assoc, Rinv_l by lra. nra.
  - apply Rlt_not_eq, sin_lt_0.
    + assert (n < a)%nat as Hlt by lia. apply lt_INR in Hlt. pose proof PI_RGT_0.
      apply (Rmult_lt_reg_r (INR n)); [done|].
      unfold Rdiv. rewrite Rmult_assoc, Rinv_l by lra. nra.
    + apply lt_INR in Ha. rewrite mult_INR in Ha. cbn [INR] in Ha. pose proof PI_RGT_0.
      apply (Rmult_lt_reg_r (INR n)); [done|].
      unfold Rdiv. rewrite Rmult_assoc, Rinv_l by lra. nra.
Qed.

Lemma cos_cos (n j k l d : nat) :
  (0 < n)%nat → (d + l = j ∨ d + j = l)%nat →
  cos (angle n j k) * cos (angle n k l) =
  1 / 2 * cos (angle n k d) + 1 / 2 * cos (angle n k (j + l)).
Proof.
  intros Hn Hd.
  assert (Hn' : INR n ≠ 0) by (apply not_0_INR; lia).
  replace (angle n k (j + l)) with (angle n j k + angle n k l)
    by (unfold angle; rewrite plus_INR; field; done).
  rewrite cos_plus.
  destruct Hd as [<-|<-].
  - replace (angle n k d) with (angle n (d + l) k - angle n k l)
      by (unfold angle; rewrite plus_INR; field; done).
    rewrite cos_minus. lra.
  - replace (angle n k d) with (angle n k (d + j) - angle n j k)
      by (unfold angle; rewrite plus_INR; field; done).
    rewrite cos_minus. lra.
Qed.

Lemma cos_kernel (n j l : nat) :
  (0 < n)%nat → (j < n)%nat → (l < n)%nat →
  rsum (fun k => cos (angle n j k) * cos (angle n k l)) n =
  INR n / 2 * ((if decide (j = l) then 1 else 0)
               + (if decide (j + l = 0 ∨ j + l = n)%nat then 1 else 0)).
Proof.
  intros Hn Hj Hl.
  set (d := if decide (l ≤ j)%nat then (j - l)%nat else (l - j)%nat).
  assert (Hd : (d + l = j ∨ d + j = l)%nat)
    by (unfold d; destruct (decide _); lia).
  rewrite (rsum_ext _ (fun k => 1 / 2 * cos (angle n k d)
                               + 1 / 2 * cos (angle n k (j + l)))).
  2: { intros k _. by apply cos_cos. }
  rewrite rsum_plus, !rsum_scal, !cos_sum by lia.
  destruct (decide (d = 0 ∨ d = n)%nat), (decide (j = l));
    try lia; destruct (decide (j + l = 0 ∨ j + l = n)%nat); lra.
Qed.

(** Transforming twice with the cosine kernel gives back the sequence,
    symmetrised and scaled. *)
Lemma cos_inversion (g : nat → R) (n l : nat) :
  (0 < n)%nat → (l < n)%nat →
  rsum (fun k => rsum (fun j => g j * cos (angle n j k)) n
                 * cos (angle n k l)) n =
  INR n / 2 * (g l + g (if decide (l = 0)%nat then 0%nat else (n - l)%nat)).
Proof.
  intros Hn Hl.
  rewrite (rsum_ext _ (fun k => rsum (fun j =>
             g j * (cos (angle n j k) * cos (angle n k l))) n)).
  2: { intros k _. rewrite Rmult_comm, <- rsum_scal.
       apply rsum_ext. intros; lra. }
  rewrite rsum_swap.
  rewrite (rsum_ext _ (fun j =>
     INR n / 2 * (if decide (j = l) then g j else 0)
     + INR n / 2 * (if decide (j + l = 0 ∨ j + l = n)%nat then g j else 0))).
  2: { intros j Hj. rewrite rsum_scal, cos_kernel by done.
       destruct (decide (j = l)), (decide (j + l = 0 ∨ j + l = n)%nat); lra. }
  rewrite rsum_plus, !rsum_scal.
  rewrite (rsum_single _ n l) by (try done; intros; by rewrite decide_False).
  rewrite decide_True by done.
  set (l' := if decide (l = 0)%nat then 0%nat else (n - l)%nat).
  rewrite (rsum_single _ n l').
  - rewrite decide_True; [lra|]. unfold l'. destruct (decide _); lia.
  - unfold l'. destruct (decide _); lia.
  - intros j Hj Hne. rewrite decide_False; [done|].
    unfold l' in Hne. destruct (decide _); lia.
Qed.

End Orthogonality.

(** ** Closed forms of the transforms *)

Section Transforms.

Lemma length_even_data (v : list R) :
  length (even_data v) = (length v + (length v - 2))%nat.
Proof.
  unfold even_data.
  rewrite length_app, length_reverse, length_drop, length_take. lia.
Qed.

Lemma nth_even_data (v : list R) (M j : nat) :
  length v = S M → (j < 2 * M)%nat →
  nth j (even_data v) 0 = ext (fun i => nth i v 0) M j.
Proof.
  intros Hv Hj. unfold ext, even_data. rewrite !nth_lookup.
  destruct (decide (j ≤ M)%nat) as [Hle|Hgt].
  - rewrite lookup_app_l by lia. reflexivity.
  - rewrite lookup_app_r by lia.
    rewrite reverse_lookup by (rewrite length_drop, length_take; lia).
    rewrite length_drop, length_take, lookup_drop, lookup_take_lt by lia.
    do 2 f_equal. lia.
Qed.

Lemma ext_even (g : nat → R) (M j : nat) :
  (0 < j < 2 * M)%nat → ext g M (2 * M - j) = ext g M j.
Proof.
  intros Hj. unfold ext.
  destruct (decide (2 * M - j ≤ M)%nat), (decide (j ≤ M)%nat);
    f_equal; lia.
Qed.

Lemma cos_angle_even (M j k : nat) :
  (0 < M)%nat → (k ≤ 2 * M)%nat →
  cos (angle (2 * M) j (2 * M - k)) = cos (angle (2 * M) j k).
Proof.
  intros HM Hk.
  assert (INR (2 * M) ≠ 0) by (apply not_0_INR; lia).
  replace (angle (2 * M) j (2 * M - k))
    with (- angle (2 * M) j k + 2 * INR j * PI).
  - rewrite cos_period. apply cos_neg.
  - unfold angle. rewrite minus_INR by lia. field. done.
Qed.

Lemma cos_transform_ext (g h : nat → R) (n k : nat) :
  (∀ j, (j < n)%nat → g j = h j) →
  cos_transform g n k = cos_transform h n k.
Proof. intros H. apply rsum_ext. intros j Hj. by rewrite H. Qed.

Lemma cos_transform_even (g : nat → R) (M k : nat) :
  (0 < M)%nat → (k ≤ 2 * M)%nat →
  cos_transform g (2 * M) (2 * M - k) = cos_transform g (2 * M) k.
Proof.
  intros HM Hk. apply rsum_ext. intros j _.
  by rewrite cos_angle_even.
Qed.

Lemma cos_transform_twice (g : nat → R) (M l : nat) :
  (0 < M)%nat → (l ≤ M)%nat →
  cos_transform (cos_transform (ext g M) (2 * M)) (2 * M) l =
  INR (2 * M) * g l.
Proof.
  intros HM Hl. unfold cos_transform. rewrite cos_inversion by lia.
  destruct (decide (l = 0)%nat) as [->|Hne].
  - unfold ext. rewrite decide_True by lia. lra.
  - rewrite ext_even by lia. unfold ext. rewrite decide_True by lia. lra.
Qed.

Lemma chebpolyfit_closed (v : list R) (M : nat) :
  length v = S M → (0 < M)%nat →
  chebpolyfit v =
  Ok ((fun k => cos_transform (fun j => nth j (even_data v) 0) (2 * M) k
                / INR M / (if decide (k = 0 ∨ k = M)%nat then 2 else 1))
      <$> seq 0 (S M)).
Proof.
  intros Hv HM. unfold chebpolyfit, dct, fft.
  rewrite decide_False by lia.
  pose proof (length_even_data v) as He. rewrite Hv in He.
  replace (S M + (S M - 2))%nat with (2 * M)%nat in He by lia.
  rewrite He, decide_False by lia. cbn [bind].
  replace ((2 * M) `div` 2)%nat with M by (rewrite (Nat.mul_comm 2 M), Nat.div_mul; lia).
  set (F := fun k : nat => _). set (l0 := _ <$> take _ _).
  assert (Hl0 : length l0 = S M).
  { unfold l0. rewrite length_fmap, length_take, length_fmap, length_seq. lia. }
  unfold Np.alter_at. rewrite decide_True by lia. cbn [bind].
  unfold Np.alter_last. rewrite length_alter, decide_True by lia. cbn [bind].
  f_equal. apply list_eq. intros i.
  rewrite !list_lookup_fmap.
  match goal with
  | |- context [alter _ ?n (alter _ _ _)] =>
      replace n with M by (change n with (length l0 - 1)%nat; lia)
  end.
  destruct (decide (i < S M)%nat) as [Hi|Hi].
  2: { rewrite (lookup_seq_ge 0 (S M) i) by lia.
       rewrite !list_lookup_alter_ne by lia.
       by rewrite (lookup_ge_None_2 l0 i) by lia. }
  rewrite lookup_seq_lt by done. cbn [fmap option_fmap option_map].
  assert (Hk : ∀ k, (k < S M)%nat → l0 !! k = Some (cdiv (F k) (INR M))).
  { intros k Hkk. unfold l0. rewrite list_lookup_fmap, lookup_take_lt by lia.
    rewrite list_lookup_fmap, lookup_seq_lt by lia. reflexivity. }
  destruct (decide (i = M)) as [->|HiM];
    [|destruct (decide (i = 0)%nat) as [->|Hi0]].
  - rewrite list_lookup_alter_eq, list_lookup_alter_ne, Hk by lia. cbn.
    rewrite decide_True by lia. reflexivity.
  - rewrite list_lookup_alter_ne, list_lookup_alter_eq, Hk by lia. cbn.
    rewrite decide_True by lia. reflexivity.
  - rewrite !list_lookup_alter_ne, Hk by lia. cbn.
    rewrite decide_False by lia.
    unfold cos_transform. f_equal. field. apply not_0_INR. lia.
Qed.

Lemma nth_coeff_data (c : list R) (M j : nat) :
  length c = S M → (0 < M)%nat → (j < 2 * M)%nat →
  nth j (alter (fun x => x * 2) M
           (alter (fun x => x * 2) 0%nat ((fun x => x / 2) <$> even_data c))) 0 =
  ext (fun j => nth j c 0 / (if decide (j = 0 ∨ j = M)%nat then 1 else 2)) M j.
Proof.
  intros Hc HM Hj.
  pose proof (length_even_data c) as He. rewrite Hc in He.
  pose proof (nth_even_data c M j Hc Hj) as Hn. rewrite nth_lookup in Hn.
  assert (Hl : is_Some (even_data c !! j)) by (apply lookup_lt_is_Some; lia).
  destruct Hl as [x Hx]. rewrite Hx in Hn. cbn in Hn.
  rewrite nth_lookup. unfold ext in *.
  destruct (decide (j = M)) as [->|HjM];
    [|destruct (decide (j = 0)%nat) as [->|Hj0]].
  - rewrite list_lookup_alter_eq, list_lookup_alter_ne, list_lookup_fmap, Hx by lia.
    cbn. rewrite !decide_True in * by lia. rewrite Hn. field.
  - rewrite list_lookup_alter_ne, list_lookup_alter_eq, list_lookup_fmap, Hx by lia.
    cbn. rewrite !decide_True in * by lia. rewrite Hn. field.
  - rewrite !list_lookup_alter_ne, list_lookup_fmap, Hx by lia. cbn.
    rewrite Hn. destruct (decide (j ≤ M)%nat); rewrite decide_False by lia; reflexivity.
Qed.

Lemma chebpolyval_closed (c : list R) (M : nat) :
  length c = S M → (0 < M)%nat →
  chebpolyval c =
  Ok ((fun k => cos_transform
                  (ext (fun j => nth j c 0
                                 / (if decide (j = 0 ∨ j = M)%nat then 1 else 2)) M)
                  (2 * M) k)
      <$> seq 0 (S M)).
Proof.
  intros Hc HM. unfold chebpolyval.
  rewrite decide_False by lia.
  pose proof (length_even_data c) as He. rewrite Hc in He.
  replace (S M + (S M - 2))%nat with (2 * M)%nat in He by lia.
  unfold Np.alter_at. rewrite length_fmap, He, decide_True by lia. cbn [bind].
  rewrite length_alter, length_fmap, He, decide_True by lia. cbn [bind].
  unfold ifft. rewrite !length_alter, length_fmap, He, decide_False by lia.
  cbn [bind]. f_equal. rewrite Hc, S_INR. replace (S M - 1)%nat with M by lia.
  apply list_eq. intros i. rewrite !list_lookup_fmap.
  destruct (decide (i < S M)%nat) as [Hi|Hi].
  2: { rewrite lookup_take_ge, (lookup_seq_ge 0 (S M) i) by lia. reflexivity. }
  rewrite lookup_take_lt, !list_lookup_fmap, !lookup_seq_lt by lia.
  cbn [fmap option_fmap option_map real cscale fst snd Nat.add].
  f_equal. rewrite mult_INR. change (INR 2) with 2.
  rewrite (rsum_ext _ (fun j => ext (fun j => nth j c 0
             / (if decide (j = 0 ∨ j = M)%nat then 1 else 2)) M j
             * cos (angle (2 * M) j i)))
    by (intros j Hj; by rewrite nth_coeff_data).
  unfold cos_transform. field. apply not_0_INR. lia.
Qed.

Lemma nth_fmap_seq (f : nat → R) (n k : nat) :
  (k < n)%nat → nth k (f <$> seq 0 n) 0 = f k.
Proof.
  intros Hk. rewrite nth_lookup, list_lookup_fmap, lookup_seq_lt by done.
  reflexivity.
Qed.

Lemma fmap_seq_nth (v : list R) (f : nat → R) :
  (∀ k, (k < length v)%nat → f k = nth k v 0) →
  f <$> seq 0 (length v) = v.
Proof.
  intros H. apply list_eq. intros i. rewrite list_lookup_fmap.
  destruct (decide (i < length v)%nat) as [Hi|Hi].
  - rewrite lookup_seq_lt by done. cbn. rewrite H by done.
    rewrite nth_lookup. destruct (lookup_lt_is_Some_2 v i Hi) as [x ->].
    reflexivity.
  - rewrite lookup_seq_ge, lookup_ge_None_2 by lia. reflexivity.
Qed.

(** Values to coefficients and back, for at least two samples. *)
Lemma chebpolyval_chebpolyfit_closed (v : list R) (M : nat) :
  length v = S M → (0 < M)%nat →
  ∃ c, chebpolyfit v = Ok c ∧ length c = S M ∧ chebpolyval c = Ok v.
Proof.
  intros Hv HM. eexists. split; [by apply chebpolyfit_closed|].
  set (c := _ <$> seq 0 (S M)).
  assert (Hc : length c = S M)
    by (unfold c; rewrite length_fmap, length_seq; done).
  split; [done|]. rewrite (chebpolyval_closed c M) by done.
  f_equal. rewrite <- Hv. apply fmap_seq_nth. intros k Hk.
  assert (HM' : INR M ≠ 0) by (apply not_0_INR; lia).
  set (g := fun i => nth i v 0).
  rewrite (cos_transform_ext _
             (fun j => / INR (2 * M) * cos_transform (ext g M) (2 * M) j)).
  - unfold cos_transform at 1.
    rewrite (rsum_ext _ (fun j => / INR (2 * M)
               * (cos_transform (ext g M) (2 * M) j * cos (angle (2 * M) j k))))
      by (intros; lra).
    rewrite rsum_scal.
    change (rsum _ _) with
      (cos_transform (cos_transform (ext g M) (2 * M)) (2 * M) k).
    rewrite cos_transform_twice by lia. unfold g. field.
    apply not_0_INR. lia.
  - intros j Hj.
    assert (Hfit : ∀ i, (i ≤ M)%nat →
              nth i c 0 / (if decide (i = 0 ∨ i = M)%nat then 1 else 2) =
              / INR (2 * M) * cos_transform (ext g M) (2 * M) i).
    { intros i Hi. unfold c. rewrite nth_fmap_seq by lia.
      rewrite (cos_transform_ext _ (ext g M))
        by (intros; by apply nth_even_data).
      rewrite mult_INR. change (INR 2) with 2.
      destruct (decide (i = 0 ∨ i = M)%nat); field; done. }
    unfold ext at 1. destruct (decide (j ≤ M)%nat).
    + by apply Hfit.
    + rewrite Hfit, cos_transform_even by lia. reflexivity.
Qed.

(** Coefficients to values and back, for at least two coefficients. *)
Lemma chebpolyfit_chebpolyval_closed (c : list R) (M : nat) :
  length c = S M → (0 < M)%nat →
  ∃ v, chebpolyval c = Ok v ∧ length v = S M ∧ chebpolyfit v = Ok c.
Proof.
  intros Hc HM. eexists. split; [by apply chebpolyval_closed|].
  set (v := _ <$> seq 0 (S M)).
  assert (Hv : length v = S M)
    by (unfold v; rewrite length_fmap, length_seq; done).
  split; [done|]. rewrite (chebpolyfit_closed v M) by done.
  f_equal. rewrite <- Hc. apply fmap_seq_nth. intros k Hk.
  assert (HM' : INR M ≠ 0) by (apply not_0_INR; lia).
  set (g := fun j => nth j c 0 / (if decide (j = 0 ∨ j = M)%nat then 1 else 2)).
  rewrite (cos_transform_ext _ (cos_transform (ext g M) (2 * M))).
  - rewrite cos_transform_twice by lia. unfold g.
    rewrite mult_INR. change (INR 2) with 2.
    destruct (decide (k = 0 ∨ k = M)%nat); field; done.
  - intros j Hj. rewrite (nth_even_data v M) by done.
    unfold ext at 1. destruct (decide (j ≤ M)%nat).
    + unfold v. by rewrite nth_fmap_seq by lia.
    + unfold v. rewrite nth_fmap_seq, cos_transform_even by lia. reflexivity.
Qed.

End Transforms.

(** ** Operations that cannot fail on a non-empty array *)

Section Totality.

Lemma chebpolyfit_Ok (v : list R) :
  (1 ≤ length v)%nat →
  ∃ c, chebpolyfit v = Ok c ∧ length c = length v ∧ chebpolyval c = Ok v.
Proof.
  intros Hv. destruct (decide (length v = 1)%nat) as [H1|H1].
  - exists v. unfold chebpolyfit, chebpolyval. by rewrite !decide_True.
  - destruct (chebpolyval_chebpolyfit_closed v (length v - 1)) as (c & ? & ? & ?);
      [lia..|].
    exists c. split; [done|]. split; [lia|done].
Qed.

Lemma chebpolyval_Ok (c : list R) :
  (1 ≤ length c)%nat →
  ∃ v, chebpolyval c = Ok v ∧ length v = length c ∧ chebpolyfit v = Ok c.
Proof.
  intros Hc. destruct (decide (length c = 1)%nat) as [H1|H1].
  - exists c. unfold chebpolyfit, chebpolyval. by rewrite !decide_True.
  - destruct (chebpolyfit_chebpolyval_closed c (length c - 1)) as (v & ? & ? & ?);
      [lia..|].
    exists v. split; [done|]. split; [lia|done].
Qed.

Lemma max_Ok (a : list R) :
  (1 ≤ length a)%nat → ∃ m, Np.max a = Ok m.
Proof. destruct a; cbn; [lia|eauto]. Qed.

Lemma length_interpolation_points (N : nat) :
  length (interpolation_points N) = N.
Proof.
  unfold interpolation_points. destruct (decide _) as [->|_]; [done|].
  by rewrite length_fmap, length_seq.
Qed.

Lemma interpolator_Ok (x values : list R) :
  (1 ≤ length values)%nat → length values = length x →
  ∃ p, interpolator x values = Ok p ∧ xi p = x ∧ yi p = values.
Proof.
  intros Hv Hx. unfold interpolator, Np.set_at, Np.alter_last.
  rewrite length_replicate, decide_True by lia. cbn [bind].
  unfold set_odd. rewrite length_imap, length_insert, length_replicate.
  rewrite decide_True by lia. cbn [bind].
  rewrite decide_True by done. eauto.
Qed.

Lemma init_Ok (values : list R) (scale : option R) :
  (1 ≤ length values)%nat →
  ∃ c s, __init__ values scale = Ok c ∧ _values c = values ∧ _scale c = s ∧
         size c = length values ∧
         match scale with
         | Some s' => s = s'
         | None => Np.max (Np.abs values) = Ok s
         end.
Proof.
  intros Hv. unfold __init__.
  destruct (interpolator_Ok (interpolation_points (length values)) values Hv
              (eq_sym (length_interpolation_points (length values))))
    as (p & Hp & _ & Hyi).
  destruct scale as [s|].
  - cbn [bind]. rewrite Hp. cbn [bind]. eexists _, s.
    split; [reflexivity|]. unfold size. cbn. by rewrite Hyi.
  - destruct (max_Ok (Np.abs values)) as [m Hm].
    { unfold Np.abs. by rewrite length_fmap. }
    rewrite Hm. cbn [bind]. rewrite Hp. cbn [bind]. eexists _, m.
    split; [reflexivity|]. unfold size. cbn. by rewrite Hyi.
Qed.

Lemma cutoff_pos (coeffs : list R) (scale : R) : (1 ≤ _cutoff coeffs scale)%nat.
Proof. unfold _cutoff. lia. Qed.

Lemma from_chebcoeff_Ok (chebcoeff : list R) (prune : bool) (scale : R) :
  (1 ≤ length chebcoeff)%nat →
  ∃ c, from_chebcoeff chebcoeff prune scale = Ok c ∧ _scale c = scale ∧
       chebpolyval (if prune then take (_cutoff chebcoeff scale) chebcoeff
                    else chebcoeff) = Ok (_values c).
Proof.
  intros Hc. unfold from_chebcoeff.
  set (pruned := if prune then _ else _).
  assert (Hp : (1 ≤ length pruned)%nat).
  { unfold pruned. destruct prune; [|done].
    rewrite length_take. pose proof (cutoff_pos chebcoeff scale). lia. }
  destruct (chebpolyval_Ok pruned Hp) as (v & Hv & Hlen & _).
  rewrite Hv. cbn [bind].
  destruct (init_Ok v (Some scale)) as (c & s & Hi & Hval & Hs & _ & ->); [lia|].
  exists c. rewrite Hi, Hval. done.
Qed.

End Totality.

(** ** The adaptive degree search *)

Section Dichotomy.

Context (f : R → R).

Lemma length_sample_function (N : nat) :
  length (sample_function f N) = (N + 1)%nat.
Proof.
  unfold sample_function. by rewrite length_fmap, length_interpolation_points.
Qed.

Lemma coeffs_at_Ok (k : nat) :
  chebpolyfit (sample_function f (2 ^ k)) = Ok (coeffs_at f k) ∧
  length (coeffs_at f k) = (2 ^ k + 1)%nat.
Proof.
  destruct (chebpolyfit_Ok (sample_function f (2 ^ k))) as (c & Hc & Hlen & _).
  { rewrite length_sample_function. lia. }
  unfold coeffs_at. rewrite Hc. split; [done|].
  by rewrite Hlen, length_sample_function.
Qed.

Lemma max_abs_Ok (a : list R) :
  (1 ≤ length a)%nat → Np.max (Np.abs a) = Ok (max_abs a).
Proof.
  intros Ha. unfold max_abs.
  destruct (max_Ok (Np.abs a)) as [m ->]; [|done].
  unfold Np.abs. by rewrite length_fmap.
Qed.

Lemma forallb_le_bound (b : R) (l : list R) :
  forallb (fun x => bool_decide (x <= b)) l = true ↔ Forall (fun x => x <= b) l.
Proof.
  rewrite forallb_forall, Forall_forall. split; intros H x Hx.
  - apply list_elem_of_In, H in Hx. by apply bool_decide_eq_true in Hx.
  - apply bool_decide_eq_true, H. by apply list_elem_of_In.
Qed.

Lemma dichotomy_step_spec (k : nat) :
  ∃ b, dichotomy_step f k = Ok (trial_at f k, b) ∧ (b = true ↔ converged f k).
Proof.
  unfold dichotomy_step.
  destruct (coeffs_at_Ok k) as [Hc Hlen]. rewrite Hc. cbn [bind].
  rewrite max_abs_Ok by lia. cbn [bind].
  eexists. split; [reflexivity|]. apply forallb_le_bound.
Qed.

(** The loop runs through exponents none of which is accepted. *)
Lemma dichotomy_loop_exhausted (ks : list nat) (st : option trial) :
  (∀ k, k ∈ ks → ¬ converged f k) →
  dichotomy_loop f ks st =
  Ok (match last ks with Some k => Some (trial_at f k) | None => st end, false).
Proof.
  revert st. induction ks as [|k ks IH]; intros st H; [done|].
  cbn [dichotomy_loop].
  destruct (dichotomy_step_spec k) as (b & -> & Hb). cbn [bind fst snd].
  destruct b.
  - exfalso. apply (H k); [apply list_elem_of_here|]. by apply Hb.
  - rewrite IH by (intros k' Hk'; by apply H, list_elem_of_further).
    destruct ks as [|k' ks']; [done|]. rewrite last_cons_cons.
    destruct (last (k' :: ks')) eqn:E; [done|]. by apply last_None in E.
Qed.

(** The loop leaves at the first accepted exponent. *)
Lemma dichotomy_loop_break (ks : list nat) (st : option trial) (k : nat) :
  k ∈ ks → converged f k →
  ∃ k', k' ∈ ks ∧ converged f k' ∧
        dichotomy_loop f ks st = Ok (Some (trial_at f k'), true).
Proof.
  revert st. induction ks as [|k0 ks IH]; intros st Hin Hk.
  - by apply elem_of_nil in Hin.
  - cbn [dichotomy_loop].
    destruct (dichotomy_step_spec k0) as (b & -> & Hb). cbn [bind fst snd].
    destruct b.
    + exists k0. split; [apply list_elem_of_here|]. split; [by apply Hb|done].
    + apply elem_of_cons in Hin as [->|Hin].
      * destruct Hb as [_ Hb]. by specialize (Hb Hk).
      * destruct (IH (Some (trial_at f k0)) Hin Hk) as (k' & ? & ? & ?).
        exists k'. split; [by apply list_elem_of_further|done].
Qed.

Lemma elem_of_xrange (kmin kmax k : nat) :
  k ∈ xrange kmin kmax ↔ (kmin ≤ k < kmax)%nat.
Proof. unfold xrange. rewrite elem_of_seq. lia. Qed.

Lemma last_xrange (kmin kmax : nat) :
  (kmin < kmax)%nat → last (xrange kmin kmax) = Some (kmax - 1)%nat.
Proof.
  intros H. unfold xrange.
  replace (kmax - kmin)%nat with (S (kmax - kmin - 1)) by lia.
  rewrite seq_S, last_snoc. f_equal. lia.
Qed.

End Dichotomy.

(** C1.  For [kmin < kmax], [dichotomy] raises [NoConvergence] exactly when
    no trial exponent of [[kmin, kmax)] is accepted and
    [raise_no_convergence] is true; the exception then carries the last two
    coefficient magnitudes and the bound [128 * emach * max |coeffs|] of the
    last trial.  When the flag is false and no exponent is accepted, the
    coefficients of the last trial are returned. *)
Theorem dichotomy_no_convergence (f : R → R) (kmin kmax : nat) (raise_nc : bool) :
  (kmin < kmax)%nat →
  (∀ last bnd,
     dichotomy f kmin kmax raise_nc = Raise (NoConvergence last bnd) ↔
     (raise_nc = true ∧
      (∀ k, (kmin ≤ k < kmax)%nat → ¬ converged f k) ∧
      last = residual_at f (kmax - 1) ∧ bnd = bound_at f (kmax - 1))) ∧
  (raise_nc = false →
   (∀ k, (kmin ≤ k < kmax)%nat → ¬ converged f k) →
   dichotomy f kmin kmax raise_nc = Ok (coeffs_at f (kmax - 1))) ∧
  (∀ k, chebpolyfit (sample_function f (2 ^ k)) = Ok (coeffs_at f k) ∧
        Np.max (Np.abs (coeffs_at f k)) = Ok (max_abs (coeffs_at f k)) ∧
        bound_at f k = 128 * emach * max_abs (coeffs_at f k) ∧
        residual_at f k =
          Rabs <$> drop (length (coeffs_at f k) - 2) (coeffs_at f k) ∧
        length (residual_at f k) = 2%nat).
Proof.
  intros Hlt.
  assert (Hex : (∀ k, (kmin ≤ k < kmax)%nat → ¬ converged f k) →
            dichotomy f kmin kmax raise_nc =
            if raise_nc
            then Raise (NoConvergence (residual_at f (kmax - 1))
                                      (bound_at f (kmax - 1)))
            else Ok (coeffs_at f (kmax - 1))).
  { intros Hno. unfold dichotomy.
    rewrite dichotomy_loop_exhausted
      by (intros k Hk; apply Hno; by apply elem_of_xrange).
    rewrite last_xrange by done. cbn. by destruct raise_nc. }
  split; [|split].
  - intros last bnd. split.
    + intros Hraise.
      destruct (decide (Forall (fun k => ¬ converged f k) (xrange kmin kmax)))
        as [Hno|Hyes].
      * assert (Hno' : ∀ k, (kmin ≤ k < kmax)%nat → ¬ converged f k).
        { intros k Hk. rewrite Forall_forall in Hno.
          by apply Hno, elem_of_xrange. }
        rewrite (Hex Hno') in Hraise. destruct raise_nc; [|discriminate].
        injection Hraise as <- <-. done.
      * exfalso. apply not_Forall_Exists in Hyes; [|apply _].
        apply Exists_exists in Hyes as (k & Hk & Hconv). cbn in Hconv.
        destruct (decide (converged f k)) as [Hc|Hc]; [|done].
        destruct (dichotomy_loop_break f (xrange kmin kmax) None k)
          as (k' & _ & _ & Hloop); [done..|].
        unfold dichotomy in Hraise. rewrite Hloop in Hraise. cbn in Hraise.
        discriminate.
    + intros (-> & Hno & -> & ->). by rewrite (Hex Hno).
  - intros -> Hno. by rewrite (Hex Hno).
  - intros k. destruct (coeffs_at_Ok f k) as [Hc Hlen].
    split; [done|]. split; [apply max_abs_Ok; lia|].
    split; [done|]. split; [done|].
    unfold residual_at. rewrite length_fmap, length_drop, Hlen.
    assert (1 ≤ 2 ^ k)%nat by (apply Nat.neq_0_lt_0, Nat.pow_nonzero; lia).
    lia.
Qed.

(** C1, instance: the identity function on the default range. *)
Lemma dichotomy_no_convergence_witness :
  (2 < 12)%nat ∧
  (∀ last bnd,
     dichotomy (fun x => x) 2 12 true = Raise (NoConvergence last bnd) ↔
     (true = true ∧
      (∀ k, (2 ≤ k < 12)%nat → ¬ converged (fun x => x) k) ∧
      last = residual_at (fun x => x) (12 - 1) ∧
      bnd = bound_at (fun x => x) (12 - 1))).
Proof.
  split; [lia|].
  apply (dichotomy_no_convergence (fun x => x) 2 12 true). lia.
Defined.

(** ** The logarithm of the hint *)

Section HintLogarithm.

Lemma Int_part_IZR (z : Z) : Int_part (IZR z) = z.
Proof. symmetry. apply Int_part_spec. lra. Qed.

Lemma rint_IZR (z : Z) : Np.rint (IZR z) = z.
Proof.
  unfold Np.rint. rewrite Int_part_IZR. rewrite decide_True by lra. done.
Qed.

Lemma rint_near (m : R) : IZR (Np.rint m) - 1 / 2 <= m <= IZR (Np.rint m) + 1 / 2.
Proof.
  unfold Np.rint. destruct (base_Int_part m) as [H1 H2].
  repeat case_decide; try destruct (Z.even _); rewrite ?plus_IZR; lra.
Qed.

Lemma rint_ge (m : R) (z : Z) : IZR z <= m → (z ≤ Np.rint m)%Z.
Proof.
  intros H. destruct (rint_near m) as [_ H2].
  assert (IZR z < IZR (Np.rint m) + 1) by lra.
  rewrite <- plus_IZR in H0. apply lt_IZR in H0. lia.
Qed.

Lemma rint_le (m : R) (z : Z) : m <= IZR z → (Np.rint m ≤ z)%Z.
Proof.
  intros H. destruct (rint_near m) as [H1 _].
  assert (IZR (Np.rint m) < IZR z + 1) by lra.
  rewrite <- plus_IZR in H0. apply lt_IZR in H0. lia.
Qed.

Lemma powerRZ_2_neg (n : nat) : powerRZ 2 (- Z.of_nat n) = / 2 ^ n.
Proof. by rewrite powerRZ_neg', <- pow_powerRZ. Qed.

Lemma pow2_IZR (n : nat) : 2 ^ n = IZR (2 ^ Z.of_nat n).
Proof. by rewrite <- pow_IZR. Qed.

Lemma ln_2_bounds : 0 < ln 2 < 1.
Proof.
  split; [pose proof ln_lt_2; lra|].
  rewrite <- (ln_exp 1). apply ln_increasing; [lra|].
  pose proof (exp_ineq1_le 1) as H.
  destruct (Req_dec (exp 1) 2) as [E|E]; [|lra].
  pose proof (exp_ineq1 1 ltac:(lra)). lra.
Qed.

(** The exponent of a number between [1] and [2^q]. *)
Lemma log2_floor_bounds (x : R) (q : nat) :
  1 <= x < 2 ^ q → (0 ≤ Int_part (ln x / ln 2) < Z.of_nat q)%Z.
Proof.
  intros [H1 Hq]. destruct ln_2_bounds as [Hl _].
  assert (H0 : 0 <= ln x).
  { destruct (Req_dec x 1) as [->|]; [rewrite ln_1; lra|].
    rewrite <- ln_1. apply Rlt_le, ln_increasing; lra. }
  assert (Hu : ln x < INR q * ln 2).
  { rewrite <- ln_pow by lra. apply ln_increasing; lra. }
  assert (Hr : 0 <= ln x / ln 2 < INR q).
  { split; [apply Rmult_le_pos; [done|apply Rlt_le, Rinv_0_lt_compat; lra]|].
    apply Rmult_lt_reg_r with (ln 2); [done|]. unfold Rdiv.
    rewrite Rmult_assoc, Rinv_l by lra. lra. }
  destruct (base_Int_part (ln x / ln 2)) as [Hi1 Hi2].
  split.
  - assert (IZR (-1) < IZR (Int_part (ln x / ln 2))) by lra.
    apply lt_IZR in H. lia.
  - apply lt_IZR. rewrite <- INR_IZR_INZ. lra.
Qed.

(** An integer of modest size is a double. *)
Lemma round_double_IZR (z : Z) :
  (Int_part (ln (Rabs (IZR z)) / ln 2) ≤ 52)%Z →
  Np.round_double (IZR z) = IZR z.
Proof.
  intros He. unfold Np.round_double. case_decide as Hz; [done|].
  set (E := Int_part _) in *.
  replace (E - 52)%Z with (- Z.of_nat (Z.to_nat (52 - E)))%Z by lia.
  rewrite powerRZ_2_neg. set (n := Z.to_nat (52 - E)).
  assert (Hp : 0 < 2 ^ n) by (apply pow_lt; lra).
  replace (IZR z / / 2 ^ n) with (IZR (z * 2 ^ Z.of_nat n)).
  - rewrite rint_IZR, mult_IZR, <- pow2_IZR. field. lra.
  - rewrite mult_IZR, <- pow2_IZR. field. lra.
Qed.

(** Rounding does not leave the interval between two integers when the
    number is one unit of the last place away from the upper one. *)
Lemma round_double_between (x : R) (n : nat) (lo hi : Z) :
  x ≠ 0 → (Int_part (ln (Rabs x) / ln 2) - 52 = - Z.of_nat n)%Z →
  IZR lo <= x → x + / 2 ^ n <= IZR hi →
  IZR lo <= Np.round_double x < IZR hi.
Proof.
  intros Hx He Hlo Hhi. unfold Np.round_double. rewrite decide_False by done.
  cbn zeta. rewrite He, powerRZ_2_neg.
  assert (Hp : 0 < 2 ^ n) by (apply pow_lt; lra).
  assert (Hi : 0 < / 2 ^ n) by (by apply Rinv_0_lt_compat).
  replace (x / / 2 ^ n) with (x * 2 ^ n) by (field; lra).
  set (m := x * 2 ^ n).
  assert (H1 : (lo * 2 ^ Z.of_nat n ≤ Np.rint m)%Z).
  { apply rint_ge. rewrite mult_IZR, <- pow2_IZR. unfold m. nra. }
  assert (H2 : (Np.rint m ≤ hi * 2 ^ Z.of_nat n - 1)%Z).
  { apply rint_le. rewrite minus_IZR, mult_IZR, <- pow2_IZR. unfold m.
    assert ((x + / 2 ^ n) * 2 ^ n <= IZR hi * 2 ^ n) by nra.
    rewrite Rmult_plus_distr_r, Rinv_l in H by lra. lra. }
  apply IZR_le in H1, H2.
  rewrite mult_IZR, <- pow2_IZR in H1.
  rewrite minus_IZR, mult_IZR, <- pow2_IZR in H2.
  split.
  - apply Rmult_le_reg_r with (2 ^ n); [done|].
    rewrite Rmult_assoc, Rinv_l by lra. lra.
  - apply Rmult_lt_reg_r with (2 ^ n); [done|].
    rewrite Rmult_assoc, Rinv_l by lra. lra.
Qed.

End HintLogarithm.

Section HintExact.

Lemma ln_le_mono (x y : R) : 0 < x → x <= y → ln x <= ln y.
Proof.
  intros Hx [Hlt| ->]; [|lra]. apply Rlt_le. by apply ln_increasing.
Qed.

Lemma ln_one_minus (t : R) : 0 < t < 1 → ln (1 - t) <= - t.
Proof.
  intros Ht. rewrite <- (ln_exp (- t)). apply ln_le_mono; [lra|].
  pose proof (exp_ineq1_le (- t)). lra.
Qed.

(** The real logarithm of an integer between [2^k] and [2^(k+1)] stays a
    margin below [k + 1]. *)
Lemma log2_between (N : Z) (k : nat) :
  (2 ^ Z.of_nat k ≤ N < 2 ^ Z.of_nat (S k))%Z →
  INR k <= ln (IZR N) / ln 2 <= INR (S k) - / 2 ^ S k.
Proof.
  intros [H1 H2]. destruct ln_2_bounds as [Hl0 Hl1].
  assert (Hp : ∀ j, 0 < 2 ^ j) by (intros; apply pow_lt; lra).
  assert (Hx1 : 2 ^ k <= IZR N) by (rewrite pow2_IZR; by apply IZR_le).
  assert (Hx2 : IZR N <= 2 ^ S k - 1).
  { rewrite pow2_IZR, <- minus_IZR. apply IZR_le. lia. }
  assert (Hx0 : 0 < IZR N) by (pose proof (Hp k); lra).
  assert (Ht : 0 < / 2 ^ S k < 1).
  { split; [by apply Rinv_0_lt_compat|].
    rewrite <- Rinv_1. apply Rinv_lt_contravar; [pose proof (Hp (S k)); lra|].
    cbn [pow]. pose proof (Hp k). assert (1 <= 2 ^ k); [|lra].
    apply pow_R1_Rle. lra. }
  assert (Hlo : INR k * ln 2 <= ln (IZR N)).
  { rewrite <- ln_pow by lra. by apply ln_le_mono. }
  assert (Hhi : ln (IZR N) <= INR (S k) * ln 2 - / 2 ^ S k).
  { transitivity (ln (2 ^ S k * (1 - / 2 ^ S k))).
    - apply ln_le_mono; [done|].
      rewrite Rmult_minus_distr_l, Rmult_1_r, Rinv_r; [done|].
      pose proof (Hp (S k)). lra.
    - rewrite ln_mult by (done || lra). rewrite ln_pow by lra.
      pose proof (ln_one_minus _ Ht). lra. }
  split.
  - apply Rmult_le_reg_r with (ln 2); [done|]. unfold Rdiv.
    rewrite Rmult_assoc, Rinv_l by lra. lra.
  - apply Rmult_le_reg_r with (ln 2); [done|]. unfold Rdiv.
    rewrite Rmult_assoc, Rinv_l by lra.
    assert (/ 2 ^ S k * ln 2 <= / 2 ^ S k) by nra. lra.
Qed.

(** For a hint below [2^32] the double logarithm has the integer part of
    the exact one. *)
Lemma int_log2_exact (N : Z) :
  (0 < N < 2 ^ 32)%Z → int_log2 N = Ok (Z.to_nat (Z.log2 N)).
Proof.
  intros [HN0 HN]. unfold int_log2, Np.log2.
  rewrite decide_False by lia. rewrite decide_False by lia.
  rewrite decide_False by lia. cbn [bind].
  assert (Hx : 1 <= IZR N < 2 ^ 32).
  { split; [apply IZR_le; lia|]. rewrite pow2_IZR. apply IZR_lt. lia. }
  rewrite round_double_IZR.
  2:{ rewrite Rabs_pos_eq by lra.
      pose proof (log2_floor_bounds (IZR N) 32 Hx). lia. }
  pose proof (Z.log2_nonneg N) as Hk0.
  pose proof (Z.log2_spec N HN0) as Hspec.
  assert (Hk32 : (Z.log2 N < 32)%Z) by (by apply Z.log2_lt_pow2).
  set (k := Z.to_nat (Z.log2 N)).
  assert (Hk : Z.log2 N = Z.of_nat k) by (unfold k; lia).
  destruct (log2_between N k) as [Hlo Hhi].
  { rewrite Nat2Z.inj_succ, <- Hk. lia. }
  set (y := ln (IZR N) / ln 2) in *.
  assert (Hround : INR k <= Np.round_double y < INR k + 1).
  { destruct (decide (k = 0)%nat) as [Hz|Hz].
    - assert (N = 1%Z) as ->.
      { rewrite Hk, Hz in Hspec. cbn in Hspec. lia. }
      unfold y. rewrite ln_1. unfold Rdiv. rewrite Rmult_0_l.
      unfold Np.round_double. rewrite decide_True by done.
      rewrite Hz. cbn. lra.
    - assert (H1 : 1 <= INR k).
      { rewrite INR_IZR_INZ. apply IZR_le. lia. }
      assert (Hy : 1 <= y < 2 ^ 5).
      { split; [lra|]. assert (INR (S k) <= 32); [|
          assert (0 < / 2 ^ S k) by (apply Rinv_0_lt_compat, pow_lt; lra); lra].
        rewrite INR_IZR_INZ. apply IZR_le. lia. }
      pose proof (log2_floor_bounds y 5 Hy) as HE.
      set (n := Z.to_nat (52 - Int_part (ln y / ln 2))).
      assert (Hn : (48 ≤ n ≤ 52)%nat) by (unfold n; lia).
      assert (Hulp : / 2 ^ n <= / 2 ^ S k).
      { apply Rinv_le_contravar; [apply pow_lt; lra|].
        apply Rle_pow; [lra|lia]. }
      replace (INR k + 1) with (IZR (Z.of_nat k + 1))
        by (rewrite plus_IZR, <- INR_IZR_INZ; done).
      rewrite (INR_IZR_INZ k).
      apply (round_double_between y n).
      + lra.
      + rewrite Rabs_pos_eq by lra. unfold n. lia.
      + rewrite <- INR_IZR_INZ. done.
      + rewrite plus_IZR, <- INR_IZR_INZ. rewrite S_INR in Hhi. lra. }
  unfold int. rewrite decide_True by (pose proof (pos_INR k); lra).
  cbn [bind]. do 2 f_equal.
  symmetry. rewrite Hk. apply Int_part_spec. rewrite <- INR_IZR_INZ. lra.
Qed.

End HintExact.

Section HintRoundsUp.

Lemma ln_2_lower : 5 / 8 < ln 2.
Proof.
  rewrite <- (ln_exp (5 / 8)). apply ln_increasing; [apply exp_pos|].
  set (a := exp (5 / 32)).
  assert (Ha0 : 0 < a) by apply exp_pos.
  assert (Ha : a <= 32 / 27).
  { pose proof (exp_ineq1_le (- (5 / 32))) as H.
    assert (Hinv : exp (- (5 / 32)) = / a) by (unfold a; apply exp_Ropp).
    rewrite Hinv in H.
    assert (27 / 32 * a <= / a * a) by nra.
    rewrite Rinv_l in H0 by lra. lra. }
  replace (5 / 8) with (5 / 32 + 5 / 32 + (5 / 32 + 5 / 32)) by lra.
  rewrite !exp_plus. fold a.
  assert (Ha2 : a * a <= 32 / 27 * (32 / 27)) by nra.
  assert (0 < a * a) by nra.
  assert (a * a * (a * a) <= 32 / 27 * (32 / 27) * (32 / 27 * (32 / 27))) by nra.
  lra.
Qed.

Lemma rint_unique (m : R) (z : Z) :
  IZR z - 1 / 2 < m < IZR z + 1 / 2 → Np.rint m = z.
Proof.
  intros [H1 H2]. destruct (rint_near m) as [H3 H4].
  assert (Ha : IZR (Np.rint m) < IZR (z + 1)) by (rewrite plus_IZR; lra).
  assert (Hb : IZR (z - 1) < IZR (Np.rint m)) by (rewrite minus_IZR; lra).
  apply lt_IZR in Ha, Hb. lia.
Qed.

(** At the hint [2^49 - 1] the double logarithm is [49.0]: the integer
    part is one more than that of the exact logarithm. *)
Lemma int_log2_rounds_up : int_log2 (2 ^ 49 - 1) = Ok 49%nat.
Proof.
  unfold int_log2, Np.log2.
  rewrite decide_False by lia. rewrite decide_False by lia.
  rewrite decide_False by lia. cbn [bind].
  set (N := (2 ^ 49 - 1)%Z).
  pose proof ln_2_lower as Hl. destruct ln_2_bounds as [Hl0 Hl1].
  assert (Hp49 : 2 ^ 49 = IZR (2 ^ 49)) by (rewrite (pow2_IZR 49); done).
  assert (HxN : IZR N = 2 ^ 49 - 1).
  { unfold N. rewrite minus_IZR, Hp49. done. }
  assert (Hbig : 8 <= 2 ^ 49).
  { change 49%nat with (3 + 46)%nat. rewrite pow_add.
    assert (1 <= 2 ^ 46) by (apply pow_R1_Rle; lra). lra. }
  assert (Hx : 1 <= IZR N < 2 ^ 49) by lra.
  rewrite round_double_IZR.
  2:{ rewrite Rabs_pos_eq by lra.
      pose proof (log2_floor_bounds (IZR N) 49 Hx). lia. }
  set (t := / 2 ^ 49).
  assert (Ht : 0 < t <= 1 / 8).
  { unfold t. split; [apply Rinv_0_lt_compat; lra|].
    replace (1 / 8) with (/ 8) by lra. apply Rinv_le_contravar; lra. }
  assert (Hfac : IZR N = 2 ^ 49 * (1 - t)).
  { unfold t. rewrite HxN. field; lra. }
  assert (Hln : ln (IZR N) = 49 * ln 2 + ln (1 - t)).
  { rewrite Hfac, ln_mult, ln_pow by lra.
    f_equal. f_equal. rewrite INR_IZR_INZ. done. }
  assert (Hlow : - (t / (1 - t)) <= ln (1 - t)).
  { assert (ln (/ (1 - t)) <= / (1 - t) - 1).
    { pose proof (exp_ineq1_le (ln (/ (1 - t)))) as H.
      rewrite exp_ln in H by (apply Rinv_0_lt_compat; lra). lra. }
    rewrite ln_Rinv in H by lra.
    replace (t / (1 - t)) with (/ (1 - t) - 1) by (field; lra). lra. }
  assert (Hup : ln (1 - t) < 0).
  { rewrite <- ln_1. apply ln_increasing; lra. }
  set (y := ln (IZR N) / ln 2).
  assert (Hy : 49 - 2 * t < y < 49).
  { unfold y. rewrite Hln. split.
    - apply Rmult_lt_reg_r with (ln 2); [done|]. unfold Rdiv.
      rewrite Rmult_assoc, Rinv_l by lra.
      assert (t / (1 - t) <= 8 / 7 * t).
      { apply Rmult_le_reg_r with (1 - t); [lra|]. unfold Rdiv.
        rewrite Rmult_assoc, Rinv_l by lra. nra. }
      assert (5 / 8 * t < ln 2 * t) by (apply Rmult_lt_compat_r; lra).
      lra.
    - apply Rmult_lt_reg_r with (ln 2); [done|]. unfold Rdiv.
      rewrite Rmult_assoc, Rinv_l by lra. lra. }
  assert (Ht2 : 2 * t = / 2 ^ 48).
  { unfold t. change 49%nat with (S 48). cbn [pow].
    field; try (apply pow_nonzero; lra). }
  assert (Hsmall : / 2 ^ 48 <= 1).
  { rewrite <- Rinv_1. apply Rinv_le_contravar; [lra|]. apply pow_R1_Rle. lra. }
  assert (Hy2 : 2 ^ 5 <= y < 2 ^ 6) by (cbn [pow]; lra).
  assert (HE : Int_part (ln y / ln 2) = 5%Z).
  { symmetry. apply Int_part_spec.
    assert (H5 : 5 * ln 2 <= ln y).
    { replace (5 * ln 2) with (ln (2 ^ 5)).
      - apply ln_le_mono; [apply pow_lt; lra|lra].
      - rewrite ln_pow by lra. cbn. lra. }
    assert (H6 : ln y < 6 * ln 2).
    { replace (6 * ln 2) with (ln (2 ^ 6)).
      - apply ln_increasing; [cbn [pow] in Hy2; lra|lra].
      - rewrite ln_pow by lra. cbn. lra. }
    split.
    - apply Rmult_lt_reg_r with (ln 2); [done|]. unfold Rdiv.
      rewrite Rmult_minus_distr_r, Rmult_assoc, Rinv_l by lra. lra.
    - apply Rmult_le_reg_r with (ln 2); [done|]. unfold Rdiv.
      rewrite Rmult_assoc, Rinv_l by lra. lra. }
  assert (Hround : Np.round_double y = 49).
  { unfold Np.round_double. rewrite decide_False by lra. cbn zeta.
    rewrite Rabs_pos_eq by lra. rewrite HE.
    change (5 - 52)%Z with (- Z.of_nat 47)%Z. rewrite powerRZ_2_neg.
    assert (Hp : 0 < 2 ^ 47) by (apply pow_lt; lra).
    replace (y / / 2 ^ 47) with (y * 2 ^ 47) by (field; try lra).
    assert (H47 : IZR (49 * 2 ^ 47) = 49 * 2 ^ 47)
      by (rewrite mult_IZR, (pow2_IZR 47); done).
    rewrite (rint_unique _ (49 * 2 ^ 47)%Z).
    - rewrite H47. field; try lra.
    - rewrite H47.
      assert (H48 : / 2 ^ 48 * 2 ^ 47 = 1 / 2).
      { change 48%nat with (S 47). cbn [pow]. field; try lra. }
      rewrite Ht2 in Hy. nra. }
  rewrite Hround. unfold int. rewrite decide_True by lra. cbn [bind].
  by rewrite (Int_part_IZR 49).
Qed.

End HintRoundsUp.

(** ** Construction from a function with a hint *)

Lemma dichotomy_single (f : R → R) (k : nat) :
  xrange k (k + 1) = [k] ∧ dichotomy f k (k + 1) false = Ok (coeffs_at f k).
Proof.
  assert (Hx : xrange k (k + 1) = [k]).
  { unfold xrange. by replace (k + 1 - k)%nat with 1%nat by lia. }
  split; [done|]. unfold dichotomy. rewrite Hx. cbn [dichotomy_loop].
  destruct (dichotomy_step_spec f k) as (b & -> & _). cbn [bind fst snd].
  by destruct b.
Qed.

(** C2 (as amended).  With a hint [1 <= N0 < 2^32] the search is narrowed
    to the single trial exponent [k = floor (log2 N0) + 1], the least [k]
    with [N0 < 2 ^ k]; [raise_no_convergence] is forced to false, and the
    construction returns an interpolant: no [NoConvergence] is raised. *)
Theorem from_function_hint (f : R → R) (N0 : Z) :
  (0 < N0 < 2 ^ 32)%Z →
  let k := (Z.to_nat (Z.log2 N0) + 1)%nat in
  dichotomy_args (Some N0) = Ok (k, (k + 1)%nat, false) ∧
  xrange k (k + 1) = [k] ∧
  (2 ^ (Z.of_nat k - 1) ≤ N0 < 2 ^ Z.of_nat k)%Z ∧
  dichotomy f k (k + 1) false = Ok (coeffs_at f k) ∧
  (∃ c, from_function f (Some N0) = Ok c) ∧
  (∀ last bnd, from_function f (Some N0) ≠ Raise (NoConvergence last bnd)).
Proof.
  intros HN32 k. assert (HN : (0 < N0)%Z) by lia.
  assert (Hargs : dichotomy_args (Some N0) = Ok (k, (k + 1)%nat, false)).
  { unfold dichotomy_args. by rewrite int_log2_exact. }
  destruct (dichotomy_single f k) as [Hx Hd].
  split; [done|]. split; [done|]. split; [|split; [done|]].
  - pose proof (Z.log2_nonneg N0). pose proof (Z.log2_spec N0 HN) as Hs.
    unfold k. rewrite Nat2Z.inj_add, Z2Nat.id by done.
    replace (Z.log2 N0 + Z.of_nat 1 - 1)%Z with (Z.log2 N0) by lia.
    replace (Z.log2 N0 + Z.of_nat 1)%Z with (Z.succ (Z.log2 N0)) by lia.
    done.
  - unfold from_function. rewrite Hargs. cbn [bind]. rewrite Hd. cbn [bind].
    destruct (from_chebcoeff_Ok (coeffs_at f k) true 1) as (c & -> & _).
    { destruct (coeffs_at_Ok f k) as [_ ->]. lia. }
    split; [eauto|done].
Qed.

Lemma from_function_hint_witness :
  (0 < 5 < 2 ^ 32)%Z ∧
  dichotomy_args (Some 5%Z) = Ok (3%nat, 4%nat, false) ∧
  ∃ c, from_function (fun x => x) (Some 5%Z) = Ok c.
Proof.
  split; [lia|].
  pose proof (from_function_hint (fun x => x) 5 ltac:(lia)) as H.
  cbn zeta in H. destruct H as (Ha & _ & _ & _ & Hc & _).
  split; [exact Ha|exact Hc].
Defined.

(** C2 fails as stated: for the hint [4] the only trial exponent is [3],
    while [ceil (log2 4)] is [2] and the claimed exponents are [2] and [3]. *)
Lemma hint_four_single_trial :
  ∃ kmin kmax raise_nc,
    dichotomy_args (Some 4%Z) = Ok (kmin, kmax, raise_nc) ∧
    xrange kmin kmax = [3%nat] ∧
    Z.log2_up 4 = 2%Z ∧
    xrange kmin kmax ≠ [Z.to_nat (Z.log2_up 4); (Z.to_nat (Z.log2_up 4) + 1)%nat].
Proof.
  exists 3%nat, 4%nat, false.
  split; [unfold dichotomy_args; by rewrite int_log2_exact by lia|].
  split; [reflexivity|]. split; [reflexivity|].
  discriminate.
Qed.

(** The bound on the hint is needed: at [2^49 - 1] the double logarithm is
    [49.0] and the trial exponent is [50], one more than the least [k] with
    [N0 < 2 ^ k]. *)
Lemma hint_rounding_moves_trial :
  dichotomy_args (Some (2 ^ 49 - 1)%Z) = Ok (50%nat, 51%nat, false) ∧
  (2 ^ 49 - 1 < 2 ^ 49)%Z.
Proof.
  split; [|lia]. unfold dichotomy_args. by rewrite int_log2_rounds_up.
Qed.

(** ** The scale of an interpolant *)

Section Scale.

Lemma foldl_Rmax_spec (r : list R) (x : R) :
  (foldl Rmax x r = x ∨ foldl Rmax x r ∈ r) ∧
  x <= foldl Rmax x r ∧ ∀ y, y ∈ r → y <= foldl Rmax x r.
Proof.
  revert x. induction r as [|z r IH]; intros x; cbn.
  - split; [by left|]. split; [lra|]. intros y Hy. by apply elem_of_nil in Hy.
  - destruct (IH (Rmax x z)) as (Hin & Hle & Hall).
    pose proof (Rmax_l x z). pose proof (Rmax_r x z).
    split; [|split; [lra|]].
    + destruct Hin as [Heq|Hin]; [|right; by apply list_elem_of_further].
      rewrite Heq. unfold Rmax. destruct (Rle_dec x z); [right|by left].
      apply list_elem_of_here.
    + intros y Hy. apply elem_of_cons in Hy as [->|Hy]; [lra|by apply Hall].
Qed.

(** [np.max] returns an entry of the array that bounds all of them. *)
Lemma max_spec (a : list R) (m : R) :
  Np.max a = Ok m → m ∈ a ∧ ∀ y, y ∈ a → y <= m.
Proof.
  destruct a as [|x r]; [discriminate|]. cbn. intros [= <-].
  destruct (foldl_Rmax_spec r x) as (Hin & Hle & Hall). split.
  - destruct Hin as [->|Hin]; [apply list_elem_of_here|by apply list_elem_of_further].
  - intros y Hy. apply elem_of_cons in Hy as [->|Hy]; [done|by apply Hall].
Qed.

Lemma max_abs_spec (v : list R) (m : R) :
  Np.max (Np.abs v) = Ok m →
  0 <= m ∧ (∃ x, x ∈ v ∧ m = Rabs x) ∧ ∀ x, x ∈ v → Rabs x <= m.
Proof.
  intros H. apply max_spec in H as [Hin Hall].
  unfold Np.abs in *. apply list_elem_of_fmap in Hin as (x & -> & Hx).
  split; [apply Rabs_pos|]. split; [eauto|].
  intros y Hy. apply Hall. apply list_elem_of_fmap. eauto.
Qed.

End Scale.

(** C9 (as amended).  An interpolant built from raw values or by copy
    stores as scale the maximum absolute sampled value, which is
    non-negative.  One built from coefficients stores the scale argument it
    was given ([1.] by default), and one built adaptively from a function
    stores the scale [1]. *)
Theorem scale_spec (data : list R) (other : t) (chebcoeff : list R)
    (prune : bool) (scale : R) :
  (1 ≤ length data)%nat → (1 ≤ length (values other))%nat →
  (1 ≤ length chebcoeff)%nat →
  (∃ c, from_data data = Ok c ∧ values c = data ∧
        Np.max (Np.abs (values c)) = Ok (_scale c) ∧ 0 <= _scale c ∧
        (∃ x, x ∈ values c ∧ _scale c = Rabs x) ∧
        (∀ x, x ∈ values c → Rabs x <= _scale c)) ∧
  (∃ c, from_chebfun other = Ok c ∧ values c = values other ∧
        Np.max (Np.abs (values c)) = Ok (_scale c) ∧ 0 <= _scale c) ∧
  (∃ c, from_chebcoeff chebcoeff prune scale = Ok c ∧ _scale c = scale) ∧
  (∀ f N c, from_function f N = Ok c → _scale c = 1).
Proof.
  intros Hd Ho Hc.
  assert (Hinit : ∀ v, (1 ≤ length v)%nat →
            ∃ c, __init__ v None = Ok c ∧ values c = v ∧
                 Np.max (Np.abs (values c)) = Ok (_scale c) ∧ 0 <= _scale c ∧
                 (∃ x, x ∈ values c ∧ _scale c = Rabs x) ∧
                 (∀ x, x ∈ values c → Rabs x <= _scale c)).
  { intros v Hv.
    destruct (init_Ok v None Hv) as (c & s & Hi & Hval & Hs & _ & Hm).
    exists c. unfold values. rewrite Hval, Hs.
    destruct (max_abs_spec v s Hm) as (? & ? & ?). done. }
  split; [by apply Hinit|]. split.
  - destruct (Hinit (values other) Ho) as (c & ? & ? & ? & ? & _). by exists c.
  - split.
    + destruct (from_chebcoeff_Ok chebcoeff prune scale Hc) as (c & ? & ? & _).
      by exists c.
    + intros f N c. unfold from_function.
      destruct (dichotomy_args N) as [[[kmin kmax] r]|]; [|discriminate].
      cbn [bind]. destruct (dichotomy f kmin kmax r) as [co|]; [|discriminate].
      cbn [bind]. unfold from_chebcoeff.
      destruct (chebpolyval _) as [v|]; [|discriminate]. cbn [bind].
      unfold __init__. cbn [bind].
      destruct (interpolator _ _); [|discriminate]. cbn [bind].
      by intros [= <-].
Qed.

Lemma scale_spec_witness :
  let other := {| _values := [1]; _scale := 1;
                  p := {| wi := [1 / 4]; xi := [0]; yi := [1] |} |} in
  (1 ≤ length [2; -3]%R)%nat ∧ (1 ≤ length (values other))%nat ∧
  ∃ c, from_chebcoeff [2; -3] true 7 = Ok c ∧ _scale c = 7.
Proof.
  intros other.
  split; [cbn; lia|]. split; [cbn; lia|].
  apply (scale_spec [2; -3] other [2; -3] true 7); cbn; lia.
Defined.

(** C9 fails as stated: the interpolant built from the coefficients [[5]]
    has the single sample [5] and the stored scale [1]. *)
Lemma scale_from_chebcoeff_not_max :
  ∃ c, from_chebcoeff [5] true 1 = Ok c ∧ values c = [5] ∧
       Np.max (Np.abs (values c)) = Ok 5 ∧ _scale c = 1 ∧ _scale c ≠ 5.
Proof.
  assert (Hcut : _cutoff [5] 1 = 1%nat).
  { unfold _cutoff, Np.nonzero. cbn.
    rewrite bool_decide_eq_true_2; [reflexivity|].
    unfold _threshold, emach. rewrite Rabs_pos_eq by lra.
    assert (/ 2 ^ 52 <= / 1).
    { apply Rinv_le_contravar; [lra|]. apply pow_R1_Rle. lra. }
    rewrite Rinv_1 in H. lra. }
  unfold from_chebcoeff. rewrite Hcut. cbn.
  eexists. split; [reflexivity|]. cbn. split; [done|].
  rewrite Rabs_pos_eq by lra. split; [done|]. split; [done|]. lra.
Qed.

(** ** The differentiation recurrence *)

Section Differentiator.

Context (A : list R).
Let m := length A.
Let SA := imap (fun k a => a * 2 * INR k) A.

Lemma get_nth (a : list R) (i : nat) :
  (i < length a)%nat → Np.get i a = Ok (nth i a 0).
Proof.
  intros Hi. unfold Np.get. rewrite nth_lookup.
  by destruct (lookup_lt_is_Some_2 a i Hi) as [x ->].
Qed.

Lemma nth_insert (a : list R) (i j : nat) (x : R) :
  (j < length a)%nat →
  nth i (<[j:=x]> a) 0 = if decide (i = j) then x else nth i a 0.
Proof.
  intros Hj. rewrite !nth_lookup. destruct (decide (i = j)) as [->|Hne].
  - by rewrite list_lookup_insert_eq.
  - by rewrite list_lookup_insert_ne.
Qed.

Lemma length_SA : length SA = m.
Proof. unfold SA. by rewrite length_imap. Qed.

Lemma nth_SA (k : nat) : (k < m)%nat → nth k SA 0 = scaled A k.
Proof.
  intros Hk. unfold SA, scaled. rewrite !nth_lookup, list_lookup_imap.
  destruct (lookup_lt_is_Some_2 A k Hk) as [x ->]. cbn. lra.
Qed.

Lemma diff_inv_init :
  (3 ≤ m)%nat → diff_inv A 0 (assign_pair m SA (replicate m 0)).
Proof.
  intros Hm. unfold diff_inv, assign_pair. fold m.
  assert (Hlen : length (take (m - 3) (replicate m 0)
                         ++ take 2 (drop (m - 2) SA)
                         ++ drop (m - 1) (replicate m 0)) = m).
  { rewrite !length_app, !length_take, !length_drop, length_SA,
      length_replicate. lia. }
  split; [done|]. rewrite !nth_lookup. split; [|split].
  - rewrite lookup_app_r by (rewrite length_take, length_replicate; lia).
    rewrite length_take, length_replicate.
    rewrite lookup_app_r by (rewrite length_take, length_drop, length_SA; lia).
    rewrite length_take, length_drop, length_SA, lookup_drop.
    rewrite lookup_replicate_2 by lia. done.
  - rewrite lookup_app_r by (rewrite length_take, length_replicate; lia).
    rewrite length_take, length_replicate.
    rewrite lookup_app_l by (rewrite length_take, length_drop, length_SA; lia).
    rewrite lookup_take_lt, lookup_drop by lia.
    replace (m - 2 + (m - 2 - (m - 3) `min` m))%nat with (m - 1)%nat by lia.
    rewrite <- nth_lookup. by rewrite nth_SA by lia.
  - intros i Hi. lia.
Qed.

Lemma diff_body_inv (j : nat) (DA : list R) :
  (2 * j + 4 ≤ m)%nat → diff_inv A j DA →
  ∃ DA', differentiator_body m SA j DA = Ok DA' ∧ diff_inv A (S j) DA'.
Proof.
  intros Hj Hinv. unfold diff_inv in Hinv. fold m in Hinv.
  destruct Hinv as (Hlen & Hlast & Hprev & Hrec). unfold differentiator_body.
  set (k := (m - 3 - 2 * j)%nat).
  rewrite !get_nth by (rewrite ?length_SA; lia). cbn [bind].
  unfold Np.set_at. rewrite decide_True by lia. cbn [bind].
  rewrite !get_nth by (rewrite ?length_insert, ?length_SA; lia). cbn [bind].
  rewrite length_insert, decide_True by lia. cbn [bind].
  eexists. split; [reflexivity|].
  unfold diff_inv. fold m. rewrite !length_insert. split; [done|].
  rewrite !nth_insert by (rewrite ?length_insert; lia).
  rewrite !nth_SA by lia.
  rewrite !(decide_False (P := (m - 1 = _)%nat)) by lia.
  rewrite !(decide_False (P := (m - 2 = _)%nat)) by lia.
  rewrite (decide_False (P := (k + 1 = k)%nat)) by lia.
  split; [done|]. split; [done|].
  intros i Hi. rewrite !nth_insert by (rewrite ?length_insert; lia).
  rewrite !(decide_False (P := (i + 2 = _)%nat)) by lia.
  destruct (decide (i = k - 1)%nat) as [->|Hi1].
  - replace (k - 1 + 1)%nat with k by lia.
    replace (k - 1 + 2)%nat with (k + 1)%nat by lia. done.
  - destruct (decide (i = k)) as [->|Hi2]; [done|].
    apply Hrec. lia.
Qed.

Lemma diff_loop_inv (J j0 : nat) (DA : list R) :
  (2 * (j0 + J) + 2 ≤ m)%nat → diff_inv A j0 DA →
  ∃ DA', for_each (differentiator_body m SA) (seq j0 J) DA = Ok DA' ∧
         diff_inv A (j0 + J) DA'.
Proof.
  revert j0 DA. induction J as [|J IH]; intros j0 DA HJ Hinv.
  - exists DA. split; [done|]. by rewrite Nat.add_0_r.
  - cbn [seq for_each].
    destruct (diff_body_inv j0 DA) as (DA1 & -> & Hinv1); [lia|done|].
    cbn [bind]. destruct (IH (S j0) DA1) as (DA' & -> & Hinv'); [lia|done|].
    exists DA'. split; [done|]. by replace (j0 + S J)%nat with (S j0 + J)%nat by lia.
Qed.

Lemma differentiator_closed :
  (3 ≤ m)%nat →
  ∃ DA, differentiator A = Ok DA ∧ length DA = m ∧
        nth (m - 1) DA 0 = 0 ∧
        nth (m - 2) DA 0 = scaled A (m - 1) ∧
        (∀ k, (1 ≤ k ≤ m - 3)%nat →
              nth k DA 0 = scaled A (k + 1) + nth (k + 2) DA 0) ∧
        nth 0 DA 0 = (scaled A 1 + nth 2 DA 0) / 2.
Proof.
  intros Hm. unfold differentiator. fold m. fold SA.
  rewrite !decide_False by lia.
  assert (Hdiv : (2 * (m / 2) ≤ m ∧ m < 2 * (m / 2) + 2)%nat).
  { pose proof (Nat.div_mod_eq m 2). pose proof (Nat.mod_upper_bound m 2). lia. }
  destruct (diff_loop_inv (m / 2 - 1) 0 (assign_pair m SA (replicate m 0)))
    as (DA & -> & Hinv); [lia|by apply diff_inv_init|].
  unfold diff_inv in Hinv. fold m in Hinv.
  destruct Hinv as (Hlen & Hlast & Hprev & Hrec).
  cbn [bind]. rewrite !get_nth by (rewrite ?length_SA; lia). cbn [bind].
  unfold Np.set_at. rewrite decide_True by lia.
  eexists. split; [reflexivity|]. rewrite length_insert. split; [done|].
  rewrite !nth_insert by lia. rewrite !decide_False by lia.
  rewrite decide_True by done. rewrite nth_SA by lia.
  split; [done|]. split; [done|]. split; [|case_decide; [lia|lra]].
  intros k Hk. rewrite !nth_insert by lia. rewrite !decide_False by lia.
  apply Hrec. lia.
Qed.

End Differentiator.

(** C5 (as amended).  For [m = 1] the result is the zero constant and for
    [m = 2] it is [[a[1]]].  For [m >= 3] the result has [m] entries: the
    derivative coefficients [b[0..m-2]], with [b[m-2] = s[m-1]],
    [b[m-3] = s[m-2]], [b[k] = s[k+1] + b[k+2]] for [1 <= k <= m-3] and
    [b[0] = (s[1] + b[2]) / 2], followed by a last entry equal to zero. *)
Theorem differentiator_spec (A : list R) :
  let m := length A in
  (m = 1%nat → differentiator A = Ok [0]) ∧
  (m = 2%nat → differentiator A = Ok [nth 1 A 0]) ∧
  ((3 ≤ m)%nat →
   ∃ b, differentiator A = Ok b ∧ length b = m ∧
        nth (m - 1) b 0 = 0 ∧
        nth (m - 2) b 0 = scaled A (m - 1) ∧
        ((4 ≤ m)%nat → nth (m - 3) b 0 = scaled A (m - 2)) ∧
        (∀ k, (1 ≤ k ≤ m - 3)%nat →
              nth k b 0 = scaled A (k + 1) + nth (k + 2) b 0) ∧
        nth 0 b 0 = (scaled A 1 + nth 2 b 0) / 2) ∧
  (∀ k, scaled A k = 2 * INR k * nth k A 0).
Proof.
  intros m. split; [|split; [|split; [|done]]].
  - intros Hm. unfold differentiator. fold m. rewrite decide_True by done.
    destruct A as [|a [|]]; try discriminate. reflexivity.
  - intros Hm. unfold differentiator. fold m.
    rewrite decide_False, decide_True by lia.
    destruct A as [|a0 [|a1 [|]]]; try discriminate. reflexivity.
  - intros Hm.
    destruct (differentiator_closed A Hm) as (b & Hb & Hlen & Hl & Hp & Hrec & H0).
    exists b. fold m in Hlen, Hl, Hp, Hrec. repeat (split; [done|]).
    split; [|done]. intros H4. rewrite Hrec by lia.
    replace (m - 3 + 1)%nat with (m - 2)%nat by lia.
    replace (m - 3 + 2)%nat with (m - 1)%nat by lia. lra.
Qed.

(** C5 fails as stated: for the coefficients [[0; 0; 1]] of [T_2] the result
    has three entries, [[0; 4; 0]], not the two entries [b[0..1] = [0; 4]]. *)
Lemma differentiator_keeps_length :
  differentiator [0; 0; 1] = Ok [0; 4; 0] ∧
  length [0; 4; 0]%R = length [0; 0; 1]%R ∧
  differentiator [0; 0; 1] ≠ Ok [0; 4].
Proof.
  assert (H : differentiator [0; 0; 1] = Ok [0; 4; 0]).
  { unfold differentiator. cbn. rewrite !decide_False by lia.
    unfold Np.set_at. rewrite decide_True by (cbn; lia). cbn.
    repeat f_equal; lra. }
  rewrite H. split; [done|]. split; [done|]. discriminate.
Qed.

(** ** Arithmetic on interpolants *)

Section Arithmetic.

Lemma init_wf (values : list R) (scale : option R) :
  (1 ≤ length values)%nat →
  ∃ c, __init__ values scale = Ok c ∧ wf c ∧ _values c = values ∧
       match scale with
       | Some s => _scale c = s
       | None => Np.max (Np.abs values) = Ok (_scale c)
       end.
Proof.
  intros Hv. unfold __init__.
  destruct (interpolator_Ok (interpolation_points (length values)) values Hv
              (eq_sym (length_interpolation_points (length values))))
    as (p & Hp & Hxi & Hyi).
  destruct scale as [s|].
  - cbn [bind]. rewrite Hp. cbn [bind]. eexists.
    split; [reflexivity|]. unfold wf. cbn. done.
  - destruct (max_Ok (Np.abs values)) as [m Hm].
    { unfold Np.abs. by rewrite length_fmap. }
    rewrite Hm. cbn [bind]. rewrite Hp. cbn [bind]. eexists.
    split; [reflexivity|]. unfold wf. cbn. done.
Qed.

Lemma wf_size (c : t) : wf c → size c = length (values c).
Proof. intros (_ & Hyi & _). unfold size, values. by rewrite Hyi. Qed.

Lemma wf_coefficients (c : t) :
  wf c →
  ∃ a, chebyshev_coefficients c = Ok a ∧ length a = size c ∧
       chebpolyval a = Ok (values c).
Proof.
  intros Hwf. pose proof (wf_size c Hwf) as Hs. destruct Hwf as (Hlen & _).
  destruct (chebpolyfit_Ok (values c) Hlen) as (a & Ha & Hla & Hval).
  exists a. unfold chebyshev_coefficients. rewrite Hs. done.
Qed.

(** Construction from coefficients: the values are those of the pruned
    series, and the coefficients of the result are the pruned series. *)
Lemma from_chebcoeff_wf (chebcoeff : list R) (scale : R) :
  (1 ≤ length chebcoeff)%nat →
  ∃ c, from_chebcoeff chebcoeff true scale = Ok c ∧ wf c ∧ _scale c = scale ∧
       chebpolyval (take (_cutoff chebcoeff scale) chebcoeff) = Ok (values c) ∧
       chebyshev_coefficients c = Ok (take (_cutoff chebcoeff scale) chebcoeff).
Proof.
  intros Hc. unfold from_chebcoeff.
  set (pruned := take _ _).
  assert (Hp : (1 ≤ length pruned)%nat).
  { unfold pruned. rewrite length_take.
    pose proof (cutoff_pos chebcoeff scale). lia. }
  destruct (chebpolyval_Ok pruned Hp) as (v & Hv & Hlen & Hfit).
  rewrite Hv. cbn [bind].
  destruct (init_wf v (Some scale)) as (c & Hi & Hwf & Hval & Hs); [lia|].
  exists c. unfold chebyshev_coefficients, values. rewrite Hi, Hval. done.
Qed.

Lemma zip_with_padded (big small : list R) :
  (length small ≤ length big)%nat →
  zip_with Rplus big (small ++ replicate (length big - length small) 0) =
  padded_sum big small.
Proof.
  intros Hle. unfold padded_sum. rewrite Nat.max_l by done.
  apply list_eq. intros i.
  rewrite lookup_zip_with, list_lookup_fmap.
  destruct (decide (i < length big)%nat) as [Hi|Hi].
  - rewrite lookup_seq_lt by done. cbn.
    destruct (lookup_lt_is_Some_2 big i Hi) as [x Hx].
    rewrite (nth_lookup_Some _ _ _ _ Hx), Hx. cbn.
    destruct (decide (i < length small)%nat) as [Hs|Hs].
    + destruct (lookup_lt_is_Some_2 small i Hs) as [y Hy].
      rewrite lookup_app_l, Hy by done. cbn.
      by rewrite (nth_lookup_Some _ _ _ _ Hy).
    + rewrite lookup_app_r, lookup_replicate_2 by lia. cbn.
      rewrite nth_overflow by lia. done.
  - rewrite lookup_seq_ge, (lookup_ge_None_2 big) by lia. done.
Qed.

Lemma padded_sum_comm (a b : list R) : padded_sum a b = padded_sum b a.
Proof.
  unfold padded_sum. rewrite Nat.max_comm.
  apply list_fmap_ext. intros _ k _. lra.
Qed.

Lemma length_padded_sum (a b : list R) :
  length (padded_sum a b) = (length a `max` length b)%nat.
Proof. unfold padded_sum. by rewrite length_fmap, length_seq. Qed.

(** The sum of two instances. *)
Lemma add_wf (f g : t) :
  wf f → wf g →
  ∃ a b h, chebyshev_coefficients f = Ok a ∧ chebyshev_coefficients g = Ok b ∧
           length a = size f ∧ length b = size g ∧
           __add__ f (Obj g) = Ok h ∧ wf h ∧
           _scale h = Rmax (_scale f) (_scale g) ∧
           chebyshev_coefficients h =
             Ok (take (_cutoff (padded_sum a b) (_scale h)) (padded_sum a b)) ∧
           chebpolyval (take (_cutoff (padded_sum a b) (_scale h)) (padded_sum a b))
             = Ok (values h).
Proof.
  intros Hf Hg.
  destruct (wf_coefficients f Hf) as (a & Ha & Hla & _).
  destruct (wf_coefficients g Hg) as (b & Hb & Hlb & _).
  exists a, b.
  assert (Hpos : (1 ≤ length (padded_sum a b))%nat).
  { rewrite length_padded_sum, Hla, (wf_size f Hf).
    destruct Hf as (? & _). unfold values. lia. }
  destruct (from_chebcoeff_wf (padded_sum a b) (Rmax (_scale f) (_scale g)) Hpos)
    as (h & Hh & Hwf & Hs & Hval & Hco).
  exists h. repeat (split; [done|]).
  split; [|rewrite Hs; done].
  unfold __add__. cbn [cast_scalar bind].
  destruct (bool_decide (size f < size g)%nat) eqn:Hbig.
  - apply bool_decide_eq_true in Hbig.
    rewrite Ha, Hb. cbn [bind]. unfold pad_to.
    rewrite decide_True by lia. cbn [bind].
    rewrite zip_with_padded by lia. by rewrite padded_sum_comm.
  - apply bool_decide_eq_false in Hbig.
    rewrite Ha, Hb. cbn [bind]. unfold pad_to.
    rewrite decide_True by lia. cbn [bind].
    rewrite zip_with_padded by lia. done.
Qed.

End Arithmetic.

(** C7.  The sum of two interpolants is built from the elementwise sum of
    their coefficient series, the shorter one padded with zeros; its scale is
    the larger of the two scales; its coefficient series is that sum cut by
    the pruner, and its values are the inverse transform of it (nothing is
    sampled again).  A scalar operand is first made an interpolant with the
    single value of the scalar. *)
Theorem add_spec (f g : t) (x : R) :
  wf f → wf g →
  (∃ a b h, chebyshev_coefficients f = Ok a ∧ chebyshev_coefficients g = Ok b ∧
            __add__ f (Obj g) = Ok h ∧
            _scale h = Rmax (_scale f) (_scale g) ∧
            length (padded_sum a b) = (size f `max` size g)%nat ∧
            (∀ k, (k < size f `max` size g)%nat →
                  nth k (padded_sum a b) 0 = nth k a 0 + nth k b 0) ∧
            chebyshev_coefficients h =
              Ok (take (_cutoff (padded_sum a b) (_scale h)) (padded_sum a b)) ∧
            chebpolyval (take (_cutoff (padded_sum a b) (_scale h)) (padded_sum a b))
              = Ok (values h)) ∧
  (∃ gx, cast_scalar (Scalar x) = Ok gx ∧ values gx = [x] ∧ size gx = 1%nat ∧
         wf gx ∧ __add__ f (Scalar x) = __add__ f (Obj gx)).
Proof.
  intros Hf Hg. split.
  - destruct (add_wf f g Hf Hg)
      as (a & b & h & Ha & Hb & Hla & Hlb & Hadd & _ & Hs & Hco & Hval).
    exists a, b, h. repeat (split; [done|]).
    split; [by rewrite length_padded_sum, Hla, Hlb|].
    split; [|done]. intros k Hk. unfold padded_sum.
    rewrite nth_fmap_seq; [done|]. by rewrite Hla, Hlb.
  - destruct (init_wf [x] None) as (gx & Hgx & Hwf & Hval & _); [cbn; lia|].
    exists gx. cbn [cast_scalar]. split; [done|]. split; [done|].
    split; [by rewrite (wf_size gx Hwf); unfold values; rewrite Hval|].
    split; [done|]. unfold __add__. cbn [cast_scalar]. by rewrite Hgx.
Qed.

Lemma add_spec_witness :
  wf one ∧ wf one ∧
  ∃ gx, cast_scalar (Scalar 2) = Ok gx ∧ values gx = [2] ∧ size gx = 1%nat ∧
        wf gx ∧ __add__ one (Scalar 2) = __add__ one (Obj gx).
Proof.
  assert (H : wf one).
  { unfold wf, one, interpolation_points. cbn. rewrite decide_True by done.
    split; [lia|done]. }
  split; [exact H|]. split; [exact H|].
  apply (add_spec one one 2 H H).
Defined.

(** ** Equality up to tolerance *)

Section Equality.

Lemma isclose_zero (x : R) : Np.isclose x 0 = true ↔ Rabs x <= 1 / 10 ^ 8.
Proof.
  unfold Np.isclose, Np.atol, Np.rtol.
  rewrite bool_decide_eq_true, Rabs_R0, Rminus_0_r.
  replace (1 / 10 ^ 8 + 1 / 10 ^ 5 * 0) with (1 / 10 ^ 8) by lra. done.
Qed.

Lemma allclose_zero (c : list R) :
  Np.allclose c 0 = true ↔ ∀ x, x ∈ c → Rabs x <= 1 / 10 ^ 8.
Proof.
  unfold Np.allclose. rewrite forallb_forall. split; intros H x Hx.
  - apply isclose_zero, H. by apply list_elem_of_In.
  - apply isclose_zero, H. by apply list_elem_of_In.
Qed.

Lemma sub_wf (f g : t) :
  wf f → wf g →
  ∃ ng d, __neg__ g = Ok ng ∧ values ng = Ropp <$> values g ∧
          __sub__ f (Obj g) = Ok d ∧ __add__ f (Obj ng) = Ok d ∧ wf d.
Proof.
  intros Hf Hg. unfold __sub__, __neg__, from_data. cbn [cast_scalar bind].
  destruct (init_wf (Ropp <$> values g) None) as (ng & Hng & Hwf & Hval & _).
  { rewrite length_fmap. by destruct Hg. }
  rewrite Hng. cbn [bind].
  destruct (add_wf f ng Hf Hwf) as (_ & _ & d & _ & _ & _ & _ & Hd & Hwd & _).
  exists ng, d. done.
Qed.

End Equality.

Lemma wf_single (c : t) (x : R) :
  _values c = [x] → yi (p c) = [x] → xi (p c) = [0] → wf c.
Proof.
  intros Hv Hy Hx. unfold wf, interpolation_points. rewrite Hv, Hy, Hx. cbn.
  rewrite decide_True by done. split; [lia|done].
Qed.

Lemma from_data_one : from_data [1] = Ok one.
Proof.
  unfold from_data, __init__, interpolator, Np.set_at, Np.alter_last. cbn.
  rewrite !decide_True by (cbn; lia). cbn. by rewrite Rabs_R1.
Qed.

Lemma from_data_one_eps : from_data [1 + 1 / 10 ^ 9] = Ok one_eps.
Proof.
  assert (Hpos : 0 < 1 / 10 ^ 9)
    by (apply Rdiv_lt_0_compat; [lra|apply pow_lt; lra]).
  unfold from_data, __init__, interpolator, Np.set_at, Np.alter_last. cbn.
  rewrite !decide_True by (cbn; lia). cbn. by rewrite Rabs_pos_eq by lra.
Qed.

(** Two interpolants built from different data compare equal when their
    coefficients differ by less than the tolerance. *)
Lemma eq_different_data :
  from_data [1] = Ok one ∧ from_data [1 + 1 / 10 ^ 9] = Ok one_eps ∧
  values one ≠ values one_eps ∧ __eq__ one (Obj one_eps) = Ok true.
Proof.
  assert (Hpos : 0 < 1 / 10 ^ 9)
    by (apply Rdiv_lt_0_compat; [lra|apply pow_lt; lra]).
  split; [apply from_data_one|]. split; [apply from_data_one_eps|].
  split.
  - unfold values, one, one_eps. cbn. intros [= H].
    assert (0 < 1 / 10 ^ 9) by (apply Rdiv_lt_0_compat; [lra|apply pow_lt; lra]).
    lra.
  - assert (H1 : wf one) by (by apply (wf_single one 1)).
    assert (H2 : wf one_eps) by (by apply (wf_single one_eps (1 + 1 / 10 ^ 9))).
    destruct (sub_wf one one_eps H1 H2) as (ng & d & Hng & Hvn & Hsub & Hadd & Hwd).
    assert (Hwn : wf ng).
    { unfold __neg__, from_data in Hng.
      destruct (init_wf (Ropp <$> values one_eps) None) as (c & Hc & Hw & _);
        [cbn; lia|].
      rewrite Hc in Hng. by injection Hng as <-. }
    destruct (add_wf one ng H1 Hwn)
      as (a & b & h & Ha & Hb & _ & _ & Hadd' & _ & _ & Hco & _).
    rewrite Hadd in Hadd'. injection Hadd' as <-.
    unfold chebyshev_coefficients, chebpolyfit in Ha, Hb.
    rewrite Hvn in Hb. cbn in Ha, Hb. rewrite decide_True in Ha, Hb by done.
    injection Ha as <-. injection Hb as <-.
    unfold __eq__, __nonzero__. rewrite Hsub. cbn [bind]. rewrite Hco.
    cbn [bind]. rewrite negb_involutive. f_equal.
    set (s := padded_sum _ _).
    assert (Hs : s = [1 + - (1 + 1 / 10 ^ 9)]) by reflexivity.
    assert (Ht : take (_cutoff s (_scale d)) s = s).
    { apply take_ge. rewrite Hs. cbn. apply cutoff_pos. }
    rewrite Ht, Hs. apply allclose_zero. intros x Hx.
    apply list_elem_of_singleton in Hx as ->.
    replace (1 + - (1 + 1 / 10 ^ 9)) with (- (1 / 10 ^ 9)) by lra.
    rewrite Rabs_Ropp, Rabs_pos_eq.
    + apply Rmult_le_compat_l; [lra|].
      apply Rinv_le_contravar; [apply pow_lt; lra|].
      apply Rle_pow; [lra|lia].
    + apply Rlt_le, Rdiv_lt_0_compat; [lra|apply pow_lt; lra].
Qed.

(** ** Transforms of two samples *)

Section TwoPoints.

Lemma angle_0_l (n k : nat) : angle n 0 k = 0.
Proof. unfold angle. cbn [INR]. unfold Rdiv. lra. Qed.

Lemma angle_0_r (n j : nat) : angle n j 0 = 0.
Proof. unfold angle. cbn [INR]. unfold Rdiv. lra. Qed.

Lemma angle_2_1_1 : angle 2 1 1 = PI.
Proof. unfold angle. cbn [INR]. field. Qed.

Lemma cos_transform_2 (g : nat → R) :
  cos_transform g 2 0 = g 0%nat + g 1%nat ∧
  cos_transform g 2 1 = g 0%nat - g 1%nat.
Proof.
  unfold cos_transform. cbn [rsum].
  rewrite !angle_0_l, !angle_0_r, angle_2_1_1, cos_0, cos_PI. lra.
Qed.

Lemma chebpolyval_2 (c0 c1 : R) : chebpolyval [c0; c1] = Ok [c0 + c1; c0 - c1].
Proof.
  rewrite (chebpolyval_closed [c0; c1] 1) by (cbn; lia).
  cbn [seq fmap list_fmap]. change (2 * 1)%nat with 2%nat.
  destruct (cos_transform_2
              (ext (fun j => nth j [c0; c1] 0
                             / (if decide (j = 0 ∨ j = 1)%nat then 1 else 2)) 1))
    as [-> ->].
  unfold ext. rewrite !decide_True by lia. cbn [nth].
  do 2 f_equal; [lra|f_equal; lra].
Qed.

Lemma chebpolyfit_2 (v0 v1 : R) :
  chebpolyfit [v0; v1] = Ok [(v0 + v1) / 2; (v0 - v1) / 2].
Proof.
  rewrite (chebpolyfit_closed [v0; v1] 1) by (cbn; lia).
  cbn [seq fmap list_fmap]. change (2 * 1)%nat with 2%nat.
  destruct (cos_transform_2 (fun j => nth j (even_data [v0; v1]) 0)) as [-> ->].
  rewrite !decide_True by lia. cbn [even_data nth]. cbn.
  do 2 f_equal; [lra|f_equal; lra].
Qed.

Lemma interpolation_points_2 : interpolation_points 2 = [1; -1].
Proof.
  unfold interpolation_points. rewrite decide_False by lia.
  cbn [seq fmap list_fmap Nat.sub INR].
  replace (0 * PI / 1) with 0 by lra. replace (1 * PI / 1) with PI by lra.
  by rewrite cos_0, cos_PI.
Qed.

End TwoPoints.

(** ** The primitive *)

Section Primitive.

Lemma foldl_ext_in {B : Type} (F G : B → nat → B) (l : list nat) (b : B) :
  (∀ i acc, i ∈ l → F acc i = G acc i) → foldl F b l = foldl G b l.
Proof.
  revert b. induction l as [|i l IH]; intros b H; [done|]. cbn.
  rewrite H by apply list_elem_of_here. apply IH.
  intros j acc Hj. by apply H, list_elem_of_further.
Qed.

(** The value of a series depends on its constant term by a shift. *)
Lemma chebval_shift (x d : R) (c : list R) :
  (1 ≤ length c)%nat →
  Cheb.chebval x (alter (fun t => t + d) 0%nat c) = Cheb.chebval x c + d.
Proof.
  intros Hc. unfold Cheb.chebval. rewrite length_alter.
  set (n := length c).
  assert (H0 : nth 0 (alter (fun t => t + d) 0%nat c) 0 = nth 0 c 0 + d).
  { destruct c; [cbn in Hc; lia|done]. }
  assert (Hi : ∀ i, (1 ≤ i)%nat →
            nth i (alter (fun t => t + d) 0%nat c) 0 = nth i c 0).
  { intros [|i] Hi'; [lia|]. by destruct c. }
  destruct (decide (n = 1)%nat); [rewrite H0; lra|].
  destruct (decide (n = 2)%nat); [rewrite H0, Hi by lia; lra|].
  rewrite !Hi by lia.
  replace (n - 2)%nat with (S (n - 3)) by lia.
  rewrite seq_S, !foldl_app.
  replace (3 + (n - 3))%nat with n by lia.
  rewrite (foldl_ext_in
             (fun '(c0, c1) i =>
                (nth (n - i) (alter (fun t => t + d) 0%nat c) 0 - c1,
                 c0 + c1 * (2 * x)))
             (fun '(c0, c1) i => (nth (n - i) c 0 - c1, c0 + c1 * (2 * x)))
             (seq 3 (n - 3))).
  - destruct (foldl _ _ (seq 3 (n - 3))) as [c0 c1]. cbn [foldl].
    rewrite Nat.sub_diag, H0. lra.
  - intros i [c0 c1] Hin. apply elem_of_seq in Hin. rewrite Hi by lia. done.
Qed.

Lemma length_chebint_tmp (c : list R) (tmp : list R) (js : list nat) :
  length (foldl (fun tmp j =>
            let tmp := <[(j + 1)%nat := nth j c 0 / (2 * (INR j + 1))]> tmp in
            alter (fun t => t - nth j c 0 / (2 * (INR j - 1))) (j - 1)%nat tmp)
          tmp js) = length tmp.
Proof.
  revert tmp. induction js as [|j js IH]; intros tmp; [done|].
  cbn [foldl]. by rewrite IH, length_alter, length_insert.
Qed.

(** The series returned by [chebint] vanishes at [0], the default lower
    bound [lbnd] of NumPy. *)
Lemma chebint_zero_at_0 (c : list R) :
  (1 ≤ length c)%nat → Cheb.chebval 0 (Cheb.chebint c) = 0.
Proof.
  intros Hc. unfold Cheb.chebint.
  destruct (decide _) as [[Hn H0]|_].
  - unfold Cheb.chebval. rewrite Hn, decide_True by done. rewrite H0. lra.
  - rewrite chebval_shift; [lra|].
    rewrite length_chebint_tmp. destruct (decide _);
      rewrite !length_insert, length_replicate; lia.
Qed.

End Primitive.

Lemma threshold_1_bounds : 0 < _threshold 1 <= 1.
Proof.
  unfold _threshold, emach.
  assert (0 < / 2 ^ 52) by (apply Rinv_0_lt_compat, pow_lt; lra).
  assert (/ 2 ^ 52 <= / 2 ^ 7).
  { apply Rinv_le_contravar; [apply pow_lt; lra|]. apply Rle_pow; [lra|lia]. }
  assert (/ 2 ^ 7 * 128 = 1) by (simpl; field).
  lra.
Qed.

Lemma chebint_one : Cheb.chebint [1] = [0; 1].
Proof.
  unfold Cheb.chebint. rewrite decide_False by (cbn; lra).
  cbn [length Nat.add replicate nth insert list_insert].
  rewrite decide_False by lia. cbn [Nat.sub seq foldl].
  unfold Cheb.chebval. cbn [length alter list_alter].
  rewrite decide_False, decide_True by lia. cbn [nth].
  f_equal. lra.
Qed.

Lemma cutoff_0_1 : _cutoff [0; 1] 1 = 2%nat.
Proof.
  pose proof threshold_1_bounds.
  unfold _cutoff, Np.nonzero. cbn [fmap list_fmap Np.nonzero_from].
  rewrite bool_decide_eq_false_2 by (rewrite Rabs_R0; lra).
  rewrite bool_decide_eq_true_2 by (rewrite Rabs_R1; lra).
  reflexivity.
Qed.

(** C6 at the constant [1]: the primitive returned by [integrate] is the
    identity [x], with the values [1] and [-1] at the points [1] and [-1].
    It takes the value [-1] at the left endpoint [-1], and vanishes at [0]. *)
Theorem integrate_one_left_endpoint :
  from_data [1] = Ok one ∧
  ∃ F, integrate one = Ok F ∧ values F = [1; -1] ∧ xi (p F) = [1; -1] ∧
       __call__ F (-1) = -1 ∧ __call__ F 0 = 0.
Proof.
  split; [apply from_data_one|].
  unfold integrate, chebyshev_coefficients, chebpolyfit. cbn [values one _values].
  rewrite decide_True by done. cbn [bind]. rewrite chebint_one.
  unfold from_chebcoeff. rewrite cutoff_0_1. cbn [take].
  rewrite chebpolyval_2. cbn [bind]. unfold __init__. cbn [bind length].
  rewrite interpolation_points_2.
  unfold interpolator, Np.set_at, Np.alter_last.
  cbn [length replicate]. rewrite decide_True by lia.
  cbn [bind insert list_insert set_odd imap Nat.odd Nat.even negb compose length].
  rewrite decide_True by lia. cbn [bind Nat.sub alter list_alter].
  eexists. split; [reflexivity|]. cbn [values _values p xi].
  split; [f_equal; [lra|f_equal; lra]|]. split; [done|].
  unfold __call__, bary_eval. cbn [p xi yi wi find_node].
  split.
  - rewrite decide_False by lra. rewrite decide_True by done. cbn [nth]. lra.
  - rewrite !decide_False by lra. cbn. field.
Qed.

(** ** Roots *)

Section Roots.

Lemma elem_of_insert_unique (x y : R) (a : list R) :
  y ∈ insert_unique x a ↔ y = x ∨ y ∈ a.
Proof.
  induction a as [|z a IH]; cbn.
  - rewrite list_elem_of_singleton, elem_of_nil. tauto.
  - destruct (decide (x < z)); [by rewrite elem_of_cons|].
    destruct (decide (x = z)) as [->|Hne].
    + rewrite elem_of_cons. tauto.
    + rewrite !elem_of_cons, IH. tauto.
Qed.

Lemma elem_of_unique (y : R) (a : list R) : y ∈ unique a ↔ y ∈ a.
Proof.
  unfold unique. induction a as [|x a IH]; cbn; [done|].
  by rewrite elem_of_insert_unique, elem_of_cons, IH.
Qed.

Lemma insert_unique_sorted (x : R) (a : list R) :
  StronglySorted Rlt a → StronglySorted Rlt (insert_unique x a).
Proof.
  induction 1 as [|z a Hs IH Hall]; cbn.
  - repeat constructor.
  - destruct (decide (x < z)) as [Hlt|Hge].
    + constructor; [by constructor|]. constructor; [done|].
      eapply Forall_impl; [exact Hall|]. cbn. intros; lra.
    + destruct (decide (x = z)) as [->|Hne]; [by constructor|].
      constructor; [done|]. apply Forall_forall. intros y Hy.
      apply elem_of_insert_unique in Hy as [->|Hy]; [lra|].
      rewrite Forall_forall in Hall. by apply Hall.
Qed.

Lemma unique_sorted (a : list R) : StronglySorted Rlt (unique a).
Proof.
  unfold unique. induction a as [|x a IH]; cbn; [constructor|].
  by apply insert_unique_sorted.
Qed.

Lemma isclose_one (x : R) :
  Np.isclose x 1 = true ↔ Rabs (x - 1) <= 1 / 10 ^ 8 + 1 / 10 ^ 5.
Proof.
  unfold Np.isclose, Np.atol, Np.rtol.
  rewrite bool_decide_eq_true, Rabs_R1, Rmult_1_r. done.
Qed.

Lemma elem_of_real_roots (x : R) (rs : list complex) :
  x ∈ real_roots rs ↔
  ∃ r, r ∈ rs ∧ Rabs (cabs r - 1) <= 1 / 10 ^ 8 + 1 / 10 ^ 5 ∧ x = real r.
Proof.
  unfold real_roots. rewrite list_elem_of_fmap. split.
  - intros (r & -> & Hr). apply list_elem_of_In, filter_In in Hr as [Hin Hc].
    exists r. split; [by apply list_elem_of_In|]. split; [by apply isclose_one|done].
  - intros (r & Hin & Hc & ->). exists r. split; [done|].
    apply list_elem_of_In, filter_In. split; [by apply list_elem_of_In|].
    by apply isclose_one.
Qed.

Lemma companion_closed (ai : list R) :
  (1 ≤ length ai)%nat →
  ∃ coeffs, companion ai = Ok coeffs ∧
            length coeffs = (2 * length ai - 1)%nat ∧
            ∀ i, (i < length ai)%nat →
                 nth (length ai - 1 - i) coeffs 0 =
                   (if decide (i = 0)%nat then nth 0 ai 0 * 2 else nth i ai 0) ∧
                 nth (length ai - 1 + i) coeffs 0 =
                   (if decide (i = 0)%nat then nth 0 ai 0 * 2 else nth i ai 0).
Proof.
  intros Hlen. unfold companion, Np.alter_at.
  assert (Hl : length (reverse ai ++ drop 1 ai) = (2 * length ai - 1)%nat).
  { rewrite length_app, length_reverse, length_drop. lia. }
  rewrite Hl, decide_True by lia. eexists. split; [reflexivity|].
  rewrite length_alter. split; [done|].
  assert (Hrev : ∀ i, (i < length ai)%nat →
            (reverse ai ++ drop 1 ai) !! (length ai - 1 - i)%nat = ai !! i).
  { intros i Hi. rewrite lookup_app_l by (rewrite length_reverse; lia).
    rewrite reverse_lookup by lia. f_equal. lia. }
  assert (Hfwd : ∀ i, (1 ≤ i < length ai)%nat →
            (reverse ai ++ drop 1 ai) !! (length ai - 1 + i)%nat = ai !! i).
  { intros i Hi. rewrite lookup_app_r by (rewrite length_reverse; lia).
    rewrite length_reverse, lookup_drop. f_equal. lia. }
  intros i Hi. rewrite !nth_lookup.
  destruct (decide (i = 0)%nat) as [->|Hne].
  - rewrite Nat.sub_0_r, Nat.add_0_r, list_lookup_alter_eq.
    specialize (Hrev 0%nat Hi). rewrite Nat.sub_0_r in Hrev. rewrite Hrev.
    destruct (ai !! 0%nat); cbn; split; lra.
  - rewrite !list_lookup_alter_ne by lia. rewrite Hrev, Hfwd by lia. done.
Qed.

End Roots.

(** C8 (as amended).  [roots()] hands the coefficients
    [a_N, ..., a_1, 2 a_0, a_1, ..., a_N] to the solver, keeps the roots
    whose modulus is within [1e-08 + 1e-05] of [1] (the default tolerances of
    [np.allclose]), maps each of them to its real part, and returns these
    values sorted without repetition; the result is empty, not an error,
    when no root is kept. *)
Theorem roots_spec (polyroots : list R → list complex) (self : t) :
  wf self →
  ∃ ai coeffs rs,
    chebyshev_coefficients self = Ok ai ∧ length ai = size self ∧
    companion ai = Ok coeffs ∧
    length coeffs = (2 * length ai - 1)%nat ∧
    (∀ i, (i < length ai)%nat →
          nth (length ai - 1 - i) coeffs 0 =
            (if decide (i = 0)%nat then nth 0 ai 0 * 2 else nth i ai 0) ∧
          nth (length ai - 1 + i) coeffs 0 =
            (if decide (i = 0)%nat then nth 0 ai 0 * 2 else nth i ai 0)) ∧
    roots polyroots self = Ok rs ∧
    StronglySorted Rlt rs ∧
    (∀ x, x ∈ rs ↔
          ∃ r, r ∈ polyroots coeffs ∧
               Rabs (cabs r - 1) <= 1 / 10 ^ 8 + 1 / 10 ^ 5 ∧ x = real r) ∧
    ((∀ r, r ∈ polyroots coeffs →
           ¬ Rabs (cabs r - 1) <= 1 / 10 ^ 8 + 1 / 10 ^ 5) → rs = []).
Proof.
  intros Hwf.
  destruct (wf_coefficients self Hwf) as (ai & Hai & Hlen & _).
  assert (Hpos : (1 ≤ length ai)%nat).
  { rewrite Hlen, (wf_size self Hwf). by destruct Hwf. }
  destruct (companion_closed ai Hpos) as (coeffs & Hco & Hl & Hidx).
  exists ai, coeffs, (unique (real_roots (polyroots coeffs))).
  repeat (split; [done|]).
  split; [unfold roots; by rewrite Hai; cbn [bind]; rewrite Hco|].
  split; [apply unique_sorted|].
  assert (Hmem : ∀ x, x ∈ unique (real_roots (polyroots coeffs)) ↔
            ∃ r, r ∈ polyroots coeffs ∧
                 Rabs (cabs r - 1) <= 1 / 10 ^ 8 + 1 / 10 ^ 5 ∧ x = real r).
  { intros x. by rewrite elem_of_unique, elem_of_real_roots. }
  split; [done|]. intros Hnone.
  destruct (unique _) as [|x rs] eqn:E; [done|]. exfalso.
  destruct (proj1 (Hmem x)) as (r & Hr & Hc & _); [apply list_elem_of_here|].
  by apply (Hnone r).
Qed.

Lemma roots_spec_witness :
  wf one ∧
  ∃ rs, roots (fun _ => []) one = Ok rs ∧ StronglySorted Rlt rs.
Proof.
  assert (H : wf one) by (by apply (wf_single one 1)).
  split; [exact H|].
  destruct (roots_spec (fun _ => []) one H)
    as (_ & _ & rs & _ & _ & _ & _ & _ & Hr & Hs & _).
  exists rs. split; [exact Hr|exact Hs].
Defined.

Section NearOne.

Lemma near_one_bounds :
  1 < near_one ∧ near_one - 1 = 1 / 10 ^ 6 ∧ 0 < / near_one < 1 ∧
  1 - / near_one < 1 / 10 ^ 6 ∧ 10 * (1 / 10 ^ 8) < 1 / 10 ^ 6 ∧
  1 / 10 ^ 6 <= 1 / 10 ^ 8 + 1 / 10 ^ 5.
Proof.
  unfold near_one. cbn [pow].
  assert (H1 : 1 < 1 + 1 / (10 * (10 * (10 * (10 * (10 * (10 * 1))))))) by lra.
  set (r := 1 + 1 / (10 * (10 * (10 * (10 * (10 * (10 * 1))))))) in *.
  assert (Hi : 0 < / r) by (apply Rinv_0_lt_compat; lra).
  assert (Hr : r * / r = 1) by (apply Rinv_r; lra).
  assert (Hlt : / r < 1) by nra.
  repeat split; try lra.
  - unfold r. lra.
  - assert (1 - / r = (r - 1) * / r) by nra.
    assert (r - 1 = 1 / (10 * (10 * (10 * (10 * (10 * (10 * 1))))))) by (unfold r; lra).
    nra.
Qed.

Lemma cabs_real (x : R) : 0 <= x → cabs (x, 0) = x.
Proof.
  intros Hx. unfold cabs. cbn [fst snd].
  replace (x * x + 0 * 0) with (x * x) by lra. by apply sqrt_square.
Qed.

End NearOne.

(** C8 fails as stated: the line [line_a0 + x] has the companion
    coefficients [1; 2 line_a0; 1], whose roots are [near_one] and its
    inverse.  Their moduli are off [1] by more than ten times [1e-08], and
    [roots()] keeps both. *)
Lemma roots_keeps_root_off_circle :
  let polyroots := fun _ : list R => [(near_one, 0); (/ near_one, 0)] in
  ∃ self ai coeffs,
    from_data [line_a0 + 1; line_a0 - 1] = Ok self ∧
    chebyshev_coefficients self = Ok ai ∧ companion ai = Ok coeffs ∧
    (∃ c1 c0 c1', coeffs = [c1; c0; c1'] ∧
       c1 + c0 * near_one + c1' * near_one ^ 2 = 0 ∧
       c1 + c0 * / near_one + c1' * (/ near_one) ^ 2 = 0) ∧
    roots polyroots self = Ok [/ near_one; near_one] ∧
    Rabs (cabs (near_one, 0) - 1) > 10 * (1 / 10 ^ 8).
Proof.
  intros polyroots.
  destruct near_one_bounds as (H1 & Hd & [Hi0 Hi1] & Hid & Hten & Htol).
  assert (Hr : near_one * / near_one = 1) by (apply Rinv_r; lra).
  destruct (init_wf [line_a0 + 1; line_a0 - 1] None)
    as (self & Hself & Hwf & Hval & _); [cbn; lia|].
  assert (Hai : chebyshev_coefficients self =
                Ok [(line_a0 + 1 + (line_a0 - 1)) / 2;
                    (line_a0 + 1 - (line_a0 - 1)) / 2]).
  { unfold chebyshev_coefficients, values. rewrite Hval. apply chebpolyfit_2. }
  assert (Hco : companion [(line_a0 + 1 + (line_a0 - 1)) / 2;
                           (line_a0 + 1 - (line_a0 - 1)) / 2] =
                Ok [(line_a0 + 1 - (line_a0 - 1)) / 2;
                    (line_a0 + 1 + (line_a0 - 1)) / 2 * 2;
                    (line_a0 + 1 - (line_a0 - 1)) / 2]).
  { unfold companion, Np.alter_at. cbn. by rewrite decide_True by lia. }
  eexists self, _, _. split; [exact Hself|]. split; [exact Hai|].
  split; [exact Hco|]. split; [|split].
  - eexists _, _, _. split; [reflexivity|]. unfold line_a0. split; nra.
  - unfold roots. rewrite Hai. cbn [bind]. rewrite Hco. cbn [bind].
    unfold polyroots, real_roots. cbn [List.filter].
    rewrite !cabs_real by lra.
    rewrite (proj2 (isclose_one near_one)) by (rewrite Rabs_pos_eq; lra).
    rewrite (proj2 (isclose_one (/ near_one)))
      by (rewrite Rabs_left1; lra).
    cbn [fmap list_fmap real fst unique foldr insert_unique].
    rewrite decide_False by lra. rewrite decide_False by lra. done.
  - rewrite cabs_real by lra. rewrite Rabs_pos_eq by lra. lra.
Qed.

(** ** The round trip *)

(** C4.  In exact arithmetic the inverse transform of the coefficients of a
    sample vector is the vector itself; a single sample is returned
    unchanged by both transforms. *)
Theorem chebpolyval_chebpolyfit (v : list R) :
  (1 ≤ length v)%nat →
  ∃ c, chebpolyfit v = Ok c ∧ length c = length v ∧ chebpolyval c = Ok v ∧
       (length v = 1%nat → c = v ∧ chebpolyfit v = Ok v ∧ chebpolyval v = Ok v).
Proof.
  intros Hv. destruct (chebpolyfit_Ok v Hv) as (c & Hc & Hlen & Hval).
  exists c. repeat (split; [done|]). intros H1.
  unfold chebpolyfit, chebpolyval in *. rewrite decide_True in * by done.
  injection Hc as <-. done.
Qed.

Lemma chebpolyval_chebpolyfit_witness :
  (1 ≤ length [3; 1; -2]%R)%nat ∧
  ∃ c, chebpolyfit [3; 1; -2] = Ok c ∧ chebpolyval c = Ok [3; 1; -2].
Proof.
  split; [cbn; lia|].
  destruct (chebpolyval_chebpolyfit [3; 1; -2]) as (c & Hc & _ & Hv & _);
    [cbn; lia|].
  exists c. split; [exact Hc|exact Hv].
Defined.

(** * Further properties *)

(** ** The transforms *)

(** X1.  Coefficients to values and back: the forward transform of the
    values of a non-empty coefficient series is the series itself. *)
Theorem chebpolyfit_chebpolyval (c : list R) :
  (1 ≤ length c)%nat →
  ∃ v, chebpolyval c = Ok v ∧ length v = length c ∧ chebpolyfit v = Ok c.
Proof. apply chebpolyval_Ok. Qed.

Lemma chebpolyfit_chebpolyval_witness :
  (1 ≤ length [2; 0; -1; 5]%R)%nat ∧
  ∃ v, chebpolyval [2; 0; -1; 5] = Ok v ∧ chebpolyfit v = Ok [2; 0; -1; 5].
Proof.
  split; [cbn; lia|].
  destruct (chebpolyfit_chebpolyval [2; 0; -1; 5]) as (v & Hv & _ & Hc);
    [cbn; lia|].
  exists v. split; [exact Hv|exact Hc].
Defined.

(** X2.  What the empty array does: the forward transform fails in the
    FFT, the inverse transform and the construction from coefficients fail
    on the first index, the constructor fails in [np.max] or, when a scale
    is given, in the weights, and the differentiation helper fails on
    [SA[1]]. *)
Theorem empty_array_errors (prune : bool) (scale : R) :
  chebpolyfit [] = Raise ValueError ∧
  chebpolyval [] = Raise IndexError ∧
  __init__ [] None = Raise ValueError ∧
  __init__ [] (Some scale) = Raise IndexError ∧
  from_data [] = Raise ValueError ∧
  from_chebcoeff [] prune scale = Raise IndexError ∧
  differentiator [] = Raise IndexError.
Proof.
  repeat split; try reflexivity.
  unfold from_chebcoeff. by destruct prune.
Qed.

(** ** The Chebyshev points *)

Section Points.

Lemma nth_interpolation_points (N k : nat) :
  (2 ≤ N)%nat → (k < N)%nat →
  nth k (interpolation_points N) 0 = cos (INR k * PI / INR (N - 1)).
Proof.
  intros HN Hk. unfold interpolation_points. rewrite decide_False by lia.
  by rewrite nth_fmap_seq.
Qed.

Lemma point_angle_bounds (N k : nat) :
  (2 ≤ N)%nat → (k < N)%nat → 0 <= INR k * PI / INR (N - 1) <= PI.
Proof.
  intros HN Hk. pose proof PI_RGT_0.
  assert (0 < INR (N - 1)) by (apply lt_0_INR; lia).
  assert (0 <= INR k) by apply pos_INR.
  assert (INR k <= INR (N - 1)) by (apply le_INR; lia).
  split.
  - apply Rmult_le_pos; [nra|]. apply Rlt_le. by apply Rinv_0_lt_compat.
  - apply (Rmult_le_reg_r (INR (N - 1))); [done|].
    unfold Rdiv. rewrite Rmult_assoc, Rinv_l by lra. nra.
Qed.

Lemma points_decreasing (N j k : nat) :
  (2 ≤ N)%nat → (j < k)%nat → (k < N)%nat →
  nth k (interpolation_points N) 0 < nth j (interpolation_points N) 0.
Proof.
  intros HN Hjk Hk. rewrite !nth_interpolation_points by lia.
  destruct (point_angle_bounds N j) as [? ?]; [lia..|].
  destruct (point_angle_bounds N k) as [? ?]; [lia..|].
  apply cos_decreasing_1; try done.
  assert (0 < / INR (N - 1)) by (apply Rinv_0_lt_compat, lt_0_INR; lia).
  apply lt_INR in Hjk. pose proof PI_RGT_0. unfold Rdiv.
  apply Rmult_lt_compat_r; [done|]. nra.
Qed.

End Points.

(** X3.  In exact arithmetic (the cosine without rounding): for [N >= 2]
    there are [N] Chebyshev points; they start at [1], end at [-1], decrease
    strictly, lie in [[-1, 1]] and are symmetric about [0].  For [N = 1] the
    only point is [0].  In floating point the symmetry holds up to rounding
    only. *)
Theorem interpolation_points_spec (N : nat) :
  (2 ≤ N)%nat →
  let x := fun k => nth k (interpolation_points N) 0 in
  length (interpolation_points N) = N ∧
  x 0%nat = 1 ∧ x (N - 1)%nat = -1 ∧
  (∀ j k, (j < k)%nat → (k < N)%nat → x k < x j) ∧
  (∀ k, (k < N)%nat → -1 <= x k <= 1) ∧
  (∀ k, (k < N)%nat → x (N - 1 - k)%nat = - x k) ∧
  interpolation_points 1 = [0].
Proof.
  intros HN x. unfold x.
  assert (HN' : INR (N - 1) ≠ 0) by (apply not_0_INR; lia).
  split; [apply length_interpolation_points|].
  split; [|split; [|split; [|split; [|split; [|done]]]]].
  - rewrite nth_interpolation_points by lia. cbn [INR].
    replace (0 * PI / INR (N - 1)) with 0 by (field; done). apply cos_0.
  - rewrite nth_interpolation_points by lia.
    replace (INR (N - 1) * PI / INR (N - 1)) with PI by (field; done).
    apply cos_PI.
  - intros j k Hjk Hk. by apply points_decreasing.
  - intros k Hk. rewrite nth_interpolation_points by lia.
    pose proof (COS_bound (INR k * PI / INR (N - 1))). lra.
  - intros k Hk. rewrite !nth_interpolation_points by lia.
    replace (INR (N - 1 - k) * PI / INR (N - 1))
      with (- (INR k * PI / INR (N - 1)) + PI).
    + by rewrite neg_cos, cos_neg.
    + rewrite (minus_INR (N - 1) k) by lia. field. done.
Qed.

Lemma interpolation_points_spec_witness :
  (2 ≤ 5)%nat ∧
  nth 0 (interpolation_points 5) 0 = 1 ∧ nth (5 - 1) (interpolation_points 5) 0 = -1.
Proof.
  split; [lia|].
  pose proof (interpolation_points_spec 5 ltac:(lia)) as H. cbn zeta in H.
  destruct H as (_ & H0 & H1 & _). split; [exact H0|exact H1].
Defined.

(** ** The interpolator *)

Section Interpolator.

Lemma length_set_odd (x : R) (a : list R) : length (set_odd x a) = length a.
Proof. unfold set_odd. by rewrite length_imap. Qed.

Lemma nth_set_odd (x : R) (a : list R) (i : nat) :
  (i < length a)%nat →
  nth i (set_odd x a) 0 = if Nat.odd i then x else nth i a 0.
Proof.
  intros Hi. unfold set_odd. rewrite !nth_lookup, list_lookup_imap.
  destruct (lookup_lt_is_Some_2 a i Hi) as [y ->]. cbn. by destruct (Nat.odd i).
Qed.

Lemma pow_m1_odd (i : nat) : (-1) ^ i = if Nat.odd i then -1 else 1.
Proof.
  induction i as [|i IH]; [cbn; lra|].
  rewrite Nat.odd_succ, <- Nat.negb_odd. cbn [pow]. rewrite IH.
  destruct (Nat.odd i); cbn; lra.
Qed.

End Interpolator.

(** X4.  [interpolator] refuses values that are not as many as the
    points.  Otherwise, for [N >= 2] values it stores the weights
    [w_i = (-1)^i], halved at both ends, and for a single value the weight
    [1/4]; the points and the values are stored as given. *)
Theorem interpolator_weights (x values : list R) :
  (1 ≤ length values)%nat →
  (length values ≠ length x → interpolator x values = Raise ValueError) ∧
  (length values = length x →
   ∃ p, interpolator x values = Ok p ∧ xi p = x ∧ yi p = values ∧
        length (wi p) = length values ∧
        (length values = 1%nat → wi p = [1 / 2 * (1 / 2)]) ∧
        ((2 ≤ length values)%nat →
         ∀ i, (i < length values)%nat →
              nth i (wi p) 0 =
              (-1) ^ i * (if decide (i = 0 ∨ i = length values - 1)%nat
                          then 1 / 2 else 1))).
Proof.
  intros Hv. unfold interpolator, Np.set_at, Np.alter_last.
  rewrite length_replicate, decide_True by lia. cbn [bind].
  rewrite length_set_odd, length_insert, length_replicate.
  rewrite decide_True by lia. cbn [bind].
  split; intros Hx; [by rewrite decide_False|]. rewrite decide_True by done.
  eexists. split; [reflexivity|]. cbn [xi yi wi].
  split; [done|]. split; [done|].
  split; [by rewrite length_alter, length_set_odd, length_insert,
            length_replicate|].
  set (N := length values) in *. split.
  - intros ->. reflexivity.
  - intros HN i Hi.
    assert (Hl : (i < length (<[0%nat:=1 / 2]> (replicate N 1))%R)%nat)
      by (rewrite length_insert, length_replicate; lia).
    assert (Hn : nth i (set_odd (-1) (<[0%nat:=1 / 2]> (replicate N 1))) 0 =
                 (-1) ^ i * (if decide (i = 0)%nat then 1 / 2 else 1)).
    { rewrite (nth_set_odd _ _ _ Hl). rewrite pow_m1_odd.
      rewrite nth_lookup. destruct (decide (i = 0)%nat) as [->|Hne].
      - rewrite list_lookup_insert_eq by (rewrite length_replicate; lia).
        cbn. lra.
      - rewrite list_lookup_insert_ne, lookup_replicate_2 by lia. cbn.
        destruct (Nat.odd i); lra. }
    rewrite nth_lookup. rewrite nth_lookup in Hn.
    destruct (decide (i = N - 1)%nat) as [->|Hne].
    + rewrite list_lookup_alter_eq.
      destruct (_ !! (N - 1)%nat) as [w|] eqn:E.
      * cbn in *. rewrite Hn. rewrite decide_False by lia.
        rewrite decide_True by lia. lra.
      * apply lookup_ge_None in E. rewrite length_set_odd in E. lia.
    + rewrite list_lookup_alter_ne by lia. rewrite Hn.
      destruct (decide (i = 0)%nat) as [->|H0].
      * rewrite decide_True by lia. done.
      * rewrite decide_False by lia. done.
Qed.

Lemma interpolator_weights_witness :
  (1 ≤ length [3; 4; 5]%R)%nat ∧
  interpolator [1; -1] [3; 4; 5] = Raise ValueError ∧
  ∃ p, interpolator [1; 0; -1] [3; 4; 5] = Ok p ∧ yi p = [3; 4; 5].
Proof.
  split; [cbn; lia|]. split.
  - apply (interpolator_weights [1; -1] [3; 4; 5]); cbn; lia.
  - destruct (interpolator_weights [1; 0; -1] [3; 4; 5]) as (_ & H); [cbn; lia|].
    destruct H as (p & Hp & _ & Hy & _); [reflexivity|].
    exists p. split; [exact Hp|exact Hy].
Defined.

(** ** Evaluation *)

Section Evaluation.

Lemma find_node_nth (a : list R) (k i0 : nat) :
  (k < length a)%nat →
  (∀ j, (j < k)%nat → nth j a 0 ≠ nth k a 0) →
  find_node (nth k a 0) i0 a = Some (i0 + k)%nat.
Proof.
  revert k i0. induction a as [|y a IH]; intros k i0 Hk Hne; [cbn in Hk; lia|].
  destruct k as [|k].
  - cbn. rewrite decide_True by done. f_equal. lia.
  - cbn [find_node nth]. rewrite decide_False.
    + rewrite IH.
      * f_equal. lia.
      * cbn in Hk. lia.
      * intros j Hj. apply (Hne (S j)). lia.
    + intros Heq. apply (Hne 0%nat); [lia|]. cbn. done.
Qed.

Lemma points_distinct (N j k : nat) :
  (j < k)%nat → (k < N)%nat →
  nth j (interpolation_points N) 0 ≠ nth k (interpolation_points N) 0.
Proof.
  intros Hjk Hk.
  pose proof (points_decreasing N j k ltac:(lia) Hjk Hk). lra.
Qed.

End Evaluation.

(** X5.  An interpolant takes its [k]-th value at its [k]-th interpolation
    point. *)
Theorem call_at_point (c : t) (k : nat) :
  wf c → (k < size c)%nat →
  __call__ c (nth k (interpolation_points (size c)) 0) = nth k (values c) 0.
Proof.
  intros Hwf Hk. pose proof (wf_size c Hwf) as Hs.
  destruct Hwf as (Hlen & Hyi & Hxi). unfold values in *.
  unfold __call__, bary_eval. rewrite Hxi, Hyi, <- Hs.
  rewrite find_node_nth.
  - done.
  - by rewrite length_interpolation_points.
  - intros j Hj. apply points_distinct; lia.
Qed.

Lemma call_at_point_witness :
  wf one ∧ (0 < size one)%nat ∧
  __call__ one (nth 0 (interpolation_points (size one)) 0) = nth 0 (values one) 0.
Proof.
  assert (H : wf one) by (by apply (wf_single one 1)).
  split; [exact H|]. split; [cbn; lia|].
  apply (call_at_point one 0 H). cbn. lia.
Defined.

(** X6.  [identity()] has the two values [[1; -1]] and the coefficients
    [[0; 1]]; in exact arithmetic its barycentric quotient takes the value
    [x] at every [x] (in floating point up to rounding). *)
Theorem identity_spec :
  ∃ c, identity = Ok c ∧ wf c ∧ values c = [1; -1] ∧
       chebyshev_coefficients c = Ok [0; 1] ∧
       ∀ x, __call__ c x = x.
Proof.
  unfold identity, from_data, __init__.
  destruct (max_Ok (Np.abs [1; -1])) as [m ->]; [cbn; lia|]. cbn [bind length].
  rewrite interpolation_points_2.
  unfold interpolator, Np.set_at, Np.alter_last.
  cbn [length replicate]. rewrite decide_True by lia.
  cbn [bind insert list_insert set_odd imap Nat.odd Nat.even negb compose length].
  rewrite decide_True by lia. cbn [bind Nat.sub alter list_alter].
  eexists. split; [reflexivity|]. split; [|split; [done|split]].
  - unfold wf. cbn. rewrite interpolation_points_2. split; [lia|done].
  - unfold chebyshev_coefficients. cbn [values _values].
    rewrite chebpolyfit_2. do 2 f_equal; [lra|f_equal; lra].
  - intros x. unfold __call__, bary_eval. cbn [p xi yi wi find_node].
    destruct (decide (x = 1)) as [->|H1]; [done|].
    destruct (decide (x = -1)) as [->|H2]; [done|].
    cbn. field. split; lra.
Qed.

(** ** The basis functions and the definite integral *)

Section Basis.

Lemma cos_k_PI (k : nat) : cos (INR k * PI) = (-1) ^ k.
Proof.
  induction k as [|k IH]; [cbn; rewrite Rmult_0_l; apply cos_0|].
  rewrite S_INR. replace ((INR k + 1) * PI) with (INR k * PI + PI) by lra.
  rewrite neg_cos, IH. cbn [pow]. lra.
Qed.

Lemma nth_unit_series (n j : nat) :
  nth j (unit_series n) 0 = if decide (j = n) then 1 else 0.
Proof.
  unfold unit_series. rewrite nth_lookup.
  destruct (decide (j = n)) as [->|Hne].
  - rewrite lookup_app_r by (rewrite length_replicate; lia).
    by rewrite length_replicate, Nat.sub_diag.
  - destruct (decide (j < n)%nat).
    + rewrite lookup_app_l by (rewrite length_replicate; lia).
      by rewrite lookup_replicate_2.
    + rewrite lookup_ge_None_2; [done|].
      rewrite length_app, length_replicate. cbn. lia.
Qed.

Lemma length_unit_series (n : nat) : length (unit_series n) = S n.
Proof. unfold unit_series. rewrite length_app, length_replicate. cbn. lia. Qed.

Lemma length_basis_values (n : nat) :
  length (set_odd (-1) (replicate (n + 1) 1)) = S n.
Proof. rewrite length_set_odd, length_replicate. lia. Qed.

Lemma nth_basis_values (n k : nat) :
  (k ≤ n)%nat → nth k (set_odd (-1) (replicate (n + 1) 1)) 0 = (-1) ^ k.
Proof.
  intros Hk. rewrite nth_set_odd by (rewrite length_replicate; lia).
  rewrite pow_m1_odd, nth_lookup, lookup_replicate_2 by lia. done.
Qed.

(** The values of the series with the single coefficient [1] at [n]. *)
Lemma chebpolyval_unit_series (n : nat) :
  (0 < n)%nat →
  chebpolyval (unit_series n) = Ok (set_odd (-1) (replicate (n + 1) 1)).
Proof.
  intros Hn.
  rewrite (chebpolyval_closed (unit_series n) n)
    by (try done; apply length_unit_series).
  f_equal. rewrite <- (length_basis_values n). apply fmap_seq_nth.
  rewrite length_basis_values. intros k Hk.
  rewrite nth_basis_values by lia. unfold cos_transform.
  rewrite (rsum_single _ (2 * n) n).
  - unfold ext. rewrite decide_True by lia.
    rewrite nth_unit_series, !decide_True by lia.
    replace (angle (2 * n) n k) with (INR k * PI).
    + rewrite cos_k_PI. lra.
    + unfold angle. rewrite mult_INR. change (INR 2) with 2. field.
      apply not_0_INR. lia.
  - lia.
  - intros j Hj Hne. unfold ext.
    destruct (decide (j ≤ n)%nat);
      rewrite nth_unit_series, decide_False by lia; lra.
Qed.

Lemma rsum_S_first (f : nat → R) (n : nat) :
  rsum f (S n) = f 0%nat + rsum (fun k => f (S k)) n.
Proof.
  induction n as [|n IH]; [cbn; lra|].
  cbn [rsum] in *. rewrite IH. lra.
Qed.

Lemma foldr_zip_seq (F : nat → R) (l : list R) (i : nat) :
  foldr Rplus 0 (zip_with Rmult (F <$> seq i (length l)) l) =
  rsum (fun k => F (i + k)%nat * nth k l 0) (length l).
Proof.
  revert i. induction l as [|a l IH]; intros i; [done|].
  cbn [length seq fmap list_fmap zip_with foldr].
  rewrite rsum_S_first, IH, Nat.add_0_r. cbn [nth]. f_equal.
  apply rsum_ext. intros k _. by replace (S i + k)%nat with (i + S k)%nat by lia.
Qed.

Lemma every_other_spec (n : nat) (a : list R) :
  (length a ≤ n)%nat →
  length (every_other a) = ((length a + 1) / 2)%nat ∧
  ∀ k, nth k (every_other a) 0 = nth (2 * k) a 0.
Proof.
  revert a. induction n as [n IH] using lt_wf_ind. intros a Hlen.
  destruct a as [|x [|y a]].
  - split; [done|]. intros k. by destruct k.
  - split; [done|]. intros [|k]; [done|].
    by rewrite !nth_overflow by (cbn; lia).
  - destruct (IH (length a)) with (a := a) as [Hl Hn]; [cbn in Hlen; lia|done|].
    cbn [every_other length]. split.
    + rewrite Hl. replace (S (S (length a)) + 1)%nat with (length a + 1 + 1 * 2)%nat by lia.
      rewrite Nat.div_add by lia. lia.
    + intros [|k]; [done|]. cbn [nth]. rewrite Hn.
      by replace (2 * S k)%nat with (S (S (2 * k))) by lia.
Qed.

(** [sum()] by index: the coefficients of even index weighted by
    [2 / (1 - k^2)]. *)
Lemma sum_closed (c : t) (a : list R) :
  chebyshev_coefficients c = Ok a →
  sum c = Ok (rsum (fun k => 2 / (1 - (2 * INR k) ^ 2) * nth (2 * k) a 0)
                   ((length a + 1) / 2)).
Proof.
  intros Ha. unfold sum. rewrite Ha. cbn [bind]. f_equal.
  destruct (every_other_spec (length a) a) as [Hl Hn]; [done|].
  rewrite foldr_zip_seq, Hl. apply rsum_ext. intros k _.
  by rewrite Hn.
Qed.

Lemma basis_closed (n : nat) :
  ∃ c, basis n = Ok c ∧ wf c ∧ size c = S n ∧
       (∀ k, (k ≤ n)%nat → nth k (values c) 0 = (-1) ^ k) ∧
       chebyshev_coefficients c = Ok (unit_series n).
Proof.
  unfold basis. destruct (decide (n = 0)%nat) as [->|Hn].
  - destruct (init_wf [1] None) as (c & Hc & Hwf & Hval & _); [cbn; lia|].
    exists c. split; [done|]. split; [done|].
    split; [by rewrite (wf_size c Hwf); unfold values; rewrite Hval|].
    unfold chebyshev_coefficients, values. rewrite Hval. split; [|done].
    intros k Hk. replace k with 0%nat by lia. cbn. done.
  - destruct (init_wf (set_odd (-1) (replicate (n + 1) 1)) None)
      as (c & Hc & Hwf & Hval & _); [rewrite length_basis_values; lia|].
    exists c. split; [done|]. split; [done|].
    split; [by rewrite (wf_size c Hwf); unfold values;
            rewrite Hval, length_basis_values|].
    unfold chebyshev_coefficients, values. rewrite Hval.
    split; [intros k Hk; by apply nth_basis_values|].
    destruct (chebpolyval_Ok (unit_series n)) as (v & Hv & _ & Hfit).
    { rewrite length_unit_series. lia. }
    rewrite chebpolyval_unit_series in Hv by lia. by injection Hv as <-.
Qed.

End Basis.

(** X7.  [basis(n)] has [n + 1] values, the alternating signs [(-1)^k], and
    its Chebyshev coefficients are those of [T_n]: zero but for the last
    one, which is [1]. *)
Theorem basis_spec (n : nat) :
  ∃ c, basis n = Ok c ∧ wf c ∧ size c = S n ∧
       (∀ k, (k ≤ n)%nat → nth k (values c) 0 = (-1) ^ k) ∧
       chebyshev_coefficients c = Ok (unit_series n).
Proof. apply basis_closed. Qed.

(** X8.  The definite integral of [basis(n)] computed by [sum()] is
    [2 / (1 - n^2)] for even [n] and [0] for odd [n]. *)
Theorem sum_basis (n : nat) :
  ∃ c, basis n = Ok c ∧
       sum c = Ok (if Nat.even n then 2 / (1 - INR n ^ 2) else 0).
Proof.
  destruct (basis_closed n) as (c & Hc & _ & _ & _ & Ha). exists c. split; [done|].
  rewrite (sum_closed c _ Ha), length_unit_series. f_equal.
  destruct (Nat.even n) eqn:He.
  - apply Nat.even_spec in He as [h ->].
    rewrite (rsum_single _ _ h).
    + rewrite nth_unit_series, decide_True by done.
      rewrite mult_INR. change (INR 2) with 2. lra.
    + replace (S (2 * h) + 1)%nat with (0 + (h + 1) * 2)%nat by lia.
      rewrite Nat.div_add by lia. cbn. lia.
    + intros j _ Hne. rewrite nth_unit_series, decide_False by lia. lra.
  - apply rsum_zero. intros j _.
    rewrite nth_unit_series, decide_False; [lra|].
    intros <-. rewrite Nat.even_mul in He. done.
Qed.

(** ** Linearity of the forward transform *)

Section Linearity.

Lemma list_eq_nth (l l' : list R) :
  length l = length l' →
  (∀ k, (k < length l)%nat → nth k l 0 = nth k l' 0) → l = l'.
Proof.
  intros Hlen H. apply list_eq. intros i.
  destruct (decide (i < length l)%nat) as [Hi|Hi].
  - specialize (H i Hi). rewrite !nth_lookup in H.
    destruct (lookup_lt_is_Some_2 l i Hi) as [x Hx].
    destruct (lookup_lt_is_Some_2 l' i) as [y Hy]; [lia|].
    rewrite Hx, Hy in *. cbn in H. by subst.
  - by rewrite !lookup_ge_None_2 by lia.
Qed.

Lemma ext_combine (α β : R) (g h r : nat → R) (M j : nat) :
  (∀ k, (k ≤ M)%nat → r k = α * g k + β * h k) → (j < 2 * M)%nat →
  ext r M j = α * ext g M j + β * ext h M j.
Proof.
  intros H Hj. unfold ext. destruct (decide (j ≤ M)%nat); apply H; lia.
Qed.

Lemma cos_transform_combine (α β : R) (g h r : nat → R) (n k : nat) :
  (∀ j, (j < n)%nat → r j = α * g j + β * h j) →
  cos_transform r n k = α * cos_transform g n k + β * cos_transform h n k.
Proof.
  intros H. unfold cos_transform. rewrite <- !rsum_scal, <- rsum_plus.
  apply rsum_ext. intros j Hj. rewrite H by done. lra.
Qed.

(** The coefficients of a linear combination of samples, entry by entry. *)
Lemma chebpolyfit_combine (α β : R) (u v w a b : list R) :
  length u = length v → length w = length v → (1 ≤ length v)%nat →
  (∀ k, (k < length v)%nat → nth k u 0 = α * nth k v 0 + β * nth k w 0) →
  chebpolyfit v = Ok a → chebpolyfit w = Ok b →
  ∃ c, chebpolyfit u = Ok c ∧ length c = length v ∧
       ∀ k, (k < length v)%nat → nth k c 0 = α * nth k a 0 + β * nth k b 0.
Proof.
  intros Hu Hw Hv Hnth Ha Hb.
  destruct (decide (length v = 1)%nat) as [H1|H1].
  - unfold chebpolyfit in *.
    rewrite decide_True in Ha by lia. rewrite decide_True in Hb by lia.
    rewrite decide_True by lia.
    injection Ha as <-. injection Hb as <-. by exists u.
  - set (M := (length v - 1)%nat).
    rewrite (chebpolyfit_closed v M) in Ha by lia.
    rewrite (chebpolyfit_closed w M) in Hb by lia.
    rewrite (chebpolyfit_closed u M) by lia.
    match type of Ha with Ok ?l = _ => assert (a = l) as -> by congruence end.
    match type of Hb with Ok ?l = _ => assert (b = l) as -> by congruence end.
    eexists. split; [reflexivity|].
    split; [rewrite length_fmap, length_seq; lia|].
    intros k Hk. rewrite !nth_fmap_seq by lia.
    rewrite (cos_transform_combine α β
               (fun j => nth j (even_data v) 0) (fun j => nth j (even_data w) 0)).
    + assert (INR M ≠ 0) by (apply not_0_INR; lia).
      destruct (decide _); field; done.
    + intros j Hj. rewrite !(nth_even_data _ M) by lia.
      apply ext_combine; [|done]. intros i Hi. apply Hnth. lia.
Qed.


Lemma nth_fmap_R (f : R → R) (v : list R) (k : nat) :
  (k < length v)%nat → nth k (f <$> v) 0 = f (nth k v 0).
Proof.
  intros Hv. rewrite !nth_lookup, list_lookup_fmap.
  by destruct (lookup_lt_is_Some_2 v k Hv) as [x ->].
Qed.

Lemma chebpolyfit_opp (v a : list R) :
  (1 ≤ length v)%nat → chebpolyfit v = Ok a →
  chebpolyfit (Ropp <$> v) = Ok (Ropp <$> a).
Proof.
  intros Hv Ha.
  destruct (chebpolyfit_Ok v Hv) as (a' & Ha' & Hla & _).
  rewrite Ha in Ha'. injection Ha' as <-.
  destruct (chebpolyfit_combine (-1) 0 (Ropp <$> v) v v a a)
    as (c & Hc & Hlc & Hn); try done.
  - by rewrite length_fmap.
  - intros k Hk. rewrite nth_fmap_R by done. lra.
  - rewrite Hc. f_equal. apply list_eq_nth; [rewrite length_fmap; lia|].
    intros k Hk. rewrite Hn, nth_fmap_R by lia. lra.
Qed.

End Linearity.



(** ** Pruning *)

Section Pruning.

Lemma cutoff_cases (coeffs : list R) (scale : R) :
  (∃ i c, coeffs !! i = Some c ∧ Rabs c >= _threshold scale ∧
          (∀ j c', (i < j)%nat → coeffs !! j = Some c' →
                   Rabs c' < _threshold scale) ∧
          _cutoff coeffs scale = S i)
  ∨ ((∀ c, c ∈ coeffs → Rabs c < _threshold scale) ∧
     _cutoff coeffs scale = 1%nat).
Proof.
  unfold _cutoff, Np.nonzero.
  set (thr := _threshold scale).
  destruct (last _) as [n|] eqn:E.
  - left. apply last_nonzero_from_Some in E as (j & -> & Hj & Hlast).
    rewrite list_lookup_fmap in Hj.
    destruct (coeffs !! j) as [c|] eqn:Hc; [|discriminate].
    exists j, c. split; [done|]. cbn in Hj. injection Hj as Hj.
    apply bool_decide_eq_true_1 in Hj. split; [done|]. split; [|lia].
    intros j' c' Hlt Hc'.
    specialize (Hlast j' (bool_decide (Rabs c' >= thr)) Hlt).
    rewrite list_lookup_fmap, Hc' in Hlast. specialize (Hlast eq_refl).
    apply bool_decide_eq_false_1 in Hlast. lra.
  - right. split; [|reflexivity].
    intros c Hin. apply last_nonzero_from_None in E.
    rewrite Forall_fmap, Forall_forall in E. specialize (E c Hin). cbn in E.
    apply bool_decide_eq_false_1 in E. lra.
Qed.

Lemma cutoff_take (coeffs : list R) (scale : R) :
  _cutoff (take (_cutoff coeffs scale) coeffs) scale = _cutoff coeffs scale.
Proof.
  destruct (cutoff_cases coeffs scale) as [(i & c & Hi & Hc & Hlater & ->)|[Hnone ->]].
  - assert (Hti : take (S i) coeffs !! i = Some c) by (by rewrite lookup_take_lt by lia).
    destruct (cutoff_cases (take (S i) coeffs) scale)
      as [(i' & c' & Hi' & Hc' & Hlater' & ->)|[Hnone' _]].
    + apply lookup_take_Some in Hi' as [Hi' Hlt].
      destruct (decide (i' = i)) as [->|Hne]; [done|].
      specialize (Hlater' i c ltac:(lia) Hti). lra.
    + specialize (Hnone' c). rewrite list_elem_of_lookup in Hnone'.
      specialize (Hnone' (ex_intro _ i Hti)). lra.
  - destruct (cutoff_cases (take 1 coeffs) scale)
      as [(i' & c' & Hi' & Hc' & _ & _)|[_ ->]]; [|done].
    apply lookup_take_Some in Hi' as [Hi' _].
    specialize (Hnone c'). rewrite list_elem_of_lookup in Hnone.
    specialize (Hnone (ex_intro _ i' Hi')). lra.
Qed.

Lemma threshold_mono (s s' : R) : s <= s' → _threshold s <= _threshold s'.
Proof.
  intros H. unfold _threshold, emach.
  assert (0 < / 2 ^ 52) by (apply Rinv_0_lt_compat, pow_lt; lra). nra.
Qed.

Lemma cutoff_le_length (coeffs : list R) (scale : R) :
  (_cutoff coeffs scale ≤ Nat.max 1 (length coeffs))%nat.
Proof.
  destruct (cutoff_cases coeffs scale) as [(i & c & Hi & _ & _ & ->)|[_ ->]]; [|lia].
  apply lookup_lt_Some in Hi. lia.
Qed.

End Pruning.

(** X10.  Pruning is idempotent: the cutoff of an already pruned series is
    its length, and building an interpolant from the pruned coefficients
    gives the same result as building it from all of them. *)
Theorem prune_idempotent (coeffs : list R) (scale : R) :
  _cutoff (take (_cutoff coeffs scale) coeffs) scale = _cutoff coeffs scale ∧
  from_chebcoeff (take (_cutoff coeffs scale) coeffs) true scale =
  from_chebcoeff coeffs true scale.
Proof.
  split; [apply cutoff_take|].
  unfold from_chebcoeff. by rewrite cutoff_take, take_take, Nat.min_id.
Qed.

(** X11.  The pruner keeps between one coefficient and all of them, and a
    larger scale never keeps more. *)
Theorem cutoff_monotone (coeffs : list R) (s s' : R) :
  s <= s' →
  (1 ≤ _cutoff coeffs s' ≤ _cutoff coeffs s)%nat ∧
  (_cutoff coeffs s ≤ Nat.max 1 (length coeffs))%nat.
Proof.
  intros Hs. pose proof (threshold_mono s s' Hs) as Ht.
  split; [|apply cutoff_le_length]. split; [apply cutoff_pos|].
  destruct (cutoff_cases coeffs s') as [(i' & c' & Hi' & Hc' & _ & ->)|[_ ->]];
    [|apply cutoff_pos].
  destruct (cutoff_cases coeffs s) as [(i & c & Hi & Hc & Hlater & ->)|[Hnone _]].
  - destruct (decide (i' ≤ i)%nat); [lia|].
    specialize (Hlater i' c' ltac:(lia) Hi'). lra.
  - specialize (Hnone c'). rewrite list_elem_of_lookup in Hnone.
    specialize (Hnone (ex_intro _ i' Hi')). lra.
Qed.

Lemma cutoff_monotone_witness :
  1 <= 2 ∧ (_cutoff [1; 0]%R 2 ≤ _cutoff [1; 0]%R 1)%nat.
Proof.
  split; [lra|]. apply (cutoff_monotone [1; 0] 1 2). lra.
Defined.

(** ** Addition, negation and equality *)

Section Algebra.

Lemma add_unfold (f g : t) (a b : list R) :
  wf f → wf g →
  chebyshev_coefficients f = Ok a → chebyshev_coefficients g = Ok b →
  __add__ f (Obj g) =
  from_chebcoeff (padded_sum a b) true (Rmax (_scale f) (_scale g)).
Proof.
  intros Hf Hg Ha Hb.
  destruct (wf_coefficients f Hf) as (a' & Ha' & Hla & _).
  destruct (wf_coefficients g Hg) as (b' & Hb' & Hlb & _).
  rewrite Ha in Ha'. rewrite Hb in Hb'.
  injection Ha' as <-. injection Hb' as <-.
  unfold __add__. cbn [cast_scalar bind].
  destruct (bool_decide (size f < size g)%nat) eqn:Hbig.
  - apply bool_decide_eq_true in Hbig.
    rewrite Ha, Hb. cbn [bind]. unfold pad_to.
    rewrite decide_True by lia. cbn [bind].
    rewrite zip_with_padded by lia. by rewrite padded_sum_comm.
  - apply bool_decide_eq_false in Hbig.
    rewrite Ha, Hb. cbn [bind]. unfold pad_to.
    rewrite decide_True by lia. cbn [bind].
    rewrite zip_with_padded by lia. done.
Qed.

Lemma nth_padded_sum (a b : list R) (k : nat) :
  nth k (padded_sum a b) 0 = nth k a 0 + nth k b 0.
Proof.
  unfold padded_sum.
  destruct (decide (k < length a `max` length b)%nat) as [Hk|Hk].
  - by rewrite nth_fmap_seq.
  - rewrite !nth_overflow; [lra|lia|lia|].
    rewrite length_fmap, length_seq. lia.
Qed.

Lemma abs_opp (v : list R) : Np.abs (Ropp <$> v) = Np.abs v.
Proof.
  unfold Np.abs. rewrite <- list_fmap_compose. apply list_fmap_ext.
  intros _ x _. cbn. apply Rabs_Ropp.
Qed.

Lemma opp_opp (v : list R) : Ropp <$> (Ropp <$> v) = v.
Proof.
  rewrite <- list_fmap_compose. rewrite <- (list_fmap_id v) at 2.
  apply list_fmap_ext. intros _ x _. cbn. lra.
Qed.

Lemma neg_wf (f : t) :
  wf f →
  ∃ g, __neg__ f = Ok g ∧ wf g ∧ values g = Ropp <$> values f ∧
       Np.max (Np.abs (values f)) = Ok (_scale g).
Proof.
  intros (Hlen & _). unfold __neg__, from_data.
  destruct (init_wf (Ropp <$> values f) None) as (g & Hg & Hwf & Hval & Hs).
  { by rewrite length_fmap. }
  exists g. rewrite abs_opp in Hs. done.
Qed.

Lemma cutoff_opp (s : list R) (scale : R) :
  _cutoff (Ropp <$> s) scale = _cutoff s scale.
Proof.
  unfold _cutoff. rewrite <- list_fmap_compose.
  rewrite (list_fmap_ext _ (fun c => bool_decide (Rabs c >= _threshold scale)) s);
    [done|].
  intros _ x _. cbn. by rewrite Rabs_Ropp.
Qed.

Lemma allclose_opp (s : list R) : Np.allclose (Ropp <$> s) 0 = Np.allclose s 0.
Proof.
  unfold Np.allclose. induction s as [|x s IH]; [done|].
  cbn [fmap list_fmap forallb]. rewrite <- IH. f_equal.
  unfold Np.isclose. apply bool_decide_ext.
  by rewrite !Rminus_0_r, Rabs_Ropp.
Qed.

(** How [f - g] and [f == g] are computed, in terms of the coefficients of
    both operands. *)
Lemma sub_unfold (f g : t) (a b : list R) :
  wf f → wf g →
  chebyshev_coefficients f = Ok a → chebyshev_coefficients g = Ok b →
  ∃ d fg, length d = (length a `max` length b)%nat ∧
          (∀ k, nth k d 0 = nth k a 0 - nth k b 0) ∧
          __sub__ f (Obj g) = Ok fg ∧
          chebyshev_coefficients fg =
            Ok (take (_cutoff d (Rmax (_scale f) (max_abs (values g)))) d) ∧
          __eq__ f (Obj g) =
            Ok (Np.allclose
                  (take (_cutoff d (Rmax (_scale f) (max_abs (values g)))) d) 0).
Proof.
  intros Hf Hg Ha Hb.
  destruct (neg_wf g Hg) as (ng & Hng & Hwn & Hvn & Hsn).
  assert (Hbn : chebyshev_coefficients ng = Ok (Ropp <$> b)).
  { unfold chebyshev_coefficients in *. rewrite Hvn.
    apply chebpolyfit_opp; [by destruct Hg|done]. }
  pose proof (add_unfold f ng a _ Hf Hwn Ha Hbn) as Hadd.
  destruct (from_chebcoeff_wf (padded_sum a (Ropp <$> b))
              (Rmax (_scale f) (_scale ng)))
    as (h & Hh & _ & Hs & _ & Hco).
  { rewrite length_padded_sum.
    destruct (wf_coefficients f Hf) as (a' & Ha' & Hla & _).
    rewrite Ha in Ha'. injection Ha' as <-.
    rewrite Hla, (wf_size f Hf). destruct Hf as (? & _). unfold values. lia. }
  assert (Hmax : max_abs (values g) = _scale ng).
  { unfold max_abs. by rewrite Hsn. }
  rewrite Hmax.
  exists (padded_sum a (Ropp <$> b)), h.
  split; [by rewrite length_padded_sum, length_fmap|]. split; [|split; [|split]].
  - intros k. rewrite nth_padded_sum.
    destruct (decide (k < length b)%nat).
    + rewrite nth_fmap_R by done. lra.
    + rewrite (nth_overflow (Ropp <$> b)) by (rewrite length_fmap; lia).
      rewrite (nth_overflow b) by lia. lra.
  - unfold __sub__. cbn [cast_scalar bind]. rewrite Hng. cbn [bind].
    by rewrite Hadd.
  - done.
  - unfold __eq__, __sub__, __nonzero__. cbn [cast_scalar bind].
    rewrite Hng. cbn [bind]. rewrite Hadd, Hh. cbn [bind]. rewrite Hco.
    cbn [bind]. by rewrite negb_involutive.
Qed.

Lemma eq_unfold (f g : t) (a b : list R) :
  wf f → wf g →
  chebyshev_coefficients f = Ok a → chebyshev_coefficients g = Ok b →
  ∃ d, length d = (length a `max` length b)%nat ∧
       (∀ k, nth k d 0 = nth k a 0 - nth k b 0) ∧
       __eq__ f (Obj g) =
       Ok (Np.allclose
             (take (_cutoff d (Rmax (_scale f) (max_abs (values g)))) d) 0).
Proof.
  intros Hf Hg Ha Hb.
  destruct (sub_unfold f g a b Hf Hg Ha Hb) as (d & _ & Hl & Hd & _ & _ & He).
  by exists d.
Qed.

(** The coefficients that the pruner drops are below the threshold. *)
Lemma cutoff_tail (coeffs : list R) (scale : R) (k : nat) :
  (_cutoff coeffs scale ≤ k < length coeffs)%nat →
  Rabs (nth k coeffs 0) < _threshold scale.
Proof.
  intros [Hk Hlen].
  destruct (lookup_lt_is_Some_2 coeffs k Hlen) as [x Hx].
  rewrite nth_lookup, Hx. cbn.
  destruct (cutoff_cases coeffs scale)
    as [(i & c & _ & _ & Hlater & Hcut)|[Hall _]].
  - apply (Hlater k); [lia|done].
  - apply Hall. by eapply list_elem_of_lookup_2.
Qed.

End Algebra.

(** C10.  [f == g] holds exactly when every Chebyshev coefficient of the
    difference [f - g] is within the default tolerance of [np.allclose] of
    zero, which is [1e-08]: the comparison is not exact.  The coefficients
    of the difference are the differences [a_k - b_k] of the coefficients
    of [f] and [g], the shorter series padded with zeros, up to the cutoff
    of the pruner; those past the cutoff are below its threshold. *)
Theorem eq_spec (f g : t) (a b : list R) :
  wf f → wf g →
  chebyshev_coefficients f = Ok a → chebyshev_coefficients g = Ok b →
  let s := Rmax (_scale f) (max_abs (values g)) in
  ∃ d fg,
    length d = (length a `max` length b)%nat ∧
    (∀ k, nth k d 0 = nth k a 0 - nth k b 0) ∧
    __sub__ f (Obj g) = Ok fg ∧
    chebyshev_coefficients fg = Ok (take (_cutoff d s) d) ∧
    (∀ k, (_cutoff d s ≤ k < length d)%nat → Rabs (nth k d 0) < _threshold s) ∧
    __eq__ f (Obj g) = Ok (Np.allclose (take (_cutoff d s) d) 0) ∧
    (__eq__ f (Obj g) = Ok true ↔
     ∀ x, x ∈ take (_cutoff d s) d → Rabs x <= 1 / 10 ^ 8) ∧
    (__eq__ f (Obj g) = Ok true ↔
     ∀ k, (k < _cutoff d s)%nat → Rabs (nth k a 0 - nth k b 0) <= 1 / 10 ^ 8).
Proof.
  intros Hf Hg Ha Hb s.
  destruct (sub_unfold f g a b Hf Hg Ha Hb) as (d & fg & Hl & Hd & Hsub & Hco & He).
  fold s in Hco, He. exists d, fg.
  split; [done|]. split; [done|]. split; [done|]. split; [done|].
  split; [intros k Hk; by apply cutoff_tail|]. split; [done|].
  rewrite He. split.
  { rewrite <- allclose_zero. split; [congruence|by intros ->]. }
  split.
  - intros Hall k Hk. rewrite <- Hd.
    assert (Htrue : Np.allclose (take (_cutoff d s) d) 0 = true) by congruence.
    destruct (decide (k < length d)%nat) as [Hkd|Hkd].
    + apply (proj1 (allclose_zero _) Htrue).
      destruct (lookup_lt_is_Some_2 d k Hkd) as [x Hx].
      rewrite nth_lookup, Hx. cbn.
      apply (list_elem_of_lookup_2 _ k). by rewrite lookup_take_lt.
    + rewrite nth_overflow by lia. rewrite Rabs_R0.
      apply Rlt_le, Rdiv_lt_0_compat; [lra|apply pow_lt; lra].
  - intros Hall. f_equal. apply allclose_zero. intros x Hx.
    apply list_elem_of_lookup in Hx as (k & Hk).
    apply lookup_take_Some in Hk as [Hk Hlt].
    apply (nth_lookup_Some _ _ 0) in Hk. subst x. rewrite Hd. by apply Hall.
Qed.

Lemma eq_spec_witness :
  wf one ∧ wf one_eps ∧
  chebyshev_coefficients one = Ok [1] ∧
  chebyshev_coefficients one_eps = Ok [1 + 1 / 10 ^ 9] ∧
  ∃ d fg, (∀ k, nth k d 0 = nth k [1] 0 - nth k [1 + 1 / 10 ^ 9] 0) ∧
          __sub__ one (Obj one_eps) = Ok fg.
Proof.
  assert (H1 : wf one) by (by apply (wf_single one 1)).
  assert (H2 : wf one_eps) by (by apply (wf_single one_eps (1 + 1 / 10 ^ 9))).
  split; [exact H1|]. split; [exact H2|].
  split; [reflexivity|]. split; [reflexivity|].
  destruct (eq_spec one one_eps [1] [1 + 1 / 10 ^ 9] H1 H2 eq_refl eq_refl)
    as (d & fg & _ & Hd & Hsub & _).
  exists d, fg. split; [exact Hd|exact Hsub].
Defined.


(** X12.  Addition is commutative: [f + g] and [g + f] are the same
    interpolant. *)
Theorem add_commutes (f g : t) :
  wf f → wf g → __add__ f (Obj g) = __add__ g (Obj f).
Proof.
  intros Hf Hg.
  destruct (wf_coefficients f Hf) as (a & Ha & _).
  destruct (wf_coefficients g Hg) as (b & Hb & _).
  rewrite (add_unfold f g a b), (add_unfold g f b a) by done.
  by rewrite padded_sum_comm, Rmax_comm.
Qed.

Lemma add_commutes_witness :
  wf one ∧ wf one_eps ∧ __add__ one (Obj one_eps) = __add__ one_eps (Obj one).
Proof.
  assert (H1 : wf one) by (by apply (wf_single one 1)).
  assert (H2 : wf one_eps) by (by apply (wf_single one_eps (1 + 1 / 10 ^ 9))).
  split; [exact H1|]. split; [exact H2|].
  apply (add_commutes one one_eps H1 H2).
Defined.

(** X13.  The sum of two interpolants has at least one value and at most
    as many as the larger operand: addition never raises the degree. *)
Theorem add_size (f g : t) :
  wf f → wf g →
  ∃ h, __add__ f (Obj g) = Ok h ∧ wf h ∧
       (1 ≤ size h ≤ size f `max` size g)%nat.
Proof.
  intros Hf Hg.
  destruct (add_wf f g Hf Hg)
    as (a & b & h & _ & _ & Hla & Hlb & Hadd & Hwf & _ & _ & Hval).
  exists h. split; [done|]. split; [done|].
  rewrite (wf_size h Hwf).
  set (kept := take _ _) in Hval.
  assert (Hk : (1 ≤ length kept ≤ size f `max` size g)%nat).
  { unfold kept. rewrite length_take, length_padded_sum, Hla, Hlb.
    pose proof (cutoff_pos (padded_sum a b) (_scale h)).
    pose proof (wf_size f Hf). destruct Hf as (? & _). unfold values in *. lia. }
  destruct (chebpolyval_Ok kept) as (v & Hv & Hlv & _); [lia|].
  rewrite Hval in Hv. injection Hv as <-. lia.
Qed.

Lemma add_size_witness :
  wf one ∧ wf one_eps ∧
  ∃ h, __add__ one (Obj one_eps) = Ok h ∧ wf h ∧
       (1 ≤ size h ≤ size one `max` size one_eps)%nat.
Proof.
  assert (H1 : wf one) by (by apply (wf_single one 1)).
  assert (H2 : wf one_eps) by (by apply (wf_single one_eps (1 + 1 / 10 ^ 9))).
  split; [exact H1|]. split; [exact H2|].
  apply (add_size one one_eps H1 H2).
Defined.

(** X14.  Negation negates the values and stores their largest magnitude
    as scale; negating twice gives back the values. *)
Theorem neg_involutive (f : t) :
  wf f →
  ∃ g h, __neg__ f = Ok g ∧ __neg__ g = Ok h ∧
         values g = Ropp <$> values f ∧ values h = values f ∧
         Np.max (Np.abs (values f)) = Ok (_scale g) ∧ _scale h = _scale g.
Proof.
  intros Hf.
  destruct (neg_wf f Hf) as (g & Hg & Hwg & Hvg & Hsg).
  destruct (neg_wf g Hwg) as (h & Hh & _ & Hvh & Hsh).
  exists g, h. repeat (split; [done|]).
  rewrite Hvg, opp_opp in Hvh. split; [done|].
  rewrite Hvg, abs_opp, Hsg in Hsh. by injection Hsh.
Qed.

Lemma neg_involutive_witness :
  wf one ∧
  ∃ g h, __neg__ one = Ok g ∧ __neg__ g = Ok h ∧ values h = values one.
Proof.
  assert (H1 : wf one) by (by apply (wf_single one 1)).
  split; [exact H1|].
  destruct (neg_involutive one H1) as (g & h & Hg & Hh & _ & Hv & _).
  exists g, h. split; [exact Hg|]. split; [exact Hh|exact Hv].
Defined.

(** X15.  Equality is reflexive: [f == f] is true for every interpolant. *)
Theorem eq_refl_spec (f : t) : wf f → __eq__ f (Obj f) = Ok true.
Proof.
  intros Hf. destruct (wf_coefficients f Hf) as (a & Ha & _).
  destruct (eq_unfold f f a a Hf Hf Ha Ha) as (d & _ & Hd & ->).
  f_equal. apply allclose_zero. intros x Hx.
  apply list_elem_of_lookup in Hx as (i & Hi).
  apply lookup_take_Some in Hi as [Hi _].
  apply (nth_lookup_Some _ _ 0) in Hi. rewrite Hd in Hi. subst.
  rewrite Rminus_diag, Rabs_R0. apply Rlt_le, Rdiv_lt_0_compat; [lra|].
  apply pow_lt. lra.
Qed.

Lemma eq_refl_spec_witness : wf one ∧ __eq__ one (Obj one) = Ok true.
Proof.
  assert (H1 : wf one) by (by apply (wf_single one 1)).
  split; [exact H1|]. apply (eq_refl_spec one H1).
Defined.

(** X16.  Equality is symmetric for interpolants whose stored scale is the
    largest magnitude of their values, as the constructor computes it. *)
Theorem eq_sym_spec (f g : t) :
  wf f → wf g →
  Np.max (Np.abs (values f)) = Ok (_scale f) →
  Np.max (Np.abs (values g)) = Ok (_scale g) →
  __eq__ f (Obj g) = __eq__ g (Obj f).
Proof.
  intros Hf Hg Hsf Hsg.
  destruct (wf_coefficients f Hf) as (a & Ha & _).
  destruct (wf_coefficients g Hg) as (b & Hb & _).
  destruct (eq_unfold f g a b Hf Hg Ha Hb) as (d & Hld & Hd & ->).
  destruct (eq_unfold g f b a Hg Hf Hb Ha) as (d' & Hld' & Hd' & ->).
  unfold max_abs. rewrite Hsf, Hsg.
  assert (Hdd : d' = Ropp <$> d).
  { apply list_eq_nth; [rewrite length_fmap; lia|].
    intros k Hk. rewrite nth_fmap_R by lia. rewrite Hd, Hd'. lra. }
  rewrite Hdd, cutoff_opp, (Rmax_comm (_scale g)).
  by rewrite <- fmap_take, allclose_opp.
Qed.

Lemma eq_sym_spec_witness :
  wf one ∧ wf one_eps ∧ __eq__ one (Obj one_eps) = __eq__ one_eps (Obj one).
Proof.
  assert (H1 : wf one) by (by apply (wf_single one 1)).
  assert (H2 : wf one_eps) by (by apply (wf_single one_eps (1 + 1 / 10 ^ 9))).
  split; [exact H1|]. split; [exact H2|].
  apply (eq_sym_spec one one_eps H1 H2).
  - cbn. by rewrite Rabs_R1.
  - cbn. rewrite Rabs_pos_eq; [done|].
    assert (0 < 1 / 10 ^ 9) by (apply Rdiv_lt_0_compat; [lra|apply pow_lt; lra]).
    lra.
Defined.

(** ** Outcomes of the adaptive construction *)

Section Outcomes.

Context (f : R → R).

Lemma dichotomy_loop_first (pre post : list nat) (k0 : nat) (st : option trial) :
  (∀ k, k ∈ pre → ¬ converged f k) → converged f k0 →
  dichotomy_loop f (pre ++ k0 :: post) st = Ok (Some (trial_at f k0), true).
Proof.
  revert st. induction pre as [|k pre IH]; intros st Hpre Hk0; cbn [app dichotomy_loop].
  - destruct (dichotomy_step_spec f k0) as (b & -> & Hb). cbn [bind fst snd].
    destruct b; [done|]. destruct Hb as [_ Hb]. by specialize (Hb Hk0).
  - destruct (dichotomy_step_spec f k) as (b & -> & Hb). cbn [bind fst snd].
    destruct b.
    + exfalso. apply (Hpre k); [apply list_elem_of_here|by apply Hb].
    + apply IH; [|done]. intros k' Hk'. by apply Hpre, list_elem_of_further.
Qed.

Lemma xrange_split (kmin kmax k0 : nat) :
  (kmin ≤ k0 < kmax)%nat →
  xrange kmin kmax = xrange kmin k0 ++ k0 :: xrange (S k0) kmax.
Proof.
  intros H. unfold xrange.
  replace (kmax - kmin)%nat with ((k0 - kmin) + S (kmax - S k0))%nat by lia.
  rewrite seq_app. cbn [seq].
  by replace (kmin + (k0 - kmin))%nat with k0 by lia.
Qed.

Lemma dichotomy_first (kmin kmax k0 : nat) (raise_nc : bool) :
  (kmin ≤ k0 < kmax)%nat → converged f k0 →
  (∀ k, (kmin ≤ k < k0)%nat → ¬ converged f k) →
  dichotomy f kmin kmax raise_nc = Ok (coeffs_at f k0).
Proof.
  intros Hk Hc Hpre. unfold dichotomy.
  rewrite (xrange_split kmin kmax k0 Hk), dichotomy_loop_first; [done| |done].
  intros k Hin. apply Hpre. by apply elem_of_xrange.
Qed.



End Outcomes.

(** X17.  When some exponent of the range is accepted, [dichotomy] returns
    the [2^k + 1] coefficients computed at the first accepted exponent [k],
    whatever the flag. *)
Theorem dichotomy_accepts (f : R → R) (kmin kmax k0 : nat) (raise_nc : bool) :
  (kmin ≤ k0 < kmax)%nat → converged f k0 →
  (∀ k, (kmin ≤ k < k0)%nat → ¬ converged f k) →
  dichotomy f kmin kmax raise_nc = Ok (coeffs_at f k0) ∧
  chebpolyfit (sample_function f (2 ^ k0)) = Ok (coeffs_at f k0) ∧
  length (coeffs_at f k0) = (2 ^ k0 + 1)%nat.
Proof.
  intros Hk Hc Hpre. split; [by apply dichotomy_first|]. apply coeffs_at_Ok.
Qed.


(** ** Constant functions *)

Section Constant.

Lemma nth_constant_series (c : R) (M j : nat) :
  nth j (c :: replicate M 0) 0 = if decide (j = 0)%nat then c else 0.
Proof.
  destruct j as [|j]; [done|]. cbn [nth]. rewrite decide_False by lia.
  rewrite nth_lookup. destruct (replicate M 0 !! j) as [x|] eqn:Hx; [|done].
  by apply lookup_replicate_1 in Hx as [-> _].
Qed.

Lemma chebpolyval_constant (c : R) (M : nat) :
  (0 < M)%nat →
  chebpolyval (c :: replicate M 0) = Ok (replicate (S M) c).
Proof.
  intros HM.
  rewrite (chebpolyval_closed (c :: replicate M 0) M)
    by (try done; cbn; by rewrite length_replicate).
  f_equal. rewrite <- (length_replicate (S M) c) at 1. apply fmap_seq_nth.
  rewrite length_replicate. intros k Hk.
  rewrite (nth_lookup (replicate _ _)), lookup_replicate_2 by lia. cbn [default].
  unfold cos_transform. rewrite (rsum_single _ (2 * M) 0).
  - unfold ext. rewrite decide_True by lia.
    rewrite nth_constant_series. rewrite decide_True by done.
    rewrite decide_True by (by left).
    rewrite angle_0_l, cos_0. unfold Datatypes.id. field.
  - lia.
  - intros j Hj Hne. unfold ext.
    destruct (decide (j ≤ M)%nat);
      rewrite nth_constant_series; rewrite decide_False by lia;
      unfold Rdiv; lra.
Qed.

Lemma chebpolyfit_constant (c : R) (M : nat) :
  (0 < M)%nat →
  chebpolyfit (replicate (S M) c) = Ok (c :: replicate M 0).
Proof.
  intros HM.
  destruct (chebpolyval_Ok (c :: replicate M 0)) as (v & Hv & _ & Hfit);
    [cbn; lia|].
  rewrite chebpolyval_constant in Hv by done. by injection Hv as <-.
Qed.

Lemma sample_constant (c : R) (N : nat) :
  sample_function (fun _ => c) N = replicate (N + 1) c.
Proof.
  unfold sample_function.
  rewrite <- (length_interpolation_points (N + 1)) at 2.
  generalize (interpolation_points (N + 1)). intros l.
  induction l as [|x l IH]; [done|]. cbn. by rewrite IH.
Qed.

Lemma coeffs_at_constant (c : R) (k : nat) :
  coeffs_at (fun _ => c) k = c :: replicate (2 ^ k) 0.
Proof.
  unfold coeffs_at. rewrite sample_constant.
  replace (2 ^ k + 1)%nat with (S (2 ^ k)) by lia.
  rewrite chebpolyfit_constant; [done|].
  apply Nat.neq_0_lt_0, Nat.pow_nonzero. lia.
Qed.

Lemma max_abs_nonneg (a : list R) : 0 <= max_abs a.
Proof.
  unfold max_abs. destruct (Np.max _) as [m|] eqn:E; [|lra].
  by apply max_abs_spec in E as (? & _).
Qed.

Lemma converged_constant (c : R) (k : nat) :
  (1 ≤ k)%nat → converged (fun _ => c) k.
Proof.
  intros Hk. unfold converged, residual_at, bound_at.
  rewrite coeffs_at_constant.
  assert (H2 : (2 ≤ 2 ^ k)%nat).
  { change 2%nat with (2 ^ 1)%nat at 1. apply Nat.pow_le_mono_r; lia. }
  assert (Hb : 0 <= 128 * emach * max_abs (c :: replicate (2 ^ k) 0)).
  { pose proof (max_abs_nonneg (c :: replicate (2 ^ k) 0)).
    unfold emach. assert (0 < / 2 ^ 52) by (apply Rinv_0_lt_compat, pow_lt; lra).
    nra. }
  apply Forall_forall. intros x Hx.
  apply list_elem_of_fmap in Hx as (y & -> & Hy).
  apply list_elem_of_lookup in Hy as (i & Hi).
  rewrite lookup_drop in Hi. cbn [length] in Hi. rewrite length_replicate in Hi.
  replace (S (2 ^ k) - 2 + i)%nat with (S (2 ^ k - 2 + i)) in Hi by lia.
  cbn in Hi. apply lookup_replicate_1 in Hi as [-> _].
  by rewrite Rabs_R0.
Qed.

Lemma cutoff_constant (c scale : R) (M : nat) :
  0 < scale → _cutoff (c :: replicate M 0) scale = 1%nat.
Proof.
  intros Hs.
  assert (Ht : 0 < _threshold scale).
  { unfold _threshold, emach.
    assert (0 < / 2 ^ 52) by (apply Rinv_0_lt_compat, pow_lt; lra). nra. }
  destruct (cutoff_cases (c :: replicate M 0) scale)
    as [(i & x & Hi & Hx & _ & ->)|[_ ->]]; [|done].
  destruct i as [|i]; [done|]. cbn in Hi.
  apply lookup_replicate_1 in Hi as [-> _]. rewrite Rabs_R0 in Hx. lra.
Qed.

End Constant.


Lemma dichotomy_accepts_witness :
  (2 ≤ 2 < 12)%nat ∧ converged (fun _ => 7) 2 ∧
  dichotomy (fun _ => 7) 2 12 true = Ok (coeffs_at (fun _ => 7) 2).
Proof.
  split; [lia|]. split; [apply converged_constant; lia|].
  apply (dichotomy_accepts (fun _ => 7) 2 12 2 true);
    [lia|apply converged_constant; lia|intros; lia].
Defined.

(** ** What the adaptive construction sees of the function *)

Section Agreement.

Context (f g : R → R).
Hypothesis agree : ∀ k x, x ∈ interpolation_points (2 ^ k + 1) → f x = g x.

Lemma sample_function_agree (k : nat) :
  sample_function f (2 ^ k) = sample_function g (2 ^ k).
Proof.
  unfold sample_function. apply list_fmap_ext. intros i x Hx.
  apply (agree k). by apply list_elem_of_lookup_2 in Hx.
Qed.

Lemma dichotomy_step_agree (k : nat) : dichotomy_step f k = dichotomy_step g k.
Proof. unfold dichotomy_step. by rewrite sample_function_agree. Qed.

Lemma dichotomy_loop_agree (ks : list nat) (st : option trial) :
  dichotomy_loop f ks st = dichotomy_loop g ks st.
Proof.
  revert st. induction ks as [|k ks IH]; intros st; [done|].
  cbn [dichotomy_loop]. rewrite dichotomy_step_agree.
  destruct (dichotomy_step g k) as [[tr b]|]; [|done]. cbn [bind fst snd].
  destruct b; [done|apply IH].
Qed.

Lemma from_function_agree (N : option Z) : from_function f N = from_function g N.
Proof.
  unfold from_function. destruct (dichotomy_args N) as [[[kmin kmax] r]|]; [|done].
  cbn [bind]. unfold dichotomy. by rewrite dichotomy_loop_agree.
Qed.

End Agreement.

(** X20.  The adaptive construction sees a function only through its values
    at the Chebyshev points of the trial grids: two functions that agree
    there give the same outcome, interpolant or exception. *)
Theorem from_function_ext (f g : R → R) (N : option Z) :
  (∀ k x, x ∈ interpolation_points (2 ^ k + 1) → f x = g x) →
  from_function f N = from_function g N.
Proof. intros H. by apply from_function_agree. Qed.

Lemma from_function_ext_witness :
  (∀ k x, x ∈ interpolation_points (2 ^ k + 1) → (fun y => y + 0) x = (fun y => y) x) ∧
  from_function (fun y => y + 0) None = from_function (fun y => y) None.
Proof.
  assert (H : ∀ (k : nat) (x : R),
            x ∈ interpolation_points (2 ^ k + 1) → x + 0 = x) by (intros; lra).
  split; [exact H|]. exact (from_function_ext (fun y => y + 0) (fun y => y) None H).
Defined.

(** X21.  Multiplication is commutative, and so is the scalar product
    built on it: both operands are sampled through their pointwise
    product. *)
Theorem mul_commutes (f g : t) :
  __mul__ f (Obj g) = __mul__ g (Obj f) ∧
  __rmul__ f (Obj g) = __mul__ g (Obj f) ∧
  dot f (Obj g) = dot g (Obj f).
Proof.
  assert (H : __mul__ f (Obj g) = __mul__ g (Obj f)).
  { unfold __mul__, operator_method. cbn [cast_scalar bind].
    apply from_function_agree. intros k x _. apply Rmult_comm. }
  split; [done|]. split; [done|]. unfold dot. by rewrite H.
Qed.


(** ** Differentiation after integration *)

Section ChebintClosed.

Context (c : list R).
Let n := length c.



End ChebintClosed.

Section DiffInt.

Context (c : list R).
Let n := length c.




End DiffInt.



(** ** The invariant is kept *)

Section Closure.

Lemma differentiator_Ok (A : list R) :
  (1 ≤ length A)%nat →
  ∃ b, differentiator A = Ok b ∧ (1 ≤ length b ≤ length A)%nat.
Proof.
  intros HA. destruct (decide (length A = 1)%nat) as [H1|H1].
  { unfold differentiator. rewrite decide_True by done.
    eexists. split; [done|]. rewrite length_replicate, length_take. lia. }
  destruct (decide (length A = 2)%nat) as [H2|H2].
  { unfold differentiator. rewrite decide_False, decide_True by done.
    eexists. split; [done|]. rewrite length_take, length_drop. lia. }
  destruct (differentiator_closed A) as (b & Hb & Hl & _); [lia|].
  exists b. split; [done|lia].
Qed.

Lemma differentiator_iter (js : list nat) (A : list R) :
  (1 ≤ length A)%nat →
  ∃ b, for_each (fun _ bi => differentiator bi) js A = Ok b ∧
       (1 ≤ length b ≤ length A)%nat.
Proof.
  revert A. induction js as [|j js IH]; intros A HA.
  - exists A. split; [done|lia].
  - destruct (differentiator_Ok A HA) as (b & Hb & Hlb).
    destruct (IH b) as (b' & Hb' & Hlb'); [lia|].
    exists b'. cbn [for_each]. rewrite Hb. cbn [bind]. split; [done|lia].
Qed.

Lemma length_chebint (c : list R) :
  (1 ≤ length c)%nat → (1 ≤ length (Cheb.chebint c) ≤ length c + 1)%nat.
Proof.
  intros Hc. unfold Cheb.chebint. case_decide; [lia|].
  rewrite length_alter, length_chebint_tmp.
  case_decide; rewrite !length_insert, length_replicate; lia.
Qed.

Lemma from_chebcoeff_size (a : list R) (scale : R) :
  (1 ≤ length a)%nat →
  ∃ h, from_chebcoeff a true scale = Ok h ∧ wf h ∧
       (1 ≤ size h ≤ length a)%nat.
Proof.
  intros Ha. destruct (from_chebcoeff_wf a scale Ha) as (h & Hh & Hwf & _ & _ & Hco).
  exists h. split; [done|]. split; [done|].
  destruct (wf_coefficients h Hwf) as (a' & Ha' & Hl & _).
  rewrite Hco in Ha'. injection Ha' as <-. rewrite <- Hl, length_take.
  pose proof (cutoff_pos a scale). lia.
Qed.

Lemma integrate_wf (f : t) :
  wf f → ∃ h, integrate f = Ok h ∧ wf h ∧ (1 ≤ size h ≤ size f + 1)%nat.
Proof.
  intros Hf. destruct (wf_coefficients f Hf) as (a & Ha & Hl & _).
  assert (1 ≤ size f)%nat.
  { rewrite (wf_size f Hf). destruct Hf as (? & _). done. }
  pose proof (length_chebint a ltac:(lia)).
  destruct (from_chebcoeff_size (Cheb.chebint a) 1) as (h & Hh & Hwf & Hs); [lia|].
  exists h. unfold integrate. rewrite Ha. cbn [bind]. split; [done|].
  split; [done|lia].
Qed.

Lemma differentiate_wf (f : t) (n : nat) :
  wf f → ∃ h, differentiate f n = Ok h ∧ wf h ∧ (1 ≤ size h ≤ size f)%nat.
Proof.
  intros Hf. destruct (wf_coefficients f Hf) as (a & Ha & Hl & _).
  assert (1 ≤ size f)%nat.
  { rewrite (wf_size f Hf). destruct Hf as (? & _). done. }
  destruct (differentiator_iter (seq 0 n) a) as (b & Hb & Hlb); [lia|].
  destruct (from_chebcoeff_size b 1) as (h & Hh & Hwf & Hs); [lia|].
  exists h. unfold differentiate. rewrite Ha. cbn [bind]. rewrite Hb. cbn [bind].
  split; [done|]. split; [done|lia].
Qed.

Lemma scalar_wf (x : R) : ∃ c, cast_scalar (Scalar x) = Ok c ∧ wf c.
Proof.
  destruct (init_wf [x] None) as (c & Hc & Hwf & _); [cbn; lia|].
  by exists c.
Qed.

Lemma add_scalar_wf (f : t) (x : R) :
  wf f → ∃ h, __add__ f (Scalar x) = Ok h ∧ wf h.
Proof.
  intros Hf. destruct (scalar_wf x) as (c & Hc & Hwf).
  destruct (add_wf f c Hf Hwf) as (a & b & h & _ & _ & _ & _ & Hh & Hwh & _).
  exists h. split; [|done]. unfold __add__ in *. rewrite Hc. exact Hh.
Qed.

End Closure.

(** X24. The operations on well-formed instances never raise and return
    well-formed instances: copy, negation, sum and difference with an
    instance or a scalar, the primitive (at most one value more) and the
    derivative of any order (no more values than the operand). *)
Theorem wf_preserved (f g : t) (x : R) (n : nat) :
  wf f → wf g →
  (∃ h, from_chebfun f = Ok h ∧ wf h ∧ values h = values f) ∧
  (∃ h, __neg__ f = Ok h ∧ wf h) ∧
  (∃ h, __add__ f (Obj g) = Ok h ∧ wf h) ∧
  (∃ h, __add__ f (Scalar x) = Ok h ∧ wf h) ∧
  (∃ h, __sub__ f (Obj g) = Ok h ∧ wf h) ∧
  (∃ h, integrate f = Ok h ∧ wf h ∧ (1 ≤ size h ≤ size f + 1)%nat) ∧
  (∃ h, differentiate f n = Ok h ∧ wf h ∧ (1 ≤ size h ≤ size f)%nat).
Proof.
  intros Hf Hg. repeat split.
  - destruct (init_wf (values f) None) as (h & Hh & Hwf & Hv & _).
    { by destruct Hf as (? & _). }
    by exists h.
  - destruct (neg_wf f Hf) as (h & Hh & Hwf & _). by exists h.
  - destruct (add_wf f g Hf Hg) as (a & b & h & _ & _ & _ & _ & Hh & Hwh & _).
    by exists h.
  - by apply add_scalar_wf.
  - destruct (sub_wf f g Hf Hg) as (ng & d & _ & _ & Hd & _ & Hwd). by exists d.
  - by apply integrate_wf.
  - by apply differentiate_wf.
Qed.

Lemma wf_preserved_witness :
  wf one ∧ wf one_eps ∧
  ∃ h, integrate one = Ok h ∧ wf h ∧ (1 ≤ size h ≤ size one + 1)%nat.
Proof.
  assert (H1 : wf one) by (by apply (wf_single one 1)).
  assert (H2 : wf one_eps) by (by apply (wf_single one_eps (1 + 1 / 10 ^ 9))).
  split; [exact H1|]. split; [exact H2|].
  exact (proj1 (proj2 (proj2 (proj2 (proj2 (proj2
           (wf_preserved one one_eps 0 1 H1 H2))))))).
Defined.

(** ** Derivatives of high order *)

Section HighDerivative.

Lemma scaled_vanishes (A : list R) (d k : nat) :
  vanishes_from A d → (d ≤ k)%nat → scaled A k = 0.
Proof. intros H Hk. unfold scaled. rewrite (H k Hk). lra. Qed.

Lemma differentiator_vanishes (A b : list R) (d : nat) :
  (1 ≤ length A)%nat → differentiator A = Ok b →
  vanishes_from A d → vanishes_from b (d - 1).
Proof.
  intros HA Hb Hd.
  destruct (decide (length A = 1)%nat) as [H1|H1].
  { unfold differentiator in Hb. rewrite decide_True in Hb by done.
    injection Hb as <-. intros k _. rewrite nth_lookup.
    destruct (replicate _ _ !! k) as [x|] eqn:E; [|done].
    by apply lookup_replicate_1 in E as [-> _]. }
  destruct (decide (length A = 2)%nat) as [H2|H2].
  { unfold differentiator in Hb. rewrite decide_False, decide_True in Hb by done.
    injection Hb as <-. destruct A as [|a0 [|a1 [|]]]; try (cbn in H2; lia).
    cbn. intros [|k] Hk; [|by destruct k].
    apply (Hd 1%nat). lia. }
  destruct (differentiator_closed A) as (DA & HDA & Hl & Hlast & Hprev & Hrec & H0);
    [lia|].
  rewrite Hb in HDA. injection HDA as <-.
  assert (Hdown : ∀ e k, (k + e = length A - 1)%nat → (d - 1 ≤ k)%nat →
                         nth k b 0 = 0).
  { induction e as [e IH] using lt_wf_ind. intros k He Hk.
    destruct (decide (e = 0)%nat) as [->|He0].
    { replace k with (length A - 1)%nat by lia. done. }
    destruct (decide (e = 1)%nat) as [->|He1].
    { replace k with (length A - 2)%nat by lia. rewrite Hprev.
      apply (scaled_vanishes A d); [done|lia]. }
    destruct (decide (k = 0)%nat) as [->|Hk0].
    - rewrite H0, (scaled_vanishes A d) by (done || lia).
      rewrite (IH (e - 2)%nat) by lia. lra.
    - rewrite Hrec by lia. rewrite (scaled_vanishes A d) by (done || lia).
      rewrite (IH (e - 2)%nat) by lia. lra. }
  intros k Hk. destruct (decide (k < length A)%nat).
  - apply (Hdown (length A - 1 - k)%nat); lia.
  - apply nth_overflow. lia.
Qed.

Lemma differentiator_iter_vanishes (n : nat) :
  ∀ (s : nat) (A : list R) (d : nat),
  (1 ≤ length A)%nat → vanishes_from A d →
  ∃ b, for_each (fun _ bi => differentiator bi) (seq s n) A = Ok b ∧
       (1 ≤ length b)%nat ∧ vanishes_from b (d - n).
Proof.
  induction n as [|n IH]; intros s A d HA Hd.
  - exists A. replace (d - 0)%nat with d by lia. done.
  - destruct (differentiator_Ok A HA) as (b & Hb & Hlb).
    pose proof (differentiator_vanishes A b d HA Hb Hd) as Hv.
    destruct (IH (S s) b (d - 1)%nat) as (b' & Hb' & Hlb' & Hv'); [lia|done|].
    exists b'. cbn [seq for_each]. rewrite Hb. cbn [bind].
    replace (d - S n)%nat with (d - 1 - n)%nat by lia. done.
Qed.

Lemma vanishes_replicate (b : list R) :
  vanishes_from b 0 → b = replicate (length b) 0.
Proof.
  intros H. apply list_eq_nth; [by rewrite length_replicate|].
  intros k Hk. rewrite (H k) by lia.
  by rewrite nth_lookup, lookup_replicate_2.
Qed.

Lemma differentiate_high (f : t) (n : nat) :
  wf f → (size f ≤ n)%nat →
  ∃ h, differentiate f n = Ok h ∧ wf h ∧ values h = [0] ∧
       chebyshev_coefficients h = Ok [0].
Proof.
  intros Hf Hn. destruct (wf_coefficients f Hf) as (a & Ha & Hl & _).
  assert (1 ≤ size f)%nat.
  { rewrite (wf_size f Hf). destruct Hf as (? & _). done. }
  destruct (differentiator_iter_vanishes n 0 a (length a))
    as (b & Hb & Hlb & Hv); [lia|by intros k Hk; apply nth_overflow|].
  replace (length a - n)%nat with 0%nat in Hv by lia.
  apply vanishes_replicate in Hv.
  destruct (length b) as [|M]; [lia|]. cbn [replicate] in Hv.
  destruct (from_chebcoeff_wf b 1) as (h & Hh & Hwf & _ & Hval & Hco).
  { rewrite Hv. cbn. lia. }
  rewrite Hv, cutoff_constant in Hval, Hco by lra.
  cbn [take] in Hval, Hco.
  exists h. unfold differentiate. rewrite Ha. cbn [bind]. rewrite Hb. cbn [bind].
  split; [done|]. split; [done|]. split; [|done].
  unfold chebpolyval in Hval. cbn [length] in Hval.
  rewrite decide_True in Hval by done. by injection Hval as <-.
Qed.

End HighDerivative.

(** X25. Differentiating a well-formed interpolant at least as many times
    as it has values gives the zero interpolant: a single value 0 and the
    single coefficient 0. *)
Theorem differentiate_vanishes (f : t) (n : nat) :
  wf f → (size f ≤ n)%nat →
  ∃ h, differentiate f n = Ok h ∧ wf h ∧ size h = 1%nat ∧ values h = [0] ∧
       chebyshev_coefficients h = Ok [0].
Proof.
  intros Hf Hn.
  destruct (differentiate_high f n Hf Hn) as (h & Hh & Hwf & Hv & Hco).
  exists h. rewrite (wf_size h Hwf), Hv. done.
Qed.

Lemma differentiate_vanishes_witness :
  wf one ∧ (size one ≤ 1)%nat ∧
  ∃ h, differentiate one 1 = Ok h ∧ values h = [0].
Proof.
  assert (H : wf one) by (by apply (wf_single one 1)).
  split; [exact H|]. split; [cbn; lia|].
  destruct (differentiate_vanishes one 1 H ltac:(cbn; lia))
    as (h & Hh & _ & _ & Hv & _).
  by exists h.
Defined.

(** ** Affine functions *)

Section Affine.

Lemma init_one_point (c s : R) :
  ∃ h, __init__ [c] (Some s) = Ok h ∧ wf h ∧ values h = [c] ∧ _scale h = s ∧
       ∀ x, __call__ h x = c.
Proof.
  unfold __init__, interpolator, Np.set_at, Np.alter_last. cbn [bind length replicate].
  rewrite decide_True by lia.
  cbn [bind insert list_insert set_odd imap Nat.odd Nat.even negb compose length].
  rewrite decide_True by lia. cbn [bind Nat.sub alter list_alter].
  eexists. split; [reflexivity|]. cbn [values _values _scale].
  split; [|split; [done|split; [done|]]].
  - eapply wf_single; cbn [_values p yi xi]; done.
  - intros x. unfold __call__, bary_eval, interpolation_points.
    rewrite decide_True by done. cbn [p xi yi wi find_node].
    destruct (decide (x = 0)) as [->|Hx]; [done|]. cbn. field. done.
Qed.

Lemma init_two_points (v0 v1 s : R) :
  ∃ h, __init__ [v0; v1] (Some s) = Ok h ∧ wf h ∧ values h = [v0; v1] ∧
       _scale h = s ∧
       ∀ x, __call__ h x = (v0 + v1) / 2 + (v0 - v1) / 2 * x.
Proof.
  unfold __init__. cbn [bind length]. rewrite interpolation_points_2.
  unfold interpolator, Np.set_at, Np.alter_last.
  cbn [length replicate]. rewrite decide_True by lia.
  cbn [bind insert list_insert set_odd imap Nat.odd Nat.even negb compose length].
  rewrite decide_True by lia. cbn [bind Nat.sub alter list_alter].
  eexists. split; [reflexivity|]. cbn [values _values _scale].
  split; [|split; [done|split; [done|]]].
  - unfold wf. cbn. rewrite interpolation_points_2. split; [lia|done].
  - intros x. unfold __call__, bary_eval. cbn [p xi yi wi find_node].
    destruct (decide (x = 1)) as [->|H1]; [cbn; lra|].
    destruct (decide (x = -1)) as [->|H2]; [cbn; lra|].
    cbn. field. split; lra.
Qed.

(** The series [T_1], padded with zeros, takes the Chebyshev points as its
    values. *)
Lemma chebpolyval_linear_series (M : nat) :
  (2 ≤ M)%nat →
  chebpolyval (0 :: 1 :: replicate (M - 1) 0) = Ok (interpolation_points (S M)).
Proof.
  intros HM. set (c := 0 :: 1 :: replicate (M - 1) 0).
  assert (Hc : length c = S M) by (cbn; rewrite length_replicate; lia).
  assert (Hn : ∀ j, nth j c 0 = if decide (j = 1)%nat then 1 else 0).
  { intros [|[|j]]; [done|done|]. cbn [c nth]. rewrite decide_False by lia.
    rewrite nth_lookup.
    destruct (replicate _ _ !! j) as [x|] eqn:E; [|done].
    by apply lookup_replicate_1 in E as [-> _]. }
  rewrite (chebpolyval_closed c M) by (done || lia). f_equal.
  rewrite <- (length_interpolation_points (S M)) at 1. apply fmap_seq_nth.
  rewrite length_interpolation_points. intros k Hk.
  rewrite nth_interpolation_points by lia.
  replace (S M - 1)%nat with M by lia.
  assert (HM0 : INR M ≠ 0) by (apply not_0_INR; lia).
  unfold cos_transform.
  rewrite (rsum_ext _ (fun j =>
             (if decide (j = 1)%nat then 1 / 2 * cos (angle (2 * M) 1 k) else 0)
             + (if decide (j = 2 * M - 1)%nat
                then 1 / 2 * cos (angle (2 * M) (2 * M - 1) k) else 0))).
  - rewrite rsum_plus.
    rewrite (rsum_single _ (2 * M) 1) by (lia || (intros; by rewrite decide_False)).
    rewrite (rsum_single _ (2 * M) (2 * M - 1))
      by (lia || (intros; by rewrite decide_False)).
    rewrite !decide_True by done.
    rewrite (angle_sym _ (2 * M - 1) k), cos_angle_even by lia.
    rewrite (angle_sym _ k 1).
    replace (angle (2 * M) 1 k) with (INR k * PI / INR M); [lra|].
    unfold angle. rewrite mult_INR. change (INR 2) with 2. change (INR 1) with 1.
    by field.
  - intros j Hj. unfold ext. rewrite !Hn.
    destruct (decide (j ≤ M)%nat).
    + rewrite (decide_False (P := (j = 2 * M - 1)%nat)) by lia.
      destruct (decide (j = 1)%nat) as [->|]; [|lra].
      rewrite decide_False by lia. lra.
    + rewrite (decide_False (P := (j = 1)%nat)) by lia.
      destruct (decide (j = 2 * M - 1)%nat) as [->|].
      * rewrite decide_True by lia. rewrite decide_False by lia. lra.
      * rewrite decide_False by lia. lra.
Qed.

Lemma chebpolyfit_points (M : nat) :
  (2 ≤ M)%nat →
  chebpolyfit (interpolation_points (S M)) = Ok (0 :: 1 :: replicate (M - 1) 0).
Proof.
  intros HM. destruct (chebpolyval_Ok (0 :: 1 :: replicate (M - 1) 0))
    as (v & Hv & _ & Hfit); [cbn; lia|].
  rewrite chebpolyval_linear_series in Hv by done. by injection Hv as <-.
Qed.

Lemma nth_replicate_0 (n k : nat) : nth k (replicate n 0) 0 = 0.
Proof.
  rewrite nth_lookup. destruct (replicate _ _ !! k) as [x|] eqn:E; [|done].
  by apply lookup_replicate_1 in E as [-> _].
Qed.

Lemma nth_replicate_R (n k : nat) (x : R) :
  (k < n)%nat → nth k (replicate n x) 0 = x.
Proof. intros Hk. by rewrite nth_lookup, lookup_replicate_2. Qed.

Lemma coeffs_at_affine (a b : R) (k : nat) :
  (1 ≤ k)%nat →
  coeffs_at (fun x => a + b * x) k = a :: b :: replicate (2 ^ k - 1) 0.
Proof.
  intros Hk. set (M := (2 ^ k)%nat).
  assert (HM : (2 ≤ M)%nat).
  { unfold M. change 2%nat with (2 ^ 1)%nat at 1. apply Nat.pow_le_mono_r; lia. }
  unfold coeffs_at, sample_function. fold M.
  replace (M + 1)%nat with (S M) by lia.
  destruct (chebpolyfit_combine a b
              ((fun x => a + b * x) <$> interpolation_points (S M))
              (replicate (S M) 1) (interpolation_points (S M))
              (1 :: replicate M 0) (0 :: 1 :: replicate (M - 1) 0))
    as (c & -> & Hlc & Hc).
  - by rewrite length_fmap, length_interpolation_points, length_replicate.
  - by rewrite length_interpolation_points, length_replicate.
  - rewrite length_replicate. lia.
  - rewrite length_replicate. intros j Hj.
    rewrite nth_fmap_R by (by rewrite length_interpolation_points).
    rewrite nth_replicate_R by done. lra.
  - apply chebpolyfit_constant. lia.
  - by apply chebpolyfit_points.
  - rewrite length_replicate in Hlc, Hc.
    apply list_eq_nth; [cbn; rewrite length_replicate; lia|].
    intros j Hj. rewrite Hc by lia.
    destruct j as [|[|j]]; cbn [nth]; rewrite ?nth_replicate_0; lra.
Qed.

Lemma converged_affine (a b : R) (k : nat) :
  (2 ≤ k)%nat → converged (fun x => a + b * x) k.
Proof.
  intros Hk. unfold converged, residual_at, bound_at.
  rewrite coeffs_at_affine by lia.
  assert (H2 : (4 ≤ 2 ^ k)%nat).
  { change 4%nat with (2 ^ 2)%nat at 1. apply Nat.pow_le_mono_r; lia. }
  set (l := a :: b :: replicate (2 ^ k - 1) 0).
  assert (Hb : 0 <= 128 * emach * max_abs l).
  { pose proof (max_abs_nonneg l).
    unfold emach. assert (0 < / 2 ^ 52) by (apply Rinv_0_lt_compat, pow_lt; lra).
    nra. }
  apply Forall_forall. intros x Hx.
  apply list_elem_of_fmap in Hx as (y & -> & Hy).
  apply list_elem_of_lookup in Hy as (i & Hi).
  rewrite lookup_drop in Hi. unfold l in Hi. cbn [length] in Hi.
  rewrite length_replicate in Hi.
  replace (S (S (2 ^ k - 1)) - 2 + i)%nat with (S (S (2 ^ k - 3 + i))) in Hi by lia.
  cbn in Hi. apply lookup_replicate_1 in Hi as [-> _].
  by rewrite Rabs_R0.
Qed.

Lemma cutoff_affine (a b : R) (M : nat) :
  _cutoff (a :: b :: replicate M 0) 1 =
  if decide (Rabs b >= _threshold 1) then 2%nat else 1%nat.
Proof.
  pose proof threshold_1_bounds as Ht.
  destruct (cutoff_cases (a :: b :: replicate M 0) 1)
    as [(i & x & Hi & Hx & Hlater & ->)|[Hall ->]].
  - destruct i as [|[|i]].
    + case_decide; [|done].
      specialize (Hlater 1%nat b ltac:(lia) eq_refl). lra.
    + cbn in Hi. injection Hi as <-. by rewrite decide_True.
    + cbn in Hi. apply lookup_replicate_1 in Hi as [-> _].
      rewrite Rabs_R0 in Hx. lra.
  - case_decide; [|done].
    assert (Rabs b < _threshold 1); [|lra].
    apply Hall. apply list_elem_of_further, list_elem_of_here.
Qed.

Lemma from_function_affine_closed (a b : R) :
  from_function (fun x => a + b * x) None =
  if decide (Rabs b >= _threshold 1)
  then __init__ [a + b; a - b] (Some 1)
  else __init__ [a] (Some 1).
Proof.
  unfold from_function. cbn [dichotomy_args bind].
  rewrite (dichotomy_first (fun x => a + b * x) 2 12 2 true);
    [|lia|apply converged_affine; lia|intros; lia].
  cbn [bind]. rewrite coeffs_at_affine by lia.
  unfold from_chebcoeff. rewrite cutoff_affine.
  case_decide.
  - cbn [take]. rewrite chebpolyval_2. done.
  - cbn [take]. unfold chebpolyval. rewrite decide_True by done. done.
Qed.

End Affine.

(** X26.  In exact arithmetic, with the samples [a + b x_j] computed
    without rounding: the adaptive construction from an affine function
    stops at the first trial and stores the scale 1.  When [|b|] reaches
    the pruning threshold [128 * emach] the result has the two values
    [a + b] and [a - b] and evaluates to [a + b x] everywhere; otherwise
    the slope is pruned and the result is the constant [a].  In floating
    point the rounding noise of the samples is compared with the same
    threshold, so that for large [|a|] more coefficients are kept. *)
Theorem from_function_affine (a b : R) :
  ∃ h, from_function (fun x => a + b * x) None = Ok h ∧ wf h ∧ _scale h = 1 ∧
       if decide (Rabs b >= _threshold 1)
       then values h = [a + b; a - b] ∧ ∀ x, __call__ h x = a + b * x
       else values h = [a] ∧ ∀ x, __call__ h x = a.
Proof.
  rewrite from_function_affine_closed. case_decide.
  - destruct (init_two_points (a + b) (a - b) 1) as (h & Hh & Hwf & Hv & Hs & Hc).
    exists h. split; [done|]. split; [done|]. split; [done|]. split; [done|].
    intros x. rewrite Hc. lra.
  - destruct (init_one_point a 1) as (h & Hh & Hwf & Hv & Hs & Hc).
    by exists h.
Qed.

(** X27. The adaptive construction from the function [x] gives the same
    instance as [identity()]. *)
Theorem from_function_identity : from_function (fun x => x) None = identity.
Proof.
  rewrite (from_function_agree (fun x => x) (fun x => 0 + 1 * x))
    by (intros; lra).
  rewrite from_function_affine_closed.
  pose proof threshold_1_bounds.
  rewrite decide_True by (rewrite Rabs_R1; lra).
  replace (0 + 1) with 1 by lra. replace (0 - 1) with (-1) by lra.
  unfold identity, from_data, __init__.
  destruct (max_abs_spec [1; -1] (max_abs [1; -1])) as (_ & (x & Hx & Hm) & _).
  { apply max_abs_Ok. cbn. lia. }
  rewrite max_abs_Ok by (cbn; lia). cbn [bind].
  assert (max_abs [1; -1] = 1) as ->; [|done].
  rewrite Hm. apply elem_of_cons in Hx as [->|Hx]; [apply Rabs_R1|].
  apply list_elem_of_singleton in Hx as ->.
  unfold Rabs. destruct (Rcase_abs _); lra.
Qed.

(** ** Pointwise operations on constants *)

Section Constants.

Lemma init_one_point_any (c : R) (s : option R) :
  ∃ h, __init__ [c] s = Ok h ∧ wf h ∧ values h = [c] ∧ ∀ x, __call__ h x = c.
Proof.
  destruct s as [s|].
  - destruct (init_one_point c s) as (h & Hh & Hwf & Hv & _ & Hc). by exists h.
  - destruct (max_Ok (Np.abs [c])) as [m Hm]; [cbn; lia|].
    destruct (init_one_point c m) as (h & Hh & Hwf & Hv & _ & Hc).
    exists h. split; [|done].
    unfold __init__ in *. rewrite Hm. exact Hh.
Qed.

Lemma from_function_constant_closed (c : R) :
  from_function (fun _ => c) None = __init__ [c] (Some 1).
Proof.
  unfold from_function. cbn [dichotomy_args bind].
  rewrite (dichotomy_first (fun _ => c) 2 12 2 true);
    [|lia|apply converged_constant; lia|intros; lia].
  cbn [bind]. rewrite coeffs_at_constant.
  unfold from_chebcoeff. rewrite cutoff_constant by lra. cbn [take].
  unfold chebpolyval. by rewrite decide_True by done.
Qed.

Lemma from_function_constant_on (f : R → R) (c : R) :
  (∀ x, f x = c) →
  ∃ h, from_function f None = Ok h ∧ wf h ∧ values h = [c] ∧
       ∀ x, __call__ h x = c.
Proof.
  intros Hf. rewrite (from_function_agree f (fun _ => c)) by (intros; apply Hf).
  rewrite from_function_constant_closed.
  destruct (init_one_point c 1) as (h & Hh & Hwf & Hv & _ & Hc). by exists h.
Qed.

Lemma sum_single (h : t) (c : R) : values h = [c] → sum h = Ok (2 * c).
Proof.
  intros Hv. rewrite (sum_closed h [c]).
  - cbn. f_equal. field.
  - unfold chebyshev_coefficients, chebpolyfit. rewrite Hv. cbn [length].
    by rewrite decide_True.
Qed.

Lemma mul_constants (f g : t) (c d : R) :
  (∀ x, __call__ f x = c) → (∀ x, __call__ g x = d) →
  ∃ h, __mul__ f (Obj g) = Ok h ∧ wf h ∧ values h = [c * d] ∧
       ∀ x, __call__ h x = c * d.
Proof.
  intros Hf Hg. unfold __mul__, operator_method. cbn [cast_scalar bind].
  apply from_function_constant_on. intros x. by rewrite Hf, Hg.
Qed.

Lemma call_one (x : R) : __call__ one x = 1.
Proof.
  unfold __call__, bary_eval. cbn [one p xi yi wi find_node].
  destruct (decide (x = 0)) as [->|Hx]; [done|]. cbn. field. done.
Qed.

End Constants.

(** X28. The pointwise operations on instances that evaluate to constants
    [c] and [d] return single-valued instances: the product with an
    instance or a scalar has the value [c * d], the absolute value has
    [|c|], the inner product is [2 c d] and the norm is [sqrt 2 * |c|]. *)
Theorem constant_algebra (f g : t) (c d : R) :
  (∀ x, __call__ f x = c) → (∀ x, __call__ g x = d) →
  (∃ h, __mul__ f (Obj g) = Ok h ∧ values h = [c * d] ∧
        ∀ x, __call__ h x = c * d) ∧
  (∃ h, __mul__ f (Scalar d) = Ok h ∧ values h = [c * d]) ∧
  (∃ h, __abs__ f = Ok h ∧ values h = [Rabs c]) ∧
  dot f (Obj g) = Ok (2 * (c * d)) ∧
  norm f = Ok (sqrt 2 * Rabs c).
Proof.
  intros Hf Hg.
  destruct (mul_constants f g c d Hf Hg) as (h & Hh & Hwf & Hv & Hc).
  destruct (mul_constants f f c c Hf Hf) as (h2 & Hh2 & _ & Hv2 & _).
  split; [by exists h|]. split; [|split; [|split]].
  - destruct (init_one_point_any d None) as (s & Hs & _ & _ & Hsc).
    destruct (mul_constants f s c d Hf Hsc) as (h' & Hh' & _ & Hv' & _).
    exists h'. split; [|done].
    unfold __mul__, operator_method in *. cbn [cast_scalar bind] in *.
    rewrite Hs. exact Hh'.
  - destruct (from_function_constant_on (fun x => Rabs (__call__ f x)) (Rabs c))
      as (h' & Hh' & _ & Hv' & _); [by intros x; rewrite Hf|].
    by exists h'.
  - unfold dot. rewrite Hh. cbn [bind]. by apply sum_single.
  - unfold norm, dot. rewrite Hh2. cbn [bind].
    rewrite (sum_single h2 (c * c)) by done. cbn [bind]. f_equal.
    rewrite sqrt_mult_alt by lra. f_equal.
    change (c * c) with (Rsqr c). apply sqrt_Rsqr_abs.
Qed.

Lemma constant_algebra_witness :
  (∀ x, __call__ one x = 1) ∧ dot one (Obj one) = Ok (2 * (1 * 1)).
Proof.
  split; [exact call_one|].
  exact (proj1 (proj2 (proj2 (proj2 (constant_algebra one one 1 1 call_one call_one))))).
Defined.

(** ** The companion coefficients *)

(** X29. The coefficient array that [roots] hands to the solver is a
    palindrome of odd length [2 N - 1], with twice the constant
    coefficient in the middle; an empty coefficient array is refused. *)
Theorem companion_palindrome (ai : list R) :
  (1 ≤ length ai)%nat →
  ∃ coeffs, companion ai = Ok coeffs ∧
            length coeffs = (2 * length ai - 1)%nat ∧
            reverse coeffs = coeffs ∧
            nth (length ai - 1) coeffs 0 = 2 * nth 0 ai 0.
Proof.
  intros Hlen.
  destruct (companion_closed ai Hlen) as (l & Hl & Hlen' & Hnth).
  exists l. split; [done|]. split; [done|]. split.
  - apply list_eq_nth; [by rewrite length_reverse|].
    rewrite length_reverse. intros k Hk.
    rewrite (nth_lookup (reverse l)), reverse_lookup, <- nth_lookup by lia.
    rewrite Hlen'. destruct (decide (k < length ai)%nat).
    + destruct (Hnth (length ai - 1 - k)%nat) as [H1 H2]; [lia|].
      replace (length ai - 1 - (length ai - 1 - k))%nat with k in H1 by lia.
      replace (length ai - 1 + (length ai - 1 - k))%nat
        with (2 * length ai - 1 - S k)%nat in H2 by lia.
      by rewrite H1, H2.
    + destruct (Hnth (k - (length ai - 1))%nat) as [H1 H2]; [lia|].
      replace (length ai - 1 - (k - (length ai - 1)))%nat
        with (2 * length ai - 1 - S k)%nat in H1 by lia.
      replace (length ai - 1 + (k - (length ai - 1)))%nat with k in H2 by lia.
      by rewrite H1, H2.
  - destruct (Hnth 0%nat) as [H1 _]; [lia|].
    rewrite Nat.sub_0_r, decide_True in H1 by done. rewrite H1. lra.
Qed.

Lemma companion_palindrome_witness :
  (1 ≤ length [1; 2; 3])%nat ∧
  ∃ coeffs, companion [1; 2; 3] = Ok coeffs ∧ reverse coeffs = coeffs.
Proof.
  split; [cbn; lia|].
  destruct (companion_palindrome [1; 2; 3] ltac:(cbn; lia)) as (l & H1 & _ & H2 & _).
  by exists l.
Defined.
